(** * Lyapunov safe-set engine of [safe_learning/lyapunov.py]

    A shallow embedding of the level-set line search, the boundary
    evaluator and the [Lyapunov] classes, with the properties the
    specification states about them.

    Modelling conventions.
    - Python floats are modelled as exact rationals [Q]; equality of
      computed numbers is [Qeq] ([==]).  Rounding is not modelled
      there: a statement that gives the line search enough fuel
      ([search_fuel]) is about exact arithmetic.  On binary64 the loop
      of the search need not exit, so the search is given on binary64
      as well ([Binary64]), with what every return guarantees there.
    - A Python list passed by reference (the search interval) lives in a
      store [heap], addressed by a location; [bound[i] = x] updates the
      store in place, so aliasing between caller and callee is visible.
    - A call either returns, raises a Python exception, or does not
      terminate within the given fuel: type [outcome].
    - numpy values that may be a scalar or a one-dimensional array are of
      type [nd], with numpy's broadcasting written out. *)

From Stdlib Require Import QArith Qround Qabs Lia Lqa ZArith List.
From Stdlib Require PrimFloat.
From stdpp Require Import base option list gmap.

Local Open Scope Q_scope.

(** ** Outcomes and the state/exception monad *)

Inductive exn : Type :=
| IndexError
| ValueError
| TypeError
| NotImplementedError.

Inductive outcome (A : Type) : Type :=
| Ok (a : A)
| Raise (e : exn)
| Diverge.

Arguments Ok {A} a.
Arguments Raise {A} e.
Arguments Diverge {A}.

Definition obind {A B} (o : outcome A) (k : A -> outcome B) : outcome B :=
  match o with
  | Ok a => k a
  | Raise e => Raise e
  | Diverge => Diverge
  end.

(** A computation over a state [S]: the state survives an exception. *)
Definition M (S A : Type) : Type := S -> outcome A * S.

Definition ret {S A} (a : A) : M S A := fun s => (Ok a, s).

Definition bind {S A B} (m : M S A) (k : A -> M S B) : M S B :=
  fun s =>
    match m s with
    | (Ok a, s') => k a s'
    | (Raise e, s') => (Raise e, s')
    | (Diverge, s') => (Diverge, s')
    end.

Definition lift {S A} (o : outcome A) : M S A := fun s => (o, s).

Arguments bind : simpl never.

Declare Scope py_scope.
Delimit Scope py_scope with py.
Notation "'let!' x ':=' m 'in' k" := (bind m (fun x => k))
  (at level 10, x name, m at level 100, k at level 200) : py_scope.
Notation "'do!' m 'in' k" := (bind m (fun _ => k))
  (at level 10, m at level 100, k at level 200) : py_scope.
Local Open Scope py_scope.

(** ** The store of Python lists *)

Abbreviation loc := nat (only parsing).
Abbreviation heap := (gmap nat (list Q)) (only parsing).

(** [bound[i]]: [IndexError] past the end of the list. *)
Definition getitem (l : loc) (i : nat) : M heap Q := fun h =>
  match h !! l with
  | Some xs => match xs !! i with
               | Some x => (Ok x, h)
               | None => (Raise IndexError, h)
               end
  | None => (Raise TypeError, h)
  end.

(** [bound[i] = x]: in place; [IndexError] past the end of the list. *)
Definition setitem (l : loc) (i : nat) (x : Q) : M heap unit := fun h =>
  match h !! l with
  | Some xs => if decide (i < length xs)%nat
               then (Ok tt, <[l := <[i := x]> xs]> h)
               else (Raise IndexError, h)
  | None => (Raise TypeError, h)
  end.

(** A list literal: a new object at an unused location. *)
Definition new_list (xs : list Q) : M heap loc := fun h =>
  let l := fresh (dom h) in (Ok l, <[l := xs]> h).

Definition Qlt_bool (x y : Q) : bool := negb (Qle_bool y x).

(** ** [line_search_bisection] *)

(** The [while] loop of the search: one unit of fuel per test of the
    loop condition. *)
Fixpoint bisect_while (fuel : nat) (f : Q -> outcome bool) (bound : loc)
    (accuracy : Q) : M heap unit :=
  match fuel with
  | O => lift Diverge
  | S fuel' =>
      let! b1 := getitem bound 1 in
      let! b0 := getitem bound 0 in
      if Qlt_bool accuracy (b1 - b0) then
        let! m0 := getitem bound 0 in
        let! m1 := getitem bound 1 in
        let mean := (m0 + m1) / 2 in
        let! fm := lift (f mean) in
        do! (if fm : bool then setitem bound 0 mean
             else setitem bound 1 mean) in
        bisect_while fuel' f bound accuracy
      else ret tt
  end.

Definition line_search_bisection (fuel : nat) (f : Q -> outcome bool)
    (bound : loc) (accuracy : Q) : M heap (option loc) :=
  let! b0 := getitem bound 0 in
  let! fb0 := lift (f b0) in
  if negb fb0 then ret None
  else
    let! b1 := getitem bound 1 in
    let! fb1 := lift (f b1) in
    if fb1 : bool then
      let! b1' := getitem bound 1 in
      do! setitem bound 0 b1' in
      ret (Some bound)
    else
      do! bisect_while fuel f bound accuracy in
      ret (Some bound).

(** ** numpy values and broadcasting *)

(** A value that is either a scalar or a one-dimensional array. *)
Inductive nd (A : Type) : Type :=
| Scalar (a : A)
| Arr (xs : list A).

Arguments Scalar {A} a.
Arguments Arr {A} xs.

Abbreviation matrix := (list (list Q)) (only parsing).

Definition nd_map {A B} (g : A -> B) (x : nd A) : nd B :=
  match x with
  | Scalar a => Scalar (g a)
  | Arr xs => Arr (map g xs)
  end.

(** [x op y] elementwise: arrays of equal length are combined pointwise,
    a scalar or an array of length one is stretched, and any other pair of
    lengths is a [ValueError]. *)
Definition broadcast2 {A B C} (op : A -> B -> C) (x : nd A) (y : nd B)
    : outcome (nd C) :=
  match x, y with
  | Scalar a, Scalar b => Ok (Scalar (op a b))
  | Scalar a, Arr ys => Ok (Arr (map (op a) ys))
  | Arr xs, Scalar b => Ok (Arr (map (fun a => op a b) xs))
  | Arr xs, Arr ys =>
      if (length xs =? length ys)%nat then Ok (Arr (zip_with op xs ys))
      else match xs, ys with
           | [a], _ => Ok (Arr (map (op a) ys))
           | _, [b] => Ok (Arr (map (fun a => op a b) xs))
           | _, _ => Raise ValueError
           end
  end.

(** [x op= y]: when [x] is an array the result is written into [x], so it
    must have the shape of [x]. *)
Definition inplace2 {A B} (op : A -> B -> A) (x : nd A) (y : nd B)
    : outcome (nd A) :=
  match x, y with
  | Arr xs, Arr ys =>
      if (length xs =? length ys)%nat then Ok (Arr (zip_with op xs ys))
      else match ys with
           | [b] => Ok (Arr (map (fun a => op a b) xs))
           | _ => Raise ValueError
           end
  | _, _ => broadcast2 op x y
  end.

(** The elements of [a] at the positions where [mask] is true. *)
Fixpoint select {A} (a : list A) (mask : list bool) : list A :=
  match a, mask with
  | x :: a', b :: mask' =>
      if b then x :: select a' mask' else select a' mask'
  | _, _ => []
  end.

(** [a[mask]] for a boolean [mask]: the lengths must agree. *)
Definition bool_index {A} (a : list A) (mask : list bool)
    : outcome (list A) :=
  if (length a =? length mask)%nat then Ok (select a mask)
  else Raise IndexError.

Definition qmax (x y : Q) : Q := if Qle_bool x y then y else x.

(** [np.max]: [ValueError] on an empty array. *)
Definition np_max (xs : list Q) : outcome Q :=
  match xs with
  | [] => Raise ValueError
  | x :: r => Ok (fold_left qmax r x)
  end.

Definition np_all (xs : list bool) : bool := forallb id xs.

(** [np.sum(m, axis=1)]. *)
Definition sum_axis1 (m : matrix) : list Q :=
  map (fun row => fold_right Qplus 0 row) m.

(** [m[:, 0]]. *)
Fixpoint col0 (m : matrix) : outcome (list Q) :=
  match m with
  | [] => Ok []
  | row :: rest =>
      match row with
      | [] => Raise IndexError
      | x :: _ => obind (col0 rest) (fun xs => Ok (x :: xs))
      end
  end.

(** ** The [Lyapunov] classes *)

(** What the dynamics return: an array, or a pair of mean and error
    bounds. *)
Inductive next_states_t : Type :=
| NdArray (next_states : matrix)
| Pair (next_states error_bounds : matrix).

(** The attributes of a [Lyapunov] object; [V] holds the values of
    [lyapunov_function] on the discretization, computed at construction. *)
Record Lyapunov : Type := mkLyapunov {
  discretization : matrix;
  policy : matrix;
  safe_set : list bool;
  v_dot_negative : nd bool;
  initial_safe_set : option (list bool);
  cmax : Q;
  epsilon : Q;
  dynamics : matrix -> matrix -> next_states_t;
  lyapunov_function : matrix -> matrix;
  V : list Q
}.

Definition set_v_dot_negative (x : nd bool) (self : Lyapunov) : Lyapunov :=
  mkLyapunov (discretization self) (policy self) (safe_set self) x
    (initial_safe_set self) (cmax self) (epsilon self) (dynamics self)
    (lyapunov_function self) (V self).

Definition set_cmax (c : Q) (self : Lyapunov) : Lyapunov :=
  mkLyapunov (discretization self) (policy self) (safe_set self)
    (v_dot_negative self) (initial_safe_set self) c (epsilon self)
    (dynamics self) (lyapunov_function self) (V self).

Definition set_safe_set (x : list bool) (self : Lyapunov) : Lyapunov :=
  mkLyapunov (discretization self) (policy self) x (v_dot_negative self)
    (initial_safe_set self) (cmax self) (epsilon self) (dynamics self)
    (lyapunov_function self) (V self).

(** The two members a specialization overrides. The methods of the base
    class below take the class as a parameter, so what is proved of them
    holds for every specialization. *)
Record LyapunovClass : Type := mkClass {
  v_decrease_confidence :
    Lyapunov -> matrix -> next_states_t -> outcome (nd Q * nd Q);
  threshold : Lyapunov -> outcome (nd Q)
}.

(** The base class leaves both unimplemented. *)
Definition LyapunovBase : LyapunovClass :=
  mkClass (fun _ _ _ => Raise NotImplementedError)
          (fun _ => Raise NotImplementedError).

Module LyapunovDiscrete.

Definition threshold (lipschitz_dynamics lipschitz_lyapunov : nd Q)
    (self : Lyapunov) : outcome (nd Q) :=
  let lv := lipschitz_lyapunov in
  let lf := lipschitz_dynamics in
  obind (broadcast2 Qplus (Scalar 1) lf) (fun one_lf =>
  obind (broadcast2 Qmult (nd_map Qopp lv) one_lf) (fun p =>
  broadcast2 Qmult p (Scalar (epsilon self)))).

Definition v_decrease_confidence (lipschitz_lyapunov : nd Q)
    (self : Lyapunov) (states : matrix) (next_states : next_states_t)
    : outcome (nd Q * nd Q) :=
  obind
    (match next_states with
     | Pair next_states error_bounds =>
         obind (broadcast2 Qmult lipschitz_lyapunov
                  (Arr (sum_axis1 error_bounds)))
               (fun bound => Ok (next_states, bound))
     | NdArray next_states => Ok (next_states, Scalar 0)
     end)
    (fun '(next_states, bound) =>
       obind (col0 (lyapunov_function self next_states)) (fun vn =>
       obind (col0 (lyapunov_function self states)) (fun vs =>
       obind (broadcast2 Qminus (Arr vn) (Arr vs)) (fun v_decrease =>
       Ok (v_decrease, bound))))).

Definition class (lipschitz_dynamics lipschitz_lyapunov : nd Q)
    : LyapunovClass :=
  mkClass (v_decrease_confidence lipschitz_lyapunov)
          (threshold lipschitz_dynamics lipschitz_lyapunov).

End LyapunovDiscrete.

Section Engine.

Variable cls : LyapunovClass.

(** [v_decrease_bound]: the error is added onto the mean in place,
    [v_dot_bound += v_dot_error], that is into the array that
    [v_decrease_confidence] returned.  Both classes of the module build
    that array at every call, so the addition is seen by nobody else;
    the embedding does not follow a class that would hand out an array
    it keeps. *)
Definition v_decrease_bound (self : Lyapunov) (states : matrix)
    (next_states : next_states_t) : outcome (nd Q) :=
  obind (v_decrease_confidence cls self states next_states)
    (fun '(v_dot, v_dot_error) => inplace2 Qplus v_dot v_dot_error).

Definition _levelset_is_safe (self : Lyapunov) (c : Q) : outcome bool :=
  match v_dot_negative self with
  | Arr vdn =>
      obind (bool_index vdn (map (fun v => Qle_bool v c) (V self)))
        (fun sel => Ok (np_all sel))
  | Scalar _ => Raise IndexError
  end.

Definition max_safe_levelset (fuel : nat) (self : Lyapunov)
    (accuracy : Q) (interval : option loc) : M heap Q :=
  let! interval :=
    match interval with
    | None => let! m := lift (np_max (V self)) in
              new_list [0; m + accuracy]
    | Some l => ret l
    end in
  let! bound :=
    line_search_bisection fuel (_levelset_is_safe self) interval accuracy in
  match bound with
  | None => ret 0
  | Some bound =>
      let! b0 := getitem bound 0 in
      lift (obind (bool_index (V self)
                     (map (fun v => Qle_bool v b0) (V self))) np_max)
  end.

Definition safety_constraint (self : Lyapunov) (policy : matrix)
    (include_initial : bool) : outcome (nd bool) :=
  let prediction := dynamics self (discretization self) policy in
  obind (v_decrease_bound self (discretization self) prediction)
    (fun v_dot_bound =>
  obind (threshold cls self) (fun thr =>
  obind (broadcast2 Qlt_bool v_dot_bound thr) (fun v_dot_negative =>
  match include_initial, initial_safe_set self with
  | true, Some init => inplace2 orb v_dot_negative (Arr init)
  | _, _ => Ok v_dot_negative
  end))).

Definition update_safe_set (fuel : nat) (accuracy : Q)
    (interval : option loc) : M (Lyapunov * heap) unit :=
  fun '(self, h) =>
    match safety_constraint self (policy self) true with
    | Ok vdn =>
        let self1 := set_v_dot_negative vdn self in
        match max_safe_levelset fuel self1 accuracy interval h with
        | (Ok c, h') =>
            let self2 := set_cmax c self1 in
            let self3 :=
              set_safe_set (map (fun v => Qle_bool v (cmax self2))
                              (V self2)) self2 in
            (Ok tt, (self3, h'))
        | (Raise e, h') => (Raise e, (self1, h'))
        | (Diverge, h') => (Diverge, (self1, h'))
        end
    | Raise e => (Raise e, (self, h))
    | Diverge => (Diverge, (self, h))
    end.

End Engine.

(** ** [smallest_boundary_value] *)

(** A float that may be [np.inf]. *)
Inductive extended : Type :=
| Finite (q : Q)
| Infinity.

Definition ext_lt (x y : extended) : bool :=
  match x, y with
  | Finite a, Finite b => Qlt_bool a b
  | Finite _, Infinity => true
  | Infinity, _ => false
  end.

Definition ext_le (x y : extended) : Prop :=
  match x, y with
  | Finite a, Finite b => a <= b
  | _, Infinity => True
  | Infinity, Finite _ => False
  end.

(** Python's [min(a, b)]: [b] when [b < a], otherwise [a]. *)
Definition py_min (a b : extended) : extended :=
  if ext_lt b a then b else a.

(** [tf.reduce_min] of a vector; its value on an empty vector is the
    neutral element of the minimum. *)
Definition reduce_min (xs : list Q) : extended :=
  fold_left (fun m x => py_min m (Finite x)) xs Infinity.

(** Modelled from the spec: [GridWorld] of [functions.py], the rectangular
    discretization, known here through its per-axis coordinate arrays
    [discrete_points] and its dimensionality [ndim]. *)
Record GridWorld : Type := mkGridWorld {
  discrete_points : list (list Q)
}.

Definition ndim (d : GridWorld) : nat := length (discrete_points d).

(** Modelled from the spec: [num] evenly spaced samples spanning
    [[lo, hi]], both ends included. *)
Definition linspace (lo hi : Q) (num : nat) : list Q :=
  map (fun k => lo + inject_Z (Z.of_nat k) * ((hi - lo)
                       / inject_Z (Z.of_nat (num - 1))))
      (seq 0 num).

(** Modelled from the spec: [GridWorld(limits, num_points)], the grid
    whose axis [i] has [num_points[i]] samples spanning [limits[i]]. *)
Definition grid_world (limits : list (Q * Q)) (num_points : list nat)
    : GridWorld :=
  mkGridWorld (zip_with (fun lim n => linspace (fst lim) (snd lim) n)
                 limits num_points).

(** [axis[[0, -1]]]: the first and the last sample. *)
Definition first_last (axis : list Q) : outcome (list Q) :=
  match axis with
  | [] => Raise IndexError
  | x :: _ => Ok [x; List.last axis x]
  end.

(** The rows of [np.column_stack] over the ravelled [np.meshgrid] with
    [indexing='ij']: every combination of one sample per axis, the first
    axis varying slowest. *)
Fixpoint meshgrid_points (axes : list (list Q)) : matrix :=
  match axes with
  | [] => [[]]
  | axis :: rest =>
      flat_map (fun x => map (cons x) (meshgrid_points rest)) axis
  end.

(** The points generated for axis [i]. *)
Definition boundary_points (d : GridWorld) (i : nat) : outcome matrix :=
  match discrete_points d !! i with
  | None => Raise IndexError
  | Some axis =>
      obind (first_last axis) (fun ends =>
      Ok (meshgrid_points (<[i := ends]> (discrete_points d))))
  end.

(** The [for] loop over the axes, carrying [min_value]. *)
Fixpoint boundary_loop (fun_ : matrix -> list Q) (d : GridWorld)
    (axes : list nat) (min_value : extended) : outcome extended :=
  match axes with
  | [] => Ok min_value
  | i :: rest =>
      obind (boundary_points d i) (fun all_points =>
      let smallest := reduce_min (fun_ all_points) in
      boundary_loop fun_ d rest (py_min min_value smallest))
  end.

(** [fun_] maps the rows of [all_points] to the values of the tensor
    [fun(all_points)], evaluated under the function's own [feed_dict]. *)
Definition smallest_boundary_value (fun_ : matrix -> list Q)
    (d : GridWorld) : outcome extended :=
  boundary_loop fun_ d (seq 0 (ndim d)) Infinity.

(** * Notions used in the statements *)

(** [bisect_run] is the loop of [bisect_while] acting on the pair
    [(bound[0], bound[1])] instead of the store. *)
Fixpoint bisect_run (fuel : nat) (f : Q -> outcome bool) (accuracy : Q)
    (lo hi : Q) : outcome unit * (Q * Q) :=
  match fuel with
  | O => (Diverge, (lo, hi))
  | S fuel' =>
      if Qlt_bool accuracy (hi - lo) then
        let mean := (lo + hi) / 2 in
        match f mean with
        | Ok true => bisect_run fuel' f accuracy mean hi
        | Ok false => bisect_run fuel' f accuracy lo mean
        | Raise e => (Raise e, (lo, hi))
        | Diverge => (Diverge, (lo, hi))
        end
      else (Ok tt, (lo, hi))
  end.

(** The store after the interval at [l] has been set to [lo, hi]. *)
Definition with_bounds (l : loc) (b : Q * Q) (rest : list Q) (h : heap)
    : heap :=
  <[l := fst b :: snd b :: rest]> h.

Arguments with_bounds : simpl never.

(** Fuel that suffices for the search on [[lo, hi]]: the number of
    halvings that bring the width below [accuracy], plus one. *)
Definition search_fuel (lo hi accuracy : Q) : nat :=
  S (Z.to_nat (Z.log2_up (Qceiling ((hi - lo) / accuracy)))).


(** A predicate that always answers, as the search calls it. *)
Definition pure (g : Q -> bool) : Q -> outcome bool := fun x => Ok (g x).


(** The lower end of the interval the search starts from. *)
Definition lower_end (interval : option loc) (h : heap) : option Q :=
  match interval with
  | None => Some 0
  | Some l => match h !! l with
              | Some (lo :: _) => Some lo
              | _ => None
              end
  end.

(** The value returned once the search has settled on the bound [b0]. *)
Definition levelset_value (self : Lyapunov) (b0 : Q) : outcome Q :=
  obind (bool_index (V self) (map (fun v => Qle_bool v b0) (V self)))
        np_max.

(** Fuel that suffices for a search over the list at [l]. *)
Definition interval_fuel (l : loc) (accuracy : Q) (h : heap) : nat :=
  match h !! l with
  | Some (lo :: hi :: _) => search_fuel lo hi accuracy
  | _ => 0
  end.

(** Fuel that suffices for [max_safe_levelset]. *)
Definition msl_fuel (self : Lyapunov) (accuracy : Q)
    (interval : option loc) (h : heap) : nat :=
  match interval with
  | Some l => interval_fuel l accuracy h
  | None => match np_max (V self) with
            | Ok m => search_fuel 0 (m + accuracy) accuracy
            | _ => 0%nat
            end
  end.

(** ** The objects of the test suite *)

Module LyapunovTest.

(** The objective of [LineSearchTest]: [x < 0.5]. *)
Definition objective (x : Q) : bool := Qlt_bool x (1 # 2).

Definition discretization : matrix := [[0]; [1]; [2]; [3]].
Definition lyapunov_function (x : matrix) : matrix := map (map Qabs) x.
Definition dynamics (x u : matrix) : next_states_t :=
  NdArray (map (map (fun _ => 0)) x).
Definition epsilon : Q := 1.

(** [self.lyap] as [setUp] leaves it. *)
Definition lyap : Lyapunov :=
  mkLyapunov discretization [[]; []; []; []]
    [false; false; false; false] (Arr [false; false; false; false])
    None 0 epsilon dynamics lyapunov_function [0; 1; 2; 3].

(** A system contracting to the origin, [x' = x / 2], under the
    discrete-time class with threshold [-1 * (1 + 1/2) * (1/10)]. *)
Definition contracting : Lyapunov :=
  mkLyapunov discretization [[]; []; []; []]
    [false; false; false; false] (Arr [false; false; false; false])
    None 0 (1 # 10)
    (fun x u => NdArray (map (map (fun v => v / 2)) x))
    lyapunov_function [0; 1; 2; 3].

Definition contracting_class : LyapunovClass :=
  LyapunovDiscrete.class (Scalar (1 # 2)) (Scalar 1).

(** The mocked members of [test_update]: decrease means
    [[-0.5, -0.2, 0, -1]] with error 0, and threshold [-0.15]. *)
Definition mock_class : LyapunovClass :=
  mkClass
    (fun _ _ _ => Ok (Arr [- (1 # 2); - (1 # 5); 0; -1], Scalar 0))
    (fun _ => Ok (Scalar (- (15 # 100)))).

(** [self.lyap] of [test_update] once the initial safe set
    [[F, F, T, F]] has been assigned. *)
Definition lyap_initial : Lyapunov :=
  mkLyapunov discretization [[]; []; []; []]
    [false; false; false; false] (Arr [false; false; false; false])
    (Some [false; false; true; false]) 0 epsilon dynamics
    lyapunov_function [0; 1; 2; 3].

(** [self.lyap] of [test_levelset_is_safe]. *)
Definition lyap_origin_only : Lyapunov :=
  set_v_dot_negative (Arr [true; false; false; false]) lyap.

(** A grid away from the origin on which nothing decreases. *)
Definition positive : Lyapunov :=
  mkLyapunov [[1]; [2]; [3]] [[]; []; []]
    [false; false; false] (Arr [false; false; false])
    None 0 epsilon dynamics lyapunov_function [1; 2; 3].

End LyapunovTest.

Module LyapunovDiscreteTest.

(** The object of [LyapunovDiscreteTest.test_init]: a Lyapunov function
    with values [0, 1, 2], [lv = 0.3], [lf = 0.4], [eps = 0.5]. *)
Definition lyap : Lyapunov :=
  mkLyapunov [[1]; [2]; [3]] [[]; []; []]
    [false; false; false] (Arr [false; false; false])
    None 0 (1 # 2)
    (fun x u => NdArray x)
    (fun _ => [[0]; [1]; [2]]) [0; 1; 2].

Definition lipschitz_lyapunov : nd Q := Scalar (3 # 10).
Definition lipschitz_dynamics : nd Q := Scalar (2 # 5).
Definition dynamics : matrix := [[1]; [2]; [3]].

End LyapunovDiscreteTest.

(** Entry [i] of a value, a scalar being stretched to every index. *)
Definition nd_at {A} (x : nd A) (i : nat) : option A :=
  match x with
  | Scalar a => Some a
  | Arr xs => xs !! i
  end.

(** A shape that combines with an array of length [n] entry by entry. *)
Definition fits {A} (y : nd A) (n : nat) : Prop :=
  match y with
  | Scalar _ => True
  | Arr ys => length ys = n
  end.

(** Whether point [i] belongs to the initial safe set. *)
Definition in_initial (self : Lyapunov) (i : nat) : bool :=
  match initial_safe_set self with
  | Some init => default false (init !! i)
  | None => false
  end.

(** Fuel that suffices for [update_safe_set]. *)
Definition update_fuel (cls : LyapunovClass) (self : Lyapunov)
    (accuracy : Q) (interval : option loc) (h : heap) : nat :=
  match safety_constraint cls self (policy self) true with
  | Ok vdn => msl_fuel (set_v_dot_negative vdn self) accuracy interval h
  | _ => 0
  end.

(** The predicted states of a prediction, without the error bounds. *)
Definition mean_part (n : next_states_t) : matrix :=
  match n with
  | NdArray m => m
  | Pair m _ => m
  end.

(** [p] lies on a boundary face of axis [i]: it has one coordinate per
    axis, coordinate [i] is the first or the last sample of axis [i], and
    every other coordinate is a sample of its axis. *)
Definition on_face (d : GridWorld) (i : nat) (p : list Q) : Prop :=
  (i < ndim d)%nat /\
  length p = ndim d /\
  forall j x axis,
    p !! j = Some x -> discrete_points d !! j = Some axis ->
    if decide (j = i)
    then axis !! 0%nat = Some x \/ axis !! (length axis - 1)%nat = Some x
    else x ∈ axis.

(** The function of the test: [2 * sum |x|], vectorized. *)
Definition test_fun (pts : matrix) : list Q :=
  map (fun p => 2 * fold_right Qplus 0 (map Qabs p)) pts.

(** The grid of the test: three samples on [[-1.5, 1]] and on
    [[-1, 1.5]]. *)
Definition test_grid : GridWorld :=
  grid_world [(- (3 # 2), 1); (-1, 3 # 2)] [3%nat; 3%nat].

(** ** Two statements of the specification, as it words them *)

(** "[max_safe_levelset] never returns a value [c] such that some point
    with [V <= c] has [v_dot_negative] false." *)
Definition returned_level_always_safe : Prop :=
  forall fuel self accuracy interval (h h' : heap) c vdn,
    0 < accuracy ->
    v_dot_negative self = Arr vdn ->
    max_safe_levelset fuel self accuracy interval h = (Ok c, h') ->
    ~ exists i v, V self !! i = Some v /\ v <= c /\ vdn !! i = Some false.

(** "After any call to [update_safe_set], [safe_set = {i : V[i] <= cmax}],
    every point with [V <= cmax] satisfies [v_dot_negative], and the
    initial safe set is treated as satisfying the decrease condition." *)
Definition safe_set_always_decreasing : Prop :=
  forall cls fuel accuracy interval self (h h' : heap) self',
    update_safe_set cls fuel accuracy interval (self, h)
      = (Ok tt, (self', h')) ->
    safe_set self' = map (fun v => Qle_bool v (cmax self')) (V self') /\
    (forall vdn i v,
       v_dot_negative self' = Arr vdn ->
       V self' !! i = Some v -> v <= cmax self' -> vdn !! i = Some true) /\
    (forall vdn init i,
       v_dot_negative self' = Arr vdn ->
       initial_safe_set self' = Some init ->
       (i < length (V self'))%nat ->
       init !! i = Some true -> vdn !! i = Some true).

(** "For every caller-supplied explicit interval,
    [max_safe_levelset(accuracy, interval)] leaves the caller's interval
    list modified to the refined (or collapsed) bounds after the call." *)
Definition interval_always_modified : Prop :=
  forall fuel self accuracy l (h h' : heap) lo hi rest c,
    0 < accuracy ->
    h !! l = Some (lo :: hi :: rest) ->
    max_safe_levelset fuel self accuracy (Some l) h = (Ok c, h') ->
    exists lo' hi',
      h' !! l = Some (lo' :: hi' :: rest) /\
      ((lo' = hi /\ hi' = hi) \/ hi' - lo' <= accuracy).

(** * The rest of the module *)

(** ** The continuous-time class *)

(** [x op y] for two lists, by the rule of [broadcast2] on arrays. *)
Definition broadcast_list {A B C} (op : A -> B -> C) (xs : list A)
    (ys : list B) : outcome (list C) :=
  if (length xs =? length ys)%nat then Ok (zip_with op xs ys)
  else match xs, ys with
       | [a], _ => Ok (map (op a) ys)
       | _, [b] => Ok (map (fun a => op a b) xs)
       | _, _ => Raise ValueError
       end.

(** The results of [g] on the elements of a list, up to the first
    exception. *)
Fixpoint omap_list {A B} (g : A -> outcome B) (l : list A)
    : outcome (list B) :=
  match l with
  | [] => Ok []
  | x :: r => obind (g x) (fun y =>
              obind (omap_list g r) (fun ys => Ok (y :: ys)))
  end.

(** [x op y] for two-dimensional arrays given by their rows: the rule of
    [broadcast2] along the rows, then along the columns. An array with no
    rows carries no column count. *)
Definition broadcast_matrix {A B C} (op : A -> B -> C)
    (a : list (list A)) (b : list (list B)) : outcome (list (list C)) :=
  obind (broadcast_list pair a b)
        (omap_list (fun rs => broadcast_list op (fst rs) (snd rs))).

Module LyapunovContinuous.

Definition threshold (lipschitz : nd Q) (self : Lyapunov)
    : outcome (nd Q) :=
  broadcast2 Qmult (nd_map Qopp lipschitz) (Scalar (epsilon self)).

Definition lipschitz_constant (dynamics_bound lipschitz_dynamics
    lipschitz_lyapunov lipschitz_lyapunov_derivative : nd Q)
    : outcome (nd Q) :=
  obind (broadcast2 Qmult dynamics_bound lipschitz_lyapunov_derivative)
    (fun x =>
  obind (broadcast2 Qmult lipschitz_lyapunov lipschitz_dynamics) (fun y =>
  broadcast2 Qplus x y)).

(** [gradient] is [self.lyapunov_function.gradient]. *)
Definition v_decrease_confidence (gradient : matrix -> matrix)
    (self : Lyapunov) (states : matrix) (next_states : next_states_t)
    : outcome (nd Q * nd Q) :=
  let dV := gradient states in
  obind
    (match next_states with
     | Pair next_states error_bounds =>
         obind (broadcast_matrix Qmult (map (map Qabs) dV) error_bounds)
               (fun p => Ok (next_states, Arr (sum_axis1 p)))
     | NdArray next_states => Ok (next_states, Scalar 0)
     end)
    (fun '(next_states, error) =>
       obind (broadcast_matrix Qmult dV next_states) (fun p =>
       Ok (Arr (sum_axis1 p), error))).

Definition class (lipschitz : nd Q) (gradient : matrix -> matrix)
    : LyapunovClass :=
  mkClass (v_decrease_confidence gradient) (threshold lipschitz).

End LyapunovContinuous.

(** ** Notions used in the further statements *)

(** What [max_safe_levelset] returns on the interval [[lo, hi]], as a
    function of the two bounds. *)
Definition search_level (fuel : nat) (self : Lyapunov)
    (accuracy lo hi : Q) : outcome Q :=
  match _levelset_is_safe self lo with
  | Ok false => Ok 0
  | Ok true =>
      match _levelset_is_safe self hi with
      | Ok true => levelset_value self hi
      | Ok false =>
          match bisect_run fuel (_levelset_is_safe self) accuracy lo hi with
          | (Ok _, b) => levelset_value self (fst b)
          | (Raise e, _) => Raise e
          | (Diverge, _) => Diverge
          end
      | Raise e => Raise e
      | Diverge => Diverge
      end
  | Raise e => Raise e
  | Diverge => Diverge
  end.

(** The interval [max_safe_levelset] searches: the first two elements of
    the caller's list, or [[0, max(V) + accuracy]]. *)
Definition search_interval (self : Lyapunov) (accuracy : Q)
    (interval : option loc) (h : heap) : option (Q * Q) :=
  match interval with
  | None => match np_max (V self) with
            | Ok m => Some (0, m + accuracy)
            | _ => None
            end
  | Some l => match h !! l with
              | Some (lo :: hi :: _) => Some (lo, hi)
              | _ => None
              end
  end.

(** The members of the class read none of the attributes that
    [update_safe_set] assigns. *)
Definition ignores_search_state (cls : LyapunovClass) : Prop :=
  forall self x c s,
    let self' := set_safe_set s (set_cmax c (set_v_dot_negative x self)) in
    (forall states next_states,
       v_decrease_confidence cls self' states next_states
       = v_decrease_confidence cls self states next_states) /\
    threshold cls self' = threshold cls self.

(** Every entry of a value satisfies [P]. *)
Definition nd_all {A} (P : A -> Prop) (x : nd A) : Prop :=
  match x with
  | Scalar a => P a
  | Arr xs => Forall P xs
  end.

(** Two values of the same shape with entries related by [R]. *)
Definition nd_rel {A} (R : A -> A -> Prop) (x x' : nd A) : Prop :=
  match x, x' with
  | Scalar a, Scalar a' => R a a'
  | Arr l, Arr l' => Forall2 R l l'
  | _, _ => False
  end.

(** [safe_set] is the level set at [cmax]. *)
Definition consistent (self : Lyapunov) : Prop :=
  safe_set self = map (fun v => Qle_bool v (cmax self)) (V self).

Definition set_dynamics (d : matrix -> matrix -> next_states_t)
    (self : Lyapunov) : Lyapunov :=
  mkLyapunov (discretization self) (policy self) (safe_set self)
    (v_dot_negative self) (initial_safe_set self) (cmax self)
    (epsilon self) d (lyapunov_function self) (V self).

(** The 1-norm of a state. *)
Definition norm1 (x : list Q) : Q := fold_right Qplus 0 (map Qabs x).

(** ** A two-dimensional system for the further statements *)

Module PlaneTest.

(** Three states of the plane. *)
Definition states : matrix := [[0; 0]; [1; -1]; [2; 1]].

(** The engine of [x' = -x] with the 1-norm as Lyapunov function. *)
Definition lyap : Lyapunov :=
  mkLyapunov states [[]; []; []] [false; false; false]
    (Arr [false; false; false]) None 0 (1 # 10)
    (fun x u => NdArray (map (map Qopp) x))
    (fun x => map (fun row => [norm1 row]) x) [0; 2; 3].

(** The gradient of [x1^2 + x2^2]. *)
Definition gradient (x : matrix) : matrix := map (map (fun v => 2 * v)) x.

(** The derivative predicted at the three states, and error bounds on
    it. *)
Definition prediction : matrix := [[0; 0]; [-1; 1]; [-2; -1]].
Definition error_bounds : matrix := [[0; 0]; [1; 1]; [1 # 2; 0]].

End PlaneTest.

Module MoreTests.

(** The engine of the test suite with everything marked. *)
Definition lyap_all_safe : Lyapunov :=
  set_v_dot_negative (Arr [true; true; true; true]) LyapunovTest.lyap.

(** The engine of the test suite with the first two points marked. *)
Definition lyap_two_safe : Lyapunov :=
  set_v_dot_negative (Arr [true; true; false; false]) LyapunovTest.lyap.

(** The engine of the test suite with an initial safe set that holds
    every point. *)
Definition lyap_initial_everywhere : Lyapunov :=
  mkLyapunov LyapunovTest.discretization [[]; []; []; []]
    [false; false; false; false] (Arr [false; false; false; false])
    (Some [true; true; true; true]) 0 LyapunovTest.epsilon
    LyapunovTest.dynamics LyapunovTest.lyapunov_function [0; 1; 2; 3].

(** A store with the interval of a caller and another of its lists. *)
Definition store : heap := {[ 7%nat := [0; 4; 9]; 3%nat := [1; 1] ]}.

(** Error bounds on the predictions of the contracting system. *)
Definition error_bounds : matrix := [[0]; [2 # 5]; [0]; [0]].

(** A grid whose second axis has no sample. *)
Definition hollow_grid : GridWorld := mkGridWorld [[0; 1]; []].

End MoreTests.

(** * The line search on binary64 *)

(** The search once more, on the numbers Python computes with: IEEE 754
    binary64 with rounding to nearest, which are the kernel's primitive
    floats.  The code is that of [line_search_bisection] above, line by
    line; only the type of the numbers differs. *)
Module Binary64.

Import PrimFloat.

Abbreviation heap := (gmap nat (list float)) (only parsing).

Definition getitem (l : loc) (i : nat) : M heap float := fun h =>
  match h !! l with
  | Some xs => match xs !! i with
               | Some x => (Ok x, h)
               | None => (Raise IndexError, h)
               end
  | None => (Raise TypeError, h)
  end.

Definition setitem (l : loc) (i : nat) (x : float) : M heap unit := fun h =>
  match h !! l with
  | Some xs => if decide (i < length xs)%nat
               then (Ok tt, <[l := <[i := x]> xs]> h)
               else (Raise IndexError, h)
  | None => (Raise TypeError, h)
  end.

Definition two : float := 2%float.

Fixpoint bisect_while (fuel : nat) (f : float -> outcome bool) (bound : loc)
    (accuracy : float) : M heap unit :=
  match fuel with
  | O => lift Diverge
  | S fuel' =>
      let! b1 := getitem bound 1 in
      let! b0 := getitem bound 0 in
      if PrimFloat.ltb accuracy (PrimFloat.sub b1 b0) then
        let! m0 := getitem bound 0 in
        let! m1 := getitem bound 1 in
        let mean := PrimFloat.div (PrimFloat.add m0 m1) two in
        let! fm := lift (f mean) in
        do! (if fm : bool then setitem bound 0 mean
             else setitem bound 1 mean) in
        bisect_while fuel' f bound accuracy
      else ret tt
  end.

Definition line_search_bisection (fuel : nat) (f : float -> outcome bool)
    (bound : loc) (accuracy : float) : M heap (option loc) :=
  let! b0 := getitem bound 0 in
  let! fb0 := lift (f b0) in
  if negb fb0 then ret None
  else
    let! b1 := getitem bound 1 in
    let! fb1 := lift (f b1) in
    if fb1 : bool then
      let! b1' := getitem bound 1 in
      do! setitem bound 0 b1' in
      ret (Some bound)
    else
      do! bisect_while fuel f bound accuracy in
      ret (Some bound).






End Binary64.

(** * Properties *)

(** ** Comparisons on [Q] *)

Lemma Qlt_bool_true (x y : Q) : Qlt_bool x y = true <-> x < y.
Proof.
  unfold Qlt_bool. destruct (Qle_bool y x) eqn:E; simpl.
  - apply Qle_bool_iff in E. split; [discriminate | lra].
  - split; [intros _ | reflexivity].
    apply Qnot_le_lt. intros H. apply Qle_bool_iff in H. congruence.
Qed.

Lemma Qlt_bool_false (x y : Q) : Qlt_bool x y = false <-> y <= x.
Proof.
  unfold Qlt_bool. destruct (Qle_bool y x) eqn:E; simpl.
  - apply Qle_bool_iff in E. split; [auto | reflexivity].
  - split; [discriminate | intros H].
    apply Qle_bool_iff in H. congruence.
Qed.

Lemma Qle_bool_false (x y : Q) : Qle_bool x y = false <-> y < x.
Proof.
  split; intros H.
  - apply Qnot_le_lt. intros H'. apply Qle_bool_iff in H'. congruence.
  - destruct (Qle_bool x y) eqn:E; [| reflexivity].
    apply Qle_bool_iff in E. lra.
Qed.

(** ** The loop of the line search, on the two bounds alone *)

Lemma with_bounds_id l lo hi rest (h : heap) :
  h !! l = Some (lo :: hi :: rest) -> with_bounds l (lo, hi) rest h = h.
Proof. intros H. unfold with_bounds. simpl. by apply insert_id. Qed.

Lemma with_bounds_twice l b b' rest (h : heap) :
  with_bounds l b' rest (with_bounds l b rest h) = with_bounds l b' rest h.
Proof. unfold with_bounds. apply insert_insert_eq. Qed.

Lemma with_bounds_lookup l b rest (h : heap) :
  with_bounds l b rest h !! l = Some (fst b :: snd b :: rest).
Proof. unfold with_bounds. apply lookup_insert_eq. Qed.

(** Stepping through the monadic code. *)

Lemma bind_getitem {B} l i (k : Q -> M heap B) (h : heap) xs x :
  h !! l = Some xs -> xs !! i = Some x ->
  bind (getitem l i) k h = k x h.
Proof. intros Hl Hi. unfold bind, getitem. by rewrite Hl, Hi. Qed.

Lemma bind_setitem {B} l i x (k : unit -> M heap B) (h : heap) xs :
  h !! l = Some xs -> (i < length xs)%nat ->
  bind (setitem l i x) k h = k tt (<[l := <[i := x]> xs]> h).
Proof.
  intros Hl Hi. unfold bind, setitem. rewrite Hl.
  by destruct (decide (i < length xs)%nat).
Qed.

Lemma bind_lift {S A B} (o : outcome A) (k : A -> M S B) (s : S) :
  bind (lift o) k s =
    match o with
    | Ok a => k a s
    | Raise e => (Raise e, s)
    | Diverge => (Diverge, s)
    end.
Proof. unfold bind, lift. by destruct o. Qed.

Lemma bind_ret {S A B} (a : A) (k : A -> M S B) (s : S) :
  bind (ret a) k s = k a s.
Proof. reflexivity. Qed.

Lemma bind_assoc {S A B C} (m : M S A) (k1 : A -> M S B)
    (k2 : B -> M S C) (s : S) :
  bind (bind m k1) k2 s = bind m (fun a => bind (k1 a) k2) s.
Proof. unfold bind. by destruct (m s) as [[a | e |] s']. Qed.

Lemma bisect_while_run fuel f l accuracy :
  forall lo hi rest (h : heap),
    h !! l = Some (lo :: hi :: rest) ->
    bisect_while fuel f l accuracy h =
      (fst (bisect_run fuel f accuracy lo hi),
       with_bounds l (snd (bisect_run fuel f accuracy lo hi)) rest h).
Proof.
  induction fuel as [| fuel IH]; intros lo hi rest h Hl.
  - simpl. unfold lift. by rewrite with_bounds_id.
  - cbn [bisect_while bisect_run].
    rewrite (bind_getitem l 1 _ h _ hi Hl eq_refl).
    rewrite (bind_getitem l 0 _ h _ lo Hl eq_refl).
    destruct (Qlt_bool accuracy (hi - lo));
      [| simpl; by rewrite with_bounds_id].
    rewrite (bind_getitem l 0 _ h _ lo Hl eq_refl).
    rewrite (bind_getitem l 1 _ h _ hi Hl eq_refl).
    cbv zeta. rewrite bind_lift.
    destruct (f ((lo + hi) / 2)) as [[|] | e |]; simpl;
      try by rewrite with_bounds_id.
    + rewrite (bind_setitem l 0 _ _ h _ Hl) by (simpl; lia).
      rewrite (IH ((lo + hi) / 2) hi rest); [| apply lookup_insert_eq].
      f_equal. apply (with_bounds_twice l (_, _)).
    + rewrite (bind_setitem l 1 _ _ h _ Hl) by (simpl; lia).
      rewrite (IH lo ((lo + hi) / 2) rest); [| apply lookup_insert_eq].
      f_equal. apply (with_bounds_twice l (_, _)).
Qed.

(** What a run that ends normally guarantees. *)
Lemma bisect_run_ok fuel f accuracy :
  forall lo hi lo' hi',
    bisect_run fuel f accuracy lo hi = (Ok tt, (lo', hi')) ->
    hi' - lo' <= accuracy /\
    (f lo = Ok true -> f lo' = Ok true) /\
    (f hi = Ok false -> f hi' = Ok false) /\
    (lo <= hi -> lo <= lo' /\ lo' <= hi' /\ hi' <= hi) /\
    exists n : nat,
      (hi' - lo') * inject_Z (2 ^ Z.of_nat n) == hi - lo.
Proof.
  induction fuel as [| fuel IH]; intros lo hi lo' hi' Hrun;
    [discriminate |].
  simpl in Hrun.
  destruct (Qlt_bool accuracy (hi - lo)) eqn:Hc.
  - destruct (f ((lo + hi) / 2)) as [[|] | e |] eqn:Hf; try discriminate.
    + destruct (IH _ _ _ _ Hrun) as (Hw & Hlo & Hhi & Hord & n & Hn).
      split; [exact Hw |]. split; [auto |]. split; [exact Hhi |].
      split.
      * intros Hle.
        assert (Hm : (lo + hi) / 2 <= hi).
        { apply Qle_shift_div_r; lra. }
        assert (Hm' : lo <= (lo + hi) / 2).
        { apply Qle_shift_div_l; lra. }
        destruct (Hord Hm) as (? & ? & ?). repeat split; lra.
      * exists (S n). rewrite Nat2Z.inj_succ, Z.pow_succ_r by lia.
        rewrite inject_Z_mult. change (inject_Z 2) with 2.
        assert (E : hi - lo == (hi - (lo + hi) / 2) * 2) by field.
        rewrite E, <- Hn. ring.
    + destruct (IH _ _ _ _ Hrun) as (Hw & Hlo & Hhi & Hord & n & Hn).
      split; [exact Hw |]. split; [exact Hlo |]. split; [auto |].
      split.
      * intros Hle.
        assert (Hm : (lo + hi) / 2 <= hi).
        { apply Qle_shift_div_r; lra. }
        assert (Hm' : lo <= (lo + hi) / 2).
        { apply Qle_shift_div_l; lra. }
        destruct (Hord Hm') as (? & ? & ?). repeat split; lra.
      * exists (S n). rewrite Nat2Z.inj_succ, Z.pow_succ_r by lia.
        rewrite inject_Z_mult. change (inject_Z 2) with 2.
        assert (E : hi - lo == ((lo + hi) / 2 - lo) * 2) by field.
        rewrite E, <- Hn. ring.
  - injection Hrun as <- <-. apply Qlt_bool_false in Hc.
    split; [exact Hc |]. split; [auto |]. split; [auto |].
    split; [intros; repeat split; lra |].
    exists 0%nat. change (inject_Z (2 ^ Z.of_nat 0)) with 1. ring.
Qed.

(** ** Termination of the loop *)

Lemma width_bound (lo hi accuracy : Q) :
  0 < accuracy ->
  hi - lo <=
    accuracy * inject_Z (2 ^ Z.of_nat (pred (search_fuel lo hi accuracy))).
Proof.
  intros Hacc. unfold search_fuel. simpl pred.
  set (z := Qceiling ((hi - lo) / accuracy)).
  rewrite Z2Nat.id by apply Z.log2_up_nonneg.
  assert (Hz : (z <= 2 ^ Z.log2_up z)%Z).
  { destruct (Z_le_gt_dec z 1) as [Hle | Hgt].
    - rewrite Z.log2_up_eqn0 by exact Hle. simpl. lia.
    - apply Z.log2_up_spec. lia. }
  assert (Hq : (hi - lo) / accuracy <= inject_Z (2 ^ Z.log2_up z)).
  { eapply Qle_trans; [apply Qle_ceiling |].
    fold z. rewrite <- Zle_Qle. exact Hz. }
  assert (E : hi - lo == (hi - lo) / accuracy * accuracy)
    by (field; lra).
  rewrite E at 1. rewrite (Qmult_comm accuracy).
  apply Qmult_le_compat_r; [exact Hq | lra].
Qed.

Lemma bisect_run_terminates f accuracy :
  forall (k fuel : nat) lo hi,
    hi - lo <= accuracy * inject_Z (2 ^ Z.of_nat k) ->
    (k < fuel)%nat ->
    fst (bisect_run fuel f accuracy lo hi) = Ok tt \/
    (exists x e, f x = Raise e /\
                 fst (bisect_run fuel f accuracy lo hi) = Raise e) \/
    (exists x, f x = Diverge).
Proof.
  induction k as [| k IH]; intros fuel lo hi Hw Hk;
    (destruct fuel as [| fuel]; [lia |]); simpl.
  - change (inject_Z (2 ^ Z.of_nat 0)) with 1 in Hw.
    assert (Hc : Qlt_bool accuracy (hi - lo) = false)
      by (apply Qlt_bool_false; lra).
    rewrite Hc. by left.
  - destruct (Qlt_bool accuracy (hi - lo)) eqn:Hc; [| by left].
    rewrite Nat2Z.inj_succ, Z.pow_succ_r, inject_Z_mult in Hw by lia.
    change (inject_Z 2) with 2 in Hw.
    destruct (f ((lo + hi) / 2)) as [[|] | e |] eqn:Hf.
    + apply IH; [| lia].
      assert (E : hi - (lo + hi) / 2 == (hi - lo) / 2) by field.
      rewrite E. apply Qle_shift_div_r; lra.
    + apply IH; [| lia].
      assert (E : (lo + hi) / 2 - lo == (hi - lo) / 2) by field.
      rewrite E. apply Qle_shift_div_r; lra.
    + right; left. by exists ((lo + hi) / 2), e.
    + right; right. by exists ((lo + hi) / 2).
Qed.

(** More fuel does not change a result. *)
Lemma bisect_run_mono f accuracy :
  forall (fuel fuel' : nat) lo hi b,
    bisect_run fuel f accuracy lo hi = (Ok tt, b) ->
    (fuel <= fuel')%nat ->
    bisect_run fuel' f accuracy lo hi = (Ok tt, b).
Proof.
  induction fuel as [| fuel IH]; intros fuel' lo hi b Hrun Hle;
    [discriminate |].
  destruct fuel' as [| fuel']; [lia |]. simpl in *.
  destruct (Qlt_bool accuracy (hi - lo)); [| exact Hrun].
  destruct (f ((lo + hi) / 2)) as [[|] | e |]; try discriminate;
    (apply (IH fuel'); [exact Hrun | lia]).
Qed.

(** For a predicate that always answers, [search_fuel] is enough. *)
Lemma bisect_run_total f accuracy lo hi :
  0 < accuracy ->
  (forall x, exists b, f x = Ok b) ->
  exists b, forall fuel,
    (search_fuel lo hi accuracy <= fuel)%nat ->
    bisect_run fuel f accuracy lo hi = (Ok tt, b).
Proof.
  intros Hacc Hf.
  pose proof (width_bound lo hi accuracy Hacc) as Hw.
  destruct (bisect_run_terminates f accuracy _
              (search_fuel lo hi accuracy) lo hi Hw) as [H | [H | H]].
  - unfold search_fuel. simpl. lia.
  - destruct (bisect_run (search_fuel lo hi accuracy) f accuracy lo hi)
      as [o b] eqn:Hrun.
    simpl in H. subst o. exists b. intros fuel Hle.
    by apply (bisect_run_mono f accuracy _ fuel _ _ _ Hrun).
  - destruct H as (x & e & Hx & _). destruct (Hf x). congruence.
  - destruct H as (x & Hx). destruct (Hf x). congruence.
Qed.

(** ** The three exits of [line_search_bisection] *)

Lemma lsb_infeasible fuel f l accuracy (h : heap) lo rest :
  h !! l = Some (lo :: rest) ->
  f lo = Ok false ->
  line_search_bisection fuel f l accuracy h = (Ok None, h).
Proof.
  intros Hl Hf. unfold line_search_bisection.
  rewrite (bind_getitem l 0 _ h _ lo Hl eq_refl).
  by rewrite bind_lift, Hf.
Qed.

Lemma lsb_collapse fuel f l accuracy (h : heap) lo hi rest :
  h !! l = Some (lo :: hi :: rest) ->
  f lo = Ok true ->
  f hi = Ok true ->
  line_search_bisection fuel f l accuracy h =
    (Ok (Some l), with_bounds l (hi, hi) rest h).
Proof.
  intros Hl Hlo Hhi. unfold line_search_bisection.
  rewrite (bind_getitem l 0 _ h _ lo Hl eq_refl).
  rewrite bind_lift, Hlo. cbn [negb].
  rewrite (bind_getitem l 1 _ h _ hi Hl eq_refl).
  rewrite bind_lift, Hhi.
  rewrite (bind_getitem l 1 _ h _ hi Hl eq_refl).
  rewrite (bind_setitem l 0 _ _ h _ Hl) by (simpl; lia).
  reflexivity.
Qed.

Lemma lsb_bisect fuel f l accuracy (h : heap) lo hi rest :
  h !! l = Some (lo :: hi :: rest) ->
  f lo = Ok true ->
  f hi = Ok false ->
  line_search_bisection fuel f l accuracy h =
    (obind (fst (bisect_run fuel f accuracy lo hi)) (fun _ => Ok (Some l)),
     with_bounds l (snd (bisect_run fuel f accuracy lo hi)) rest h).
Proof.
  intros Hl Hlo Hhi. unfold line_search_bisection.
  rewrite (bind_getitem l 0 _ h _ lo Hl eq_refl).
  rewrite bind_lift, Hlo. cbn [negb].
  rewrite (bind_getitem l 1 _ h _ hi Hl eq_refl).
  rewrite bind_lift, Hhi.
  unfold bind at 1.
  rewrite (bisect_while_run fuel f l accuracy lo hi rest h Hl).
  by destruct (fst (bisect_run fuel f accuracy lo hi)).
Qed.

(** Runs the search in hypothesis [H] up to its second test, given the
    list [Hl] and the answers [Hlo] and [Hhi] of the predicate. *)
Ltac search_upto_hi H Hl Hlo Hhi :=
  unfold line_search_bisection in H;
  rewrite (bind_getitem _ 0 _ _ _ _ Hl eq_refl), bind_lift, Hlo in H;
  cbn [negb] in H;
  rewrite (bind_getitem _ 1 _ _ _ _ Hl eq_refl), bind_lift, Hhi in H.

Ltac search_upto_lo H Hl Hlo :=
  unfold line_search_bisection in H;
  rewrite (bind_getitem _ 0 _ _ _ _ Hl eq_refl), bind_lift, Hlo in H.

(** Every normal return of the search, whatever the store holds. *)
Lemma lsb_post fuel f l accuracy (h h' : heap) r :
  line_search_bisection fuel f l accuracy h = (Ok r, h') ->
  exists lo rest,
    h !! l = Some (lo :: rest) /\
    ((r = None /\ f lo = Ok false /\ h' = h) \/
     (r = Some l /\ f lo = Ok true /\
      exists hi rest' b,
        rest = hi :: rest' /\ h' = with_bounds l b rest' h /\
        f (fst b) = Ok true /\
        ((f hi = Ok true /\ b = (hi, hi)) \/
         (f hi = Ok false /\
          bisect_run fuel f accuracy lo hi = (Ok tt, b))))).
Proof.
  intros Hrun.
  destruct (h !! l) as [[| lo rest] |] eqn:Hl.
  - unfold line_search_bisection, bind, getitem in Hrun.
    rewrite Hl in Hrun. discriminate.
  - exists lo, rest. split; [reflexivity |].
    destruct (f lo) as [[|] | e |] eqn:Hlo.
    + right. destruct rest as [| hi rest'].
      { search_upto_lo Hrun Hl Hlo. cbn [negb] in Hrun.
        unfold bind, getitem in Hrun. rewrite Hl in Hrun. discriminate. }
      destruct (f hi) as [[|] | e |] eqn:Hhi.
      * rewrite (lsb_collapse _ _ _ _ _ _ _ _ Hl Hlo Hhi) in Hrun.
        injection Hrun as <- <-. split; [reflexivity |].
        split; [reflexivity |]. exists hi, rest', (hi, hi). auto 10.
      * rewrite (lsb_bisect _ _ _ _ _ _ _ _ Hl Hlo Hhi) in Hrun.
        destruct (bisect_run fuel f accuracy lo hi) as [[[] | e |] b] eqn:Hb;
          try discriminate.
        simpl in Hrun. injection Hrun as <- <-.
        split; [reflexivity |]. split; [reflexivity |].
        exists hi, rest', b. destruct b as [lo' hi'].
        destruct (bisect_run_ok _ _ _ _ _ _ _ Hb) as (_ & Hok & _).
        auto 10.
      * search_upto_hi Hrun Hl Hlo Hhi. discriminate.
      * search_upto_hi Hrun Hl Hlo Hhi. discriminate.
    + left. rewrite (lsb_infeasible _ _ _ _ _ _ _ Hl Hlo) in Hrun.
      by injection Hrun as <- <-.
    + search_upto_lo Hrun Hl Hlo. discriminate.
    + search_upto_lo Hrun Hl Hlo. discriminate.
  - unfold line_search_bisection, bind, getitem in Hrun.
    rewrite Hl in Hrun. discriminate.
Qed.

(** ** The search on binary64 *)







(** Stepping through the code on binary64. *)





(** ** C3: the contract of the line search *)




(** ** Masks, [np.all] and [np.max] *)

Lemma select_lookup {A} (a : list A) (mask : list bool) (x : A) :
  x ∈ select a mask <->
  exists i, a !! i = Some x /\ mask !! i = Some true.
Proof.
  revert mask. induction a as [| y a IH]; intros [| b mask]; simpl.
  - split; [intros H; inversion H | intros (i & H & _); discriminate].
  - split; [intros H; inversion H | intros (i & H & _); discriminate].
  - split; [intros H; inversion H |].
    intros (i & _ & H). destruct i; discriminate.
  - destruct b.
    + rewrite elem_of_cons, IH. split.
      * intros [-> | (i & H1 & H2)]; [by exists 0%nat | by exists (S i)].
      * intros ([| i] & H1 & H2); simpl in *.
        -- left. congruence.
        -- right. by exists i.
    + rewrite IH. split.
      * intros (i & H1 & H2). by exists (S i).
      * intros ([| i] & H1 & H2); simpl in *; [discriminate |].
        by exists i.
Qed.

Lemma np_all_true (xs : list bool) :
  np_all xs = true <-> forall x, x ∈ xs -> x = true.
Proof.
  unfold np_all. rewrite forallb_forall. split; intros H x Hx.
  - apply H. by apply list_elem_of_In.
  - apply H. by apply list_elem_of_In.
Qed.

Lemma np_all_false (xs : list bool) :
  np_all xs = false <-> false ∈ xs.
Proof.
  unfold np_all. induction xs as [| [|] xs IH]; simpl.
  - split; [discriminate | intros H; inversion H].
  - rewrite IH, elem_of_cons. split; [auto | intros [? | ?]; done].
  - split; [intros _; apply list_elem_of_here | reflexivity].
Qed.

Lemma mask_lookup (Vs : list Q) (c : Q) (i : nat) :
  map (fun v => Qle_bool v c) Vs !! i = Some true <->
  exists v, Vs !! i = Some v /\ v <= c.
Proof.
  change (map (fun v => Qle_bool v c) Vs)
    with ((fun v => Qle_bool v c) <$> Vs).
  rewrite list_lookup_fmap. destruct (Vs !! i) as [v |]; simpl.
  - split.
    + intros [= H]. exists v. split; [done | by apply Qle_bool_iff].
    + intros (v' & [= <-] & H). f_equal. by apply Qle_bool_iff.
  - split; [discriminate | intros (v' & H & _); discriminate].
Qed.

Lemma fold_qmax (r : list Q) :
  forall x,
    (fold_left qmax r x = x \/ fold_left qmax r x ∈ r) /\
    x <= fold_left qmax r x /\
    (forall y, y ∈ r -> y <= fold_left qmax r x).
Proof.
  induction r as [| z r IH]; intros x; simpl.
  - split; [by left |]. split; [lra |]. intros y H. inversion H.
  - destruct (IH (qmax x z)) as (Hin & Hge & Hall).
    assert (Hq : x <= qmax x z /\ z <= qmax x z /\
                 (qmax x z = x \/ qmax x z = z)).
    { unfold qmax. destruct (Qle_bool x z) eqn:E.
      - apply Qle_bool_iff in E. repeat split; [lra | lra | by right].
      - apply Qle_bool_false in E. repeat split; [lra | lra | by left]. }
    destruct Hq as (Hx & Hz & Hsel).
    split; [| split].
    + destruct Hin as [Hin | Hin].
      * destruct Hsel as [Hsel | Hsel]; rewrite Hin, Hsel;
          [by left | right; apply list_elem_of_here].
      * right. by apply list_elem_of_further.
    + lra.
    + intros y Hy. apply elem_of_cons in Hy as [-> | Hy]; [lra | auto].
Qed.

Lemma np_max_spec (xs : list Q) (m : Q) :
  np_max xs = Ok m ->
  m ∈ xs /\ forall x, x ∈ xs -> x <= m.
Proof.
  destruct xs as [| x r]; [discriminate |]. simpl. intros [= <-].
  destruct (fold_qmax r x) as (Hin & Hge & Hall). split.
  - destruct Hin as [-> | Hin];
      [apply list_elem_of_here | by apply list_elem_of_further].
  - intros y Hy. apply elem_of_cons in Hy as [-> | Hy]; [lra | auto].
Qed.

Lemma np_max_empty (xs : list Q) (e : exn) :
  np_max xs = Raise e -> xs = [] /\ e = ValueError.
Proof. destruct xs; [by intros [= <-] | discriminate]. Qed.

(** ** The level-set predicate *)

Lemma levelset_is_safe_true (self : Lyapunov) (c : Q) :
  _levelset_is_safe self c = Ok true <->
  exists vdn,
    v_dot_negative self = Arr vdn /\
    length vdn = length (V self) /\
    forall i v, V self !! i = Some v -> v <= c -> vdn !! i = Some true.
Proof.
  unfold _levelset_is_safe, bool_index.
  destruct (v_dot_negative self) as [b | vdn].
  { split; [discriminate | intros (? & [=] & _)]. }
  rewrite length_map.
  destruct (Nat.eqb_spec (length vdn) (length (V self))) as [Hlen | Hlen];
    simpl.
  - split.
    + intros [= Hall]. exists vdn. split; [done |]. split; [done |].
      intros i v Hv Hle.
      destruct (lookup_lt_is_Some_2 vdn i) as [b Hb].
      { rewrite Hlen. by eapply lookup_lt_Some. }
      rewrite Hb. f_equal.
      apply (proj1 (np_all_true _) Hall). apply select_lookup.
      exists i. split; [done |]. apply mask_lookup. by exists v.
    + intros (vdn' & [= <-] & _ & H). f_equal. apply np_all_true.
      intros b Hb. apply select_lookup in Hb as (i & Hi & Hm).
      apply mask_lookup in Hm as (v & Hv & Hle).
      specialize (H i v Hv Hle). congruence.
  - split; [discriminate | intros (vdn' & [= <-] & ? & _); done].
Qed.

Lemma levelset_is_safe_false (self : Lyapunov) (c : Q) :
  _levelset_is_safe self c = Ok false <->
  exists vdn,
    v_dot_negative self = Arr vdn /\
    length vdn = length (V self) /\
    exists i v, V self !! i = Some v /\ v <= c /\ vdn !! i = Some false.
Proof.
  unfold _levelset_is_safe, bool_index.
  destruct (v_dot_negative self) as [b | vdn].
  { split; [discriminate | intros (? & [=] & _)]. }
  rewrite length_map.
  destruct (Nat.eqb_spec (length vdn) (length (V self))) as [Hlen | Hlen];
    simpl.
  - split.
    + intros [= Hall]. exists vdn. split; [done |]. split; [done |].
      apply np_all_false, select_lookup in Hall as (i & Hi & Hm).
      apply mask_lookup in Hm as (v & Hv & Hle). by exists i, v.
    + intros (vdn' & [= <-] & _ & i & v & Hv & Hle & Hi). f_equal.
      apply np_all_false, select_lookup. exists i. split; [done |].
      apply mask_lookup. by exists v.
  - split; [discriminate | intros (vdn' & [= <-] & ? & _); done].
Qed.

(** The predicate answers at every level as soon as it answers at
    one, and it never runs forever. *)
Lemma levelset_is_safe_defined (self : Lyapunov) (c : Q) (b : bool) :
  _levelset_is_safe self c = Ok b ->
  forall c', exists b', _levelset_is_safe self c' = Ok b'.
Proof.
  unfold _levelset_is_safe, bool_index.
  destruct (v_dot_negative self) as [? | vdn]; [discriminate |].
  rewrite length_map.
  destruct (length vdn =? length (V self))%nat eqn:E; [| discriminate].
  intros _ c'. rewrite length_map, E. simpl. eauto.
Qed.

Lemma levelset_is_safe_halts (self : Lyapunov) (c : Q) :
  _levelset_is_safe self c <> Diverge.
Proof.
  unfold _levelset_is_safe, bool_index.
  destruct (v_dot_negative self) as [? | vdn]; [discriminate |].
  by destruct (length vdn =? _)%nat.
Qed.

(** C4. The level-set predicate is monotone: with [v_dot_negative] and
    [V] fixed, if the level set at [c2] is safe then so is the level set
    at any [c1 <= c2]. *)
Theorem levelset_is_safe_monotone (self : Lyapunov) (c1 c2 : Q) :
  c1 <= c2 ->
  _levelset_is_safe self c2 = Ok true ->
  _levelset_is_safe self c1 = Ok true.
Proof.
  intros Hle H2. apply levelset_is_safe_true.
  apply levelset_is_safe_true in H2 as (vdn & Hvdn & Hlen & Hall).
  exists vdn. split; [done |]. split; [done |].
  intros i v Hv Hc1. apply (Hall i v Hv). lra.
Qed.

(** ** [max_safe_levelset], step by step *)

Lemma msl_explicit fuel self accuracy l (h : heap) :
  max_safe_levelset fuel self accuracy (Some l) h =
    match line_search_bisection fuel (_levelset_is_safe self) l accuracy h
    with
    | (Ok None, h') => (Ok 0, h')
    | (Ok (Some b), h') =>
        bind (getitem b 0) (fun b0 => lift (levelset_value self b0)) h'
    | (Raise e, h') => (Raise e, h')
    | (Diverge, h') => (Diverge, h')
    end.
Proof.
  unfold max_safe_levelset. rewrite bind_ret. unfold bind at 1.
  by destruct (line_search_bisection _ _ _ _ _) as [[[b |] | e |] h'].
Qed.

Lemma msl_default fuel self accuracy (h : heap) :
  max_safe_levelset fuel self accuracy None h =
    match np_max (V self) with
    | Ok m =>
        max_safe_levelset fuel self accuracy (Some (fresh (dom h)))
          (<[fresh (dom h) := [0; m + accuracy]]> h)
    | Raise e => (Raise e, h)
    | Diverge => (Diverge, h)
    end.
Proof.
  unfold max_safe_levelset. rewrite bind_assoc, bind_lift.
  by destruct (np_max (V self)) as [m | e |].
Qed.

Lemma levelset_value_spec self b0 c :
  levelset_value self b0 = Ok c ->
  c <= b0 /\ c ∈ V self /\ forall v, v ∈ V self -> v <= b0 -> v <= c.
Proof.
  unfold levelset_value, bool_index. rewrite length_map, Nat.eqb_refl.
  simpl. intros Hmax. apply np_max_spec in Hmax as (Hin & Hall).
  apply select_lookup in Hin as (i & Hi & Hm).
  apply mask_lookup in Hm as (v & Hv & Hle).
  assert (v = c) by congruence. subst v.
  split; [done |]. split; [by eapply list_elem_of_lookup_2 |].
  intros v Hv' Hvle. apply Hall.
  apply list_elem_of_lookup_1 in Hv' as (j & Hj).
  apply select_lookup. exists j. split; [done |].
  apply mask_lookup. by exists v.
Qed.

(** Every normal return of [max_safe_levelset]. *)
Lemma msl_post fuel self accuracy interval (h h' : heap) c :
  max_safe_levelset fuel self accuracy interval h = (Ok c, h') ->
  exists lo,
    lower_end interval h = Some lo /\
    ((_levelset_is_safe self lo = Ok false /\ c = 0) \/
     (_levelset_is_safe self lo = Ok true /\
      exists b0, _levelset_is_safe self b0 = Ok true /\
                 levelset_value self b0 = Ok c)).
Proof.
  assert (Hexp : forall l (h0 : heap),
    max_safe_levelset fuel self accuracy (Some l) h0 = (Ok c, h') ->
    exists lo,
      lower_end (Some l) h0 = Some lo /\
      ((_levelset_is_safe self lo = Ok false /\ c = 0) \/
       (_levelset_is_safe self lo = Ok true /\
        exists b0, _levelset_is_safe self b0 = Ok true /\
                   levelset_value self b0 = Ok c))).
  { intros l h0. rewrite msl_explicit.
    destruct (line_search_bisection _ _ _ _ _) as [[[b |] | e |] h1] eqn:Hs;
      try discriminate.
    - intros Hget.
      apply lsb_post in Hs
        as (lo & rest & Hl & [(? & _) | (Hb & Hlo & Hr)]); [done |].
      injection Hb as ->.
      destruct Hr as (hi & rest' & [lo' hi'] & -> & -> & Hflo' & _).
      exists lo. simpl. rewrite Hl. split; [done |]. right.
      split; [done |]. exists lo'. split; [done |].
      rewrite (bind_getitem l 0 _ _ _ lo'
                 (with_bounds_lookup l (lo', hi') rest' h0) eq_refl)
        in Hget.
      unfold lift in Hget. congruence.
    - intros [= <- <-].
      apply lsb_post in Hs
        as (lo & rest & Hl & [(_ & Hlo & _) | (? & _)]); [| done].
      exists lo. simpl. rewrite Hl. auto. }
  destruct interval as [l |]; [apply Hexp |].
  rewrite msl_default. destruct (np_max (V self)) as [m | e |];
    try discriminate.
  intros Hrun. apply Hexp in Hrun as (lo & Hlo & Hcases).
  unfold lower_end in Hlo. rewrite lookup_insert_eq in Hlo.
  injection Hlo as <-.
  by exists 0.
Qed.

(** ** Termination of the search and of [max_safe_levelset] *)

Lemma lsb_halts fuel f l accuracy (h : heap) :
  0 < accuracy ->
  (forall x, f x <> Diverge) ->
  (interval_fuel l accuracy h <= fuel)%nat ->
  fst (line_search_bisection fuel f l accuracy h) <> Diverge.
Proof.
  intros Hacc Hf. unfold interval_fuel.
  destruct (h !! l) as [[| lo [| hi rest]] |] eqn:Hl; intros Hfuel.
  - unfold line_search_bisection, bind, getitem. by rewrite Hl.
  - unfold line_search_bisection.
    rewrite (bind_getitem l 0 _ h _ lo Hl eq_refl), bind_lift.
    pose proof (Hf lo).
    destruct (f lo) as [[|] | e |]; try done.
    cbn [negb]. unfold bind, getitem. by rewrite Hl.
  - pose proof (Hf lo). pose proof (Hf hi).
    destruct (f lo) as [[|] | e |] eqn:Hlo; try done.
    + destruct (f hi) as [[|] | e |] eqn:Hhi; try done.
      * by rewrite (lsb_collapse _ _ _ _ _ _ _ _ Hl Hlo Hhi).
      * rewrite (lsb_bisect _ _ _ _ _ _ _ _ Hl Hlo Hhi). simpl.
        destruct (bisect_run_terminates f accuracy _ fuel lo hi
                    (width_bound lo hi accuracy Hacc))
          as [H1 | [(x & e & _ & H1) | (x & Hx)]].
        -- unfold search_fuel in *. simpl. lia.
        -- by rewrite H1.
        -- by rewrite H1.
        -- by destruct (Hf x).
      * unfold line_search_bisection.
        rewrite (bind_getitem l 0 _ h _ lo Hl eq_refl), bind_lift, Hlo.
        cbn [negb].
        by rewrite (bind_getitem l 1 _ h _ hi Hl eq_refl), bind_lift, Hhi.
    + by rewrite (lsb_infeasible _ _ _ _ _ _ _ Hl Hlo).
    + unfold line_search_bisection.
      by rewrite (bind_getitem l 0 _ h _ lo Hl eq_refl), bind_lift, Hlo.
  - unfold line_search_bisection, bind, getitem. by rewrite Hl.
Qed.

Lemma levelset_value_halts self b0 : levelset_value self b0 <> Diverge.
Proof.
  unfold levelset_value, bool_index. rewrite length_map, Nat.eqb_refl.
  simpl. by destruct (select _ _).
Qed.

Lemma msl_halts fuel self accuracy interval (h : heap) :
  0 < accuracy ->
  (msl_fuel self accuracy interval h <= fuel)%nat ->
  fst (max_safe_levelset fuel self accuracy interval h) <> Diverge.
Proof.
  intros Hacc.
  assert (Hexp : forall l (h0 : heap),
    (interval_fuel l accuracy h0 <= fuel)%nat ->
    fst (max_safe_levelset fuel self accuracy (Some l) h0) <> Diverge).
  { intros l h0 Hfuel. rewrite msl_explicit.
    pose proof (lsb_halts fuel (_levelset_is_safe self) l accuracy h0 Hacc
                  (levelset_is_safe_halts self) Hfuel) as Hs.
    destruct (line_search_bisection _ _ _ _ _) as [[[b |] | e |] h1];
      try done.
    unfold bind, getitem, lift.
    destruct (h1 !! b) as [xs |]; [| done].
    destruct (xs !! 0%nat) as [b0 |]; [| done].
    pose proof (levelset_value_halts self b0).
    by destruct (levelset_value self b0). }
  destruct interval as [l |]; [apply Hexp |].
  unfold msl_fuel. rewrite msl_default.
  destruct (np_max (V self)) as [m | e |] eqn:Hm; [| done |].
  - intros Hfuel. apply Hexp. unfold interval_fuel.
    by rewrite lookup_insert_eq.
  - by destruct (V self).
Qed.

(** ** C8: an infeasible search is not an error *)

(** C8. When the predicate is false at the lower end of the interval,
    the bisection returns [None] without raising and leaves the list as
    it was; and when some point with [V] at or below the lower end of the
    interval lacks [v_dot_negative], [max_safe_levelset] returns 0. *)
Theorem infeasible_returns_zero :
  (forall fuel f l accuracy (h : heap) lo rest,
     h !! l = Some (lo :: rest) ->
     f lo = Ok false ->
     line_search_bisection fuel f l accuracy h = (Ok None, h)) /\
  (forall fuel self accuracy interval (h : heap) lo vdn i v,
     lower_end interval h = Some lo ->
     v_dot_negative self = Arr vdn ->
     length vdn = length (V self) ->
     V self !! i = Some v -> v <= lo -> vdn !! i = Some false ->
     _levelset_is_safe self lo = Ok false /\
     fst (max_safe_levelset fuel self accuracy interval h) = Ok 0).
Proof.
  split; [apply lsb_infeasible |].
  intros fuel self accuracy interval h lo vdn i v Hlo Hvdn Hlen Hv Hle Hi.
  assert (Hf : _levelset_is_safe self lo = Ok false).
  { apply levelset_is_safe_false. exists vdn. eauto 10. }
  split; [exact Hf |].
  assert (Hexp : forall l (h0 : heap),
    lower_end (Some l) h0 = Some lo ->
    fst (max_safe_levelset fuel self accuracy (Some l) h0) = Ok 0).
  { intros l h0 Hl. simpl in Hl.
    destruct (h0 !! l) as [[| lo' rest] |] eqn:Hl0; try discriminate.
    injection Hl as ->.
    by rewrite msl_explicit, (lsb_infeasible _ _ _ _ _ _ _ Hl0 Hf). }
  destruct interval as [l |]; [by apply Hexp |].
  injection Hlo as <-. rewrite msl_default.
  destruct (np_max (V self)) as [m | e |] eqn:Hm.
  - apply Hexp. simpl. by rewrite lookup_insert_eq.
  - apply np_max_empty in Hm as [Hm _]. rewrite Hm in Hv. discriminate.
  - by destruct (V self).
Qed.

(** ** C2: what the returned level certifies *)

(** C2 as stated fails at the level 0 returned for an infeasible
    search: with [V = [0, 1, 2, 3]] and [v_dot_negative = [F, T, T, T]] the search
    over the default interval is infeasible, [max_safe_levelset] returns
    0, and the point with [V = 0 <= 0] has [v_dot_negative] false. *)
Lemma max_safe_levelset_zero_unsafe :
  let self :=
    set_v_dot_negative (Arr [false; true; true; true]) LyapunovTest.lyap in
  fst (max_safe_levelset 64 self (1 # 100) None ∅) = Ok 0 /\
  V self !! 0%nat = Some 0 /\ 0 <= 0 /\
  v_dot_negative self = Arr [false; true; true; true] /\
  [false; true; true; true] !! 0%nat = Some false /\
  ~ returned_level_always_safe.
Proof.
  split; [reflexivity |]. split; [reflexivity |].
  split; [discriminate |]. split; [reflexivity |].
  split; [reflexivity |]. intros Hclaim.
  set (self := set_v_dot_negative (Arr [false; true; true; true])
                 LyapunovTest.lyap).
  apply (Hclaim 64%nat self (1 # 100) None ∅
           (snd (max_safe_levelset 64 self (1 # 100) None ∅)) 0
           [false; true; true; true]);
    [reflexivity | reflexivity | vm_compute; reflexivity |].
  exists 0%nat, 0. split; [reflexivity |]. split; [discriminate | reflexivity].
Qed.

(** C2, amended. For every accuracy [> 0] and every interval,
    [max_safe_levelset] halts given enough fuel; when it returns a value
    [c] and the level set at the lower end of the interval is safe, no
    index [i] has [V[i] <= c] and [v_dot_negative[i]] false; when the
    level set at the lower end is not safe, [c] is 0. *)
Theorem max_safe_levelset_certified
    (self : Lyapunov) (accuracy : Q) (interval : option loc) (h : heap) :
  0 < accuracy ->
  (forall fuel,
     (msl_fuel self accuracy interval h <= fuel)%nat ->
     fst (max_safe_levelset fuel self accuracy interval h) <> Diverge) /\
  (forall fuel c (h' : heap),
     max_safe_levelset fuel self accuracy interval h = (Ok c, h') ->
     exists lo vdn,
       lower_end interval h = Some lo /\
       v_dot_negative self = Arr vdn /\
       (_levelset_is_safe self lo = Ok true ->
        ~ exists i v,
            V self !! i = Some v /\ v <= c /\ vdn !! i = Some false) /\
       (_levelset_is_safe self lo = Ok false -> c = 0)).
Proof.
  intros Hacc. split; [intros fuel; by apply msl_halts |].
  intros fuel c h' Hrun.
  apply msl_post in Hrun as (lo & Hlo & Hcases). exists lo.
  destruct Hcases as [(Hf & ->) | (Hf & b0 & Hb0 & Hval)].
  - pose proof (proj1 (levelset_is_safe_false self lo) Hf)
      as (vdn & Hvdn & _).
    exists vdn. split; [done |]. split; [done |]. split; [congruence | done].
  - pose proof (proj1 (levelset_is_safe_true self b0) Hb0)
      as (vdn & Hvdn & _ & Hall).
    exists vdn. split; [done |]. split; [done |]. split; [| congruence].
    intros _ (i & v & Hv & Hle & Hi).
    apply levelset_value_spec in Hval as (Hc & _).
    assert (Hvb : v <= b0) by lra.
    specialize (Hall i v Hv Hvb). congruence.
Qed.

(** ** C9: the empty selection *)

Lemma select_nil {A} (a : list A) (mask : list bool) :
  (forall i x, a !! i = Some x -> mask !! i <> Some true) ->
  select a mask = [].
Proof.
  intros H. destruct (select a mask) as [| x r] eqn:E; [done |].
  assert (Hx : x ∈ select a mask) by (rewrite E; apply list_elem_of_here).
  apply select_lookup in Hx as (i & Hi & Hm). by destruct (H i x Hi).
Qed.

(** C9. The level set at [c] is safe whenever no grid point has
    [V <= c]. Consequently, when [V] is non-empty and strictly positive
    everywhere and [v_dot_negative] is false everywhere, the predicate
    holds at the lower bound 0 of the default interval, and
    [max_safe_levelset], given enough fuel, raises [ValueError]: the
    maximum is taken over an empty selection of [V]. *)
Theorem max_safe_levelset_empty_selection
    (self : Lyapunov) (vdn : list bool) :
  v_dot_negative self = Arr vdn ->
  length vdn = length (V self) ->
  (forall c,
     (forall i v, V self !! i = Some v -> ~ v <= c) ->
     _levelset_is_safe self c = Ok true) /\
  (forall accuracy (h : heap),
     0 < accuracy ->
     V self <> [] ->
     (forall v, v ∈ V self -> 0 < v) ->
     (forall b, b ∈ vdn -> b = false) ->
     _levelset_is_safe self 0 = Ok true /\
     exists lo' hi',
       _levelset_is_safe self lo' = Ok true /\
       select (V self) (map (fun v => Qle_bool v lo') (V self)) = [] /\
       forall fuel,
         (msl_fuel self accuracy None h <= fuel)%nat ->
         max_safe_levelset fuel self accuracy None h =
           (Raise ValueError, <[fresh (dom h) := [lo'; hi']]> h)).
Proof.
  intros Hvdn Hlen.
  assert (Hpart1 : forall c,
    (forall i v, V self !! i = Some v -> ~ v <= c) ->
    _levelset_is_safe self c = Ok true).
  { intros c Hc. apply levelset_is_safe_true. exists vdn.
    split; [done |]. split; [done |].
    intros i v Hv Hle. by destruct (Hc i v Hv). }
  split; [exact Hpart1 |].
  intros accuracy h Hacc Hne Hpos Hfalse.
  assert (Hf0 : _levelset_is_safe self 0 = Ok true).
  { apply Hpart1. intros i v Hv Hle.
    apply list_elem_of_lookup_2, Hpos in Hv. lra. }
  split; [exact Hf0 |].
  destruct (np_max (V self)) as [m | e |] eqn:Hm;
    [| by apply np_max_empty in Hm as [? _] | by destruct (V self)].
  destruct (np_max_spec _ _ Hm) as (Hin & Hmax).
  set (f := _levelset_is_safe self).
  assert (Hfhi : f (m + accuracy) = Ok false).
  { apply levelset_is_safe_false. exists vdn.
    split; [done |]. split; [done |].
    apply list_elem_of_lookup_1 in Hin as (i & Hi). exists i, m.
    split; [done |]. split; [lra |].
    destruct (lookup_lt_is_Some_2 vdn i) as [b Hb].
    { rewrite Hlen. by eapply lookup_lt_Some. }
    rewrite Hb. f_equal. apply Hfalse. by eapply list_elem_of_lookup_2. }
  destruct (bisect_run_total f accuracy 0 (m + accuracy) Hacc)
    as [[lo' hi'] Hrun].
  { by apply (levelset_is_safe_defined self 0 true). }
  exists lo', hi'.
  destruct (bisect_run_ok _ _ _ _ _ _ _ (Hrun _ (Nat.le_refl _)))
    as (_ & Hflo & _). specialize (Hflo Hf0).
  assert (Hsel :
    select (V self) (map (fun v => Qle_bool v lo') (V self)) = []).
  { apply select_nil. intros i x Hx Hmask.
    apply mask_lookup in Hmask as (v & Hv & Hle).
    apply levelset_is_safe_true in Hflo as (vdn' & Hvdn' & _ & Hall).
    assert (vdn' = vdn) by congruence. subst vdn'.
    specialize (Hall i v Hv Hle).
    by apply list_elem_of_lookup_2, Hfalse in Hall. }
  split; [exact Hflo |]. split; [exact Hsel |].
  intros fuel Hfuel. unfold msl_fuel in Hfuel. rewrite Hm in Hfuel.
  rewrite msl_default, Hm, msl_explicit.
  rewrite (lsb_bisect fuel f _ accuracy _ 0 (m + accuracy) []
             (lookup_insert_eq _ _ _) Hf0 Hfhi).
  rewrite (Hrun fuel Hfuel). simpl.
  rewrite (bind_getitem _ 0 _ _ _ lo' (with_bounds_lookup _ (lo', hi') _ _)
             eq_refl).
  unfold lift, levelset_value, bool_index.
  rewrite length_map, Nat.eqb_refl. simpl. rewrite Hsel. simpl.
  f_equal. unfold with_bounds. apply insert_insert_eq.
Qed.

(** ** C10: the caller's interval is updated in place *)

Lemma msl_explicit_store fuel self accuracy l (h : heap) :
  snd (max_safe_levelset fuel self accuracy (Some l) h) =
  snd (line_search_bisection fuel (_levelset_is_safe self) l accuracy h).
Proof.
  rewrite msl_explicit.
  destruct (line_search_bisection _ _ _ _ _) as [[[b |] | e |] h1];
    try reflexivity.
  unfold bind, getitem, lift. simpl.
  destruct (h1 !! b) as [xs |]; [| reflexivity].
  destruct (xs !! 0%nat) as [b0 |]; reflexivity.
Qed.

Lemma bisect_run_raise f accuracy :
  forall fuel lo hi e,
    fst (bisect_run fuel f accuracy lo hi) = Raise e ->
    exists x, f x = Raise e.
Proof.
  induction fuel as [| fuel IH]; intros lo hi e; [discriminate |].
  simpl. destruct (Qlt_bool accuracy (hi - lo)); [| discriminate].
  destruct (f ((lo + hi) / 2)) as [[|] | e' |] eqn:Hf;
    try apply IH; [| discriminate].
  simpl. intros [= ->]. by exists ((lo + hi) / 2).
Qed.

(** C10 as stated fails on an interval on which the search is
    infeasible: with [v_dot_negative] false everywhere and
    [V = [0, 1, 2, 3]], the level set at the lower end of [[0, 4]] is not
    safe, [max_safe_levelset] returns 0, and the caller's list still
    holds [[0, 4]], which is neither collapsed nor within the accuracy
    [1/2]. *)
Lemma interval_untouched_when_infeasible :
  (forall fuel,
     max_safe_levelset fuel LyapunovTest.lyap (1 # 2) (Some 7%nat)
       {[ 7%nat := [0; 4] ]} = (Ok 0, {[ 7%nat := [0; 4] ]})) /\
  ~ interval_always_modified.
Proof.
  assert (Hrun : forall fuel,
    max_safe_levelset fuel LyapunovTest.lyap (1 # 2) (Some 7%nat)
      {[ 7%nat := [0; 4] ]} = (Ok 0, {[ 7%nat := [0; 4] ]})).
  { intros fuel. rewrite msl_explicit.
    by rewrite (lsb_infeasible fuel _ 7%nat (1 # 2) _ 0 [4]). }
  split; [exact Hrun |]. intros Hclaim.
  destruct (Hclaim 8%nat LyapunovTest.lyap (1 # 2) 7%nat
              {[ 7%nat := [0; 4] ]} {[ 7%nat := [0; 4] ]} 0 4 [] 0)
    as (lo' & hi' & Hl & Hcases);
    [reflexivity | reflexivity | apply Hrun |].
  assert (Hlo' : lo' = 0) by (vm_compute in Hl; congruence).
  assert (Hhi' : hi' = 4) by (vm_compute in Hl; congruence).
  subst lo' hi'. destruct Hcases as [[H _] | H]; [discriminate | lra].
Qed.

(** C10. Whenever [line_search_bisection] returns a list, it is the very
    list [l] it was given, and the store then holds the collapsed or
    refined bounds at [l], every other list being untouched. Hence, for
    a list [l] supplied by the caller: when the level set at its lower
    end is safe, every call of [max_safe_levelset] that ends, by a value
    or by an exception, leaves [l] holding the collapsed bounds
    [[hi, hi]] or refined bounds [[lo', hi']] with [hi' - lo' <= accuracy];
    when the level set at its lower end is not safe, the call returns 0
    and leaves [l] as it was. *)
Theorem interval_updated_in_place :
  (forall fuel f l accuracy (h h' : heap) r,
     line_search_bisection fuel f l accuracy h = (Ok (Some r), h') ->
     r = l /\
     exists lo hi rest lo' hi',
       h !! l = Some (lo :: hi :: rest) /\
       h' = <[l := lo' :: hi' :: rest]> h /\
       f lo = Ok true /\ f lo' = Ok true /\
       ((f hi = Ok true /\ lo' = hi /\ hi' = hi) \/
        (f hi = Ok false /\ hi' - lo' <= accuracy))) /\
  (forall fuel self accuracy l (h : heap) lo hi rest,
     h !! l = Some (lo :: hi :: rest) ->
     (_levelset_is_safe self lo = Ok false ->
      max_safe_levelset fuel self accuracy (Some l) h = (Ok 0, h)) /\
     (_levelset_is_safe self lo = Ok true ->
      fst (max_safe_levelset fuel self accuracy (Some l) h) <> Diverge ->
      exists lo' hi',
        snd (max_safe_levelset fuel self accuracy (Some l) h) =
          <[l := lo' :: hi' :: rest]> h /\
        _levelset_is_safe self lo' = Ok true /\
        ((_levelset_is_safe self hi = Ok true /\ lo' = hi /\ hi' = hi) \/
         (_levelset_is_safe self hi = Ok false /\
          _levelset_is_safe self hi' = Ok false /\
          hi' - lo' <= accuracy)))).
Proof.
  split.
  - intros fuel f l accuracy h h' r Hrun.
    apply lsb_post in Hrun
      as (lo & rest & Hl & [([=] & _) | ([= ->] & Hlo & Hr)]).
    split; [reflexivity |].
    destruct Hr as (hi & rest' & [lo' hi'] & -> & -> & Hflo' & Hcases).
    exists lo, hi, rest', lo', hi'. split; [done |]. split; [done |].
    split; [done |]. split; [done |].
    destruct Hcases as [(Hhi & [= -> ->]) | (Hhi & Hb)]; [by left |].
    right. split; [done |].
    by destruct (bisect_run_ok _ _ _ _ _ _ _ Hb) as (Hw & _).
  - intros fuel self accuracy l h lo hi rest Hl. split.
    + intros Hlo.
      by rewrite msl_explicit, (lsb_infeasible _ _ _ _ _ _ _ Hl Hlo).
    + intros Hlo Hend.
      destruct (levelset_is_safe_defined self lo true Hlo hi) as [[|] Hhi].
      * exists hi, hi. split; [| by auto].
        rewrite msl_explicit_store.
        by rewrite (lsb_collapse _ _ _ _ _ _ _ _ Hl Hlo Hhi).
      * rewrite msl_explicit_store.
        rewrite msl_explicit in Hend.
        rewrite (lsb_bisect _ _ _ _ _ _ _ _ Hl Hlo Hhi) in Hend |- *.
        destruct (bisect_run fuel (_levelset_is_safe self) accuracy lo hi)
          as [[[] | e |] [lo' hi']] eqn:Hrun.
        -- destruct (bisect_run_ok _ _ _ _ _ _ _ Hrun)
             as (Hw & Hflo & Hfhi & _).
           exists lo', hi'. split; [reflexivity |]. auto 10.
        -- destruct (bisect_run_raise (_levelset_is_safe self) accuracy
                       fuel lo hi e) as (x & Hx); [by rewrite Hrun |].
           destruct (levelset_is_safe_defined self lo true Hlo x).
           congruence.
        -- by destruct Hend.
Qed.

(** The interval [[0, 4]] handed to [max_safe_levelset] holds
    [[1/2, 1]] afterwards. *)
Example interval_after_search :
  let self :=
    set_v_dot_negative (Arr [true; false; false; false]) LyapunovTest.lyap in
  let h : heap := {[ 7%nat := [0; 4] ]} in
  let r := max_safe_levelset 8 self (1 # 2) (Some 7%nat) h in
  match fst r, snd r !! 7%nat with
  | Ok c, Some [lo'; hi'] => c == 0 /\ lo' == 1 # 2 /\ hi' == 1
  | _, _ => False
  end.
Proof. vm_compute. repeat split. Qed.

(** ** Broadcasting, pointwise *)

Lemma zip_with_lookup_op {A B C} (op : A -> B -> C) xs ys i x :
  length ys = length xs ->
  xs !! i = Some x ->
  exists t, ys !! i = Some t /\ zip_with op xs ys !! i = Some (op x t).
Proof.
  intros Hlen Hx.
  destruct (lookup_lt_is_Some_2 ys i) as [t Ht].
  { rewrite Hlen. by eapply lookup_lt_Some. }
  exists t. split; [done |]. rewrite lookup_zip_with, Hx. simpl.
  by rewrite Ht.
Qed.

Lemma broadcast2_arr {A B C} (op : A -> B -> C) xs (y : nd B) :
  fits y (length xs) ->
  exists rs,
    broadcast2 op (Arr xs) y = Ok (Arr rs) /\
    length rs = length xs /\
    forall i x, xs !! i = Some x ->
      exists t, nd_at y i = Some t /\ rs !! i = Some (op x t).
Proof.
  destruct y as [b | ys]; simpl; intros Hfit.
  - eexists. split; [reflexivity |]. split; [by rewrite length_map |].
    intros i x Hx. exists b. split; [done |].
    change (map (fun a => op a b) xs) with ((fun a => op a b) <$> xs).
    by rewrite list_lookup_fmap, Hx.
  - rewrite Hfit, Nat.eqb_refl. eexists. split; [reflexivity |].
    split; [rewrite length_zip_with; lia |].
    intros i x Hx. by apply zip_with_lookup_op.
Qed.

Lemma inplace2_arr {A B} (op : A -> B -> A) xs (y : nd B) :
  fits y (length xs) ->
  exists rs,
    inplace2 op (Arr xs) y = Ok (Arr rs) /\
    length rs = length xs /\
    forall i x, xs !! i = Some x ->
      exists t, nd_at y i = Some t /\ rs !! i = Some (op x t).
Proof.
  destruct y as [b | ys]; [apply broadcast2_arr |].
  simpl. intros Hfit. rewrite Hfit, Nat.eqb_refl.
  eexists. split; [reflexivity |].
  split; [rewrite length_zip_with; lia |].
  intros i x Hx. by apply zip_with_lookup_op.
Qed.

(** Whatever the shapes, or-ing the initial safe set in marks each of
    its points. *)
Lemma inplace_or_initial (x : nd bool) (init rs : list bool) :
  inplace2 orb x (Arr init) = Ok (Arr rs) ->
  forall i, (i < length rs)%nat -> init !! i = Some true ->
            rs !! i = Some true.
Proof.
  assert (Hmap : forall (xs : list bool) i,
    (i < length xs)%nat ->
    map (fun a => a || true) xs !! i = Some true).
  { intros xs i Hi. destruct (lookup_lt_is_Some_2 xs i Hi) as [a Ha].
    change (map (fun a => a || true) xs)
      with ((fun a => a || true) <$> xs).
    rewrite list_lookup_fmap, Ha. simpl. by rewrite orb_true_r. }
  assert (Hzip : forall (xs : list bool) i,
    (i < length (zip_with orb xs init))%nat -> init !! i = Some true ->
    zip_with orb xs init !! i = Some true).
  { intros xs i Hi Hinit. rewrite length_zip_with in Hi.
    destruct (lookup_lt_is_Some_2 xs i) as [a Ha]; [lia |].
    rewrite lookup_zip_with, Ha. simpl. rewrite Hinit. simpl.
    by rewrite orb_true_r. }
  destruct x as [a | xs]; simpl.
  - intros [= <-] i Hi Hinit.
    change (map (orb a) init) with (orb a <$> init).
    rewrite list_lookup_fmap, Hinit. simpl. by rewrite orb_true_r.
  - destruct (length xs =? length init)%nat.
    + intros [= <-]. apply Hzip.
    + destruct init as [| b [| ? ?]]; try discriminate.
      intros [= <-] i Hi Hinit. destruct i; [| discriminate].
      injection Hinit as ->. rewrite length_map in Hi. by apply Hmap.
Qed.

(** ** C5: [safety_constraint] *)

(** C5. Let the decrease bound be the array [b], with a threshold and
    an initial safe set of matching shapes. Then, for every policy,
    [safety_constraint] returns the boolean array of the same length
    whose entry [i] is [b[i] < threshold], or-ed with the initial safe
    set when [include_initial] is set and there is one; an
    initial-safe-set point is then true whatever its bound. *)
Theorem safety_constraint_pointwise
    (cls : LyapunovClass) (self : Lyapunov) (policy : matrix)
    (include_initial : bool) (b : list Q) (thr : nd Q) :
  v_decrease_bound cls self (discretization self)
    (dynamics self (discretization self) policy) = Ok (Arr b) ->
  threshold cls self = Ok thr ->
  fits thr (length b) ->
  (forall init, initial_safe_set self = Some init ->
                length init = length b) ->
  exists r,
    safety_constraint cls self policy include_initial = Ok (Arr r) /\
    length r = length b /\
    (forall i x, b !! i = Some x ->
       exists t, nd_at thr i = Some t /\
         r !! i = Some (Qlt_bool x t
                        || (include_initial && in_initial self i)) /\
         (r !! i = Some true <->
          x < t \/ (include_initial = true /\ in_initial self i = true))) /\
    (include_initial = true ->
     forall init i, initial_safe_set self = Some init ->
       init !! i = Some true -> r !! i = Some true).
Proof.
  intros Hb Hthr Hfit Hinit. unfold safety_constraint.
  rewrite Hb. cbn [obind]. rewrite Hthr. cbn [obind].
  destruct (broadcast2_arr Qlt_bool b thr Hfit) as (cmp & -> & Hlen & Hcmp).
  cbn [obind].
  assert (Hiff : forall x t (c : bool),
    Qlt_bool x t || c = true <-> x < t \/ c = true).
  { intros x t c. rewrite orb_true_iff, Qlt_bool_true. tauto. }
  unfold in_initial.
  destruct include_initial; [destruct (initial_safe_set self) as [init |]|].
  - specialize (Hinit init eq_refl).
    destruct (inplace2_arr orb cmp (Arr init)) as (r & -> & Hlen' & Hr).
    { simpl. lia. }
    exists r. split; [done |]. split; [lia |]. split.
    + intros i x Hx. destruct (Hcmp i x Hx) as (t & Ht & Hc).
      destruct (Hr i _ Hc) as (u & Hu & Hri). simpl in Hu.
      exists t. split; [done |]. rewrite Hri, Hu. simpl.
      split; [done |]. split.
      * intros [= H]. apply Hiff in H. tauto.
      * intros H. f_equal. apply Hiff. tauto.
    + intros _ init' i [= <-] Hi.
      destruct (lookup_lt_is_Some_2 cmp i) as [c Hc].
      { rewrite Hlen, <- Hinit. by eapply lookup_lt_Some. }
      destruct (Hr i c Hc) as (u & Hu & ->). simpl in Hu.
      rewrite Hi in Hu. injection Hu as <-. by rewrite orb_true_r.
  - exists cmp. split; [done |]. split; [done |]. split; [| done].
    intros i x Hx. destruct (Hcmp i x Hx) as (t & Ht & ->).
    exists t. split; [done |]. simpl. rewrite orb_false_r.
    split; [done |]. split.
    + intros [= H]. left. by apply Qlt_bool_true.
    + intros [H | [_ H]]; [| done]. f_equal. by apply Qlt_bool_true.
  - exists cmp. split; [done |]. split; [done |]. split; [| done].
    intros i x Hx. destruct (Hcmp i x Hx) as (t & Ht & ->).
    exists t. split; [done |]. simpl. rewrite orb_false_r.
    split; [done |]. split.
    + intros [= H]. left. by apply Qlt_bool_true.
    + intros [H | [H _]]; [| done]. f_equal. by apply Qlt_bool_true.
Qed.

(** ** C1: the state after [update_safe_set] *)

Lemma safety_constraint_initial cls self policy init rs :
  safety_constraint cls self policy true = Ok (Arr rs) ->
  initial_safe_set self = Some init ->
  forall i, (i < length rs)%nat -> init !! i = Some true ->
            rs !! i = Some true.
Proof.
  unfold safety_constraint. intros H Hinit.
  destruct (v_decrease_bound _ _ _ _) as [b | e |]; try discriminate.
  cbn [obind] in H.
  destruct (threshold cls self) as [thr | e |]; try discriminate.
  cbn [obind] in H.
  destruct (broadcast2 Qlt_bool b thr) as [x | e |]; try discriminate.
  cbn [obind] in H. rewrite Hinit in H.
  by apply (inplace_or_initial x).
Qed.

Lemma update_safe_set_post cls fuel accuracy interval self (h : heap)
    self' (h' : heap) :
  update_safe_set cls fuel accuracy interval (self, h) = (Ok tt, (self', h')) ->
  exists vdn c,
    safety_constraint cls self (policy self) true = Ok vdn /\
    max_safe_levelset fuel (set_v_dot_negative vdn self) accuracy interval h
      = (Ok c, h') /\
    self' =
      set_safe_set (map (fun v => Qle_bool v c) (V self))
        (set_cmax c (set_v_dot_negative vdn self)).
Proof.
  unfold update_safe_set.
  destruct (safety_constraint cls self (policy self) true) as [vdn | e |];
    try discriminate.
  destruct (max_safe_levelset _ _ _ _ _) as [[c | e |] h1] eqn:Hm;
    try discriminate.
  intros [= <- <-]. by exists vdn, c.
Qed.

(** C1 as stated fails at the discrete-time engine of a system
    contracting to the origin:
    the origin itself cannot decrease strictly, the search from 0 is
    infeasible, [cmax] is 0, and the safe set [{V <= 0}] holds the origin
    although its [v_dot_negative] is false. *)
Lemma update_safe_set_origin_unsafe :
  let r := update_safe_set LyapunovTest.contracting_class 64 (1 # 10) None
             (LyapunovTest.contracting, ∅) in
  let self' := fst (snd r) in
  fst r = Ok tt /\
  V self' !! 0%nat = Some 0 /\ 0 <= cmax self' /\
  safe_set self' !! 0%nat = Some true /\
  v_dot_negative self' = Arr [false; true; true; true] /\
  [false; true; true; true] !! 0%nat = Some false /\
  ~ safe_set_always_decreasing.
Proof.
  split; [vm_compute; reflexivity |]. split; [vm_compute; reflexivity |].
  split; [vm_compute; discriminate |]. split; [vm_compute; reflexivity |].
  split; [vm_compute; reflexivity |]. split; [reflexivity |].
  intros Hclaim.
  set (r := update_safe_set LyapunovTest.contracting_class 64 (1 # 10) None
              (LyapunovTest.contracting, ∅)).
  destruct (Hclaim LyapunovTest.contracting_class 64%nat (1 # 10) None
              LyapunovTest.contracting ∅ (snd (snd r)) (fst (snd r)))
    as (_ & Hsafe & _); [vm_compute; reflexivity |].
  specialize (Hsafe [false; true; true; true] 0%nat 0).
  assert (Hcontra : [false; true; true; true] !! 0%nat = Some true).
  { apply Hsafe; [vm_compute; reflexivity | vm_compute; reflexivity |].
    vm_compute. discriminate. }
  discriminate.
Qed.

(** C1, amended. After a call to [update_safe_set] that returns,
    [safe_set] is [{i : V[i] <= cmax}], and every point of the initial
    safe set (when there is one) has [v_dot_negative] true whatever its
    decrease bound; when the level set at the lower end of the interval
    is safe, every point with [V[i] <= cmax] has [v_dot_negative] true,
    and otherwise [cmax] is 0. With accuracy [> 0] the call halts, given
    enough fuel, as soon as the safety constraint does. *)
Theorem update_safe_set_invariant
    (cls : LyapunovClass) (self : Lyapunov) (accuracy : Q)
    (interval : option loc) (h : heap) :
  (forall fuel self' (h' : heap),
     update_safe_set cls fuel accuracy interval (self, h)
       = (Ok tt, (self', h')) ->
     V self' = V self /\
     safe_set self' = map (fun v => Qle_bool v (cmax self')) (V self') /\
     (forall i v, V self' !! i = Some v ->
        (safe_set self' !! i = Some true <-> v <= cmax self')) /\
     exists vdn lo,
       v_dot_negative self' = Arr vdn /\
       length vdn = length (V self') /\
       lower_end interval h = Some lo /\
       (forall init i,
          initial_safe_set self' = Some init ->
          (i < length (V self'))%nat ->
          init !! i = Some true -> vdn !! i = Some true) /\
       (_levelset_is_safe self' lo = Ok true ->
        forall i v, V self' !! i = Some v -> v <= cmax self' ->
                    vdn !! i = Some true) /\
       (_levelset_is_safe self' lo = Ok false -> cmax self' = 0)) /\
  (0 < accuracy ->
   safety_constraint cls self (policy self) true <> Diverge ->
   forall fuel,
     (update_fuel cls self accuracy interval h <= fuel)%nat ->
     fst (update_safe_set cls fuel accuracy interval (self, h)) <> Diverge).
Proof.
  split.
  - intros fuel self' h' Hrun.
    apply update_safe_set_post in Hrun as (vdn0 & c & Hsc & Hmsl & ->).
    cbn [V safe_set cmax v_dot_negative initial_safe_set
         set_safe_set set_cmax set_v_dot_negative].
    split; [done |]. split; [done |]. split.
    { intros i v Hv. rewrite <- Qle_bool_iff.
      change (map (fun v => Qle_bool v c) (V self))
        with ((fun v => Qle_bool v c) <$> V self).
      rewrite list_lookup_fmap, Hv. simpl. split; congruence. }
    set (self1 := set_v_dot_negative vdn0 self) in *.
    assert (Hsame : forall x,
      _levelset_is_safe
        (set_safe_set (map (fun v => Qle_bool v c) (V self))
           (set_cmax c self1)) x = _levelset_is_safe self1 x)
      by reflexivity.
    apply msl_post in Hmsl as (lo & Hlo & Hcases).
    assert (Hshape : exists vdn,
      vdn0 = Arr vdn /\ length vdn = length (V self)).
    { destruct Hcases as [(Hf & _) | (Hf & _)].
      - apply levelset_is_safe_false in Hf as (vdn & Hv & Hl & _).
        by exists vdn.
      - apply levelset_is_safe_true in Hf as (vdn & Hv & Hl & _).
        by exists vdn. }
    destruct Hshape as (vdn & -> & Hlen).
    exists vdn, lo. split; [done |]. split; [done |]. split; [done |].
    split; [| split].
    + intros init i Hinit Hi.
      apply (safety_constraint_initial cls self (policy self) init vdn
               Hsc Hinit). lia.
    + rewrite Hsame. intros Hf i v Hv Hle.
      destruct Hcases as [(Hf' & _) | (_ & b0 & Hb0 & Hval)];
        [congruence |].
      apply levelset_value_spec in Hval as (Hc & _).
      apply levelset_is_safe_true in Hb0 as (vdn' & [= <-] & _ & Hall).
      apply (Hall i v Hv). lra.
    + rewrite Hsame. intros Hf.
      destruct Hcases as [(_ & ->) | (Hf' & _)]; [done | congruence].
  - intros Hacc Hsc fuel. unfold update_fuel, update_safe_set.
    destruct (safety_constraint cls self (policy self) true)
      as [vdn | e |]; [| done | done].
    intros Hfuel.
    pose proof (msl_halts fuel (set_v_dot_negative vdn self) accuracy
                  interval h Hacc Hfuel) as Hm.
    by destruct (max_safe_levelset _ _ _ _ _) as [[c | e |] h1].
Qed.

(** ** C6: the discrete-time decrease and its error *)

Lemma broadcast2_arr_r {A B C} (op : A -> B -> C) (x : nd A) ys :
  fits x (length ys) ->
  exists rs,
    broadcast2 op x (Arr ys) = Ok (Arr rs) /\
    length rs = length ys /\
    forall i y, ys !! i = Some y ->
      exists k, nd_at x i = Some k /\ rs !! i = Some (op k y).
Proof.
  destruct x as [a | xs]; simpl; intros Hfit.
  - eexists. split; [reflexivity |]. split; [by rewrite length_map |].
    intros i y Hy. exists a. split; [done |].
    change (map (op a) ys) with (op a <$> ys).
    by rewrite list_lookup_fmap, Hy.
  - rewrite Hfit, Nat.eqb_refl. eexists. split; [reflexivity |].
    split; [rewrite length_zip_with; lia |].
    intros i y Hy.
    destruct (lookup_lt_is_Some_2 xs i) as [k Hk].
    { rewrite Hfit. by eapply lookup_lt_Some. }
    exists k. split; [done |].
    by rewrite lookup_zip_with, Hk; simpl; rewrite Hy.
Qed.

Lemma col0_lookup (m : matrix) (xs : list Q) :
  col0 m = Ok xs ->
  length xs = length m /\
  forall i, xs !! i = m !! i ≫= head.
Proof.
  revert xs. induction m as [| row m IH]; intros xs; simpl.
  - intros [= <-]. split; [done |]. by intros [|].
  - destruct row as [| x row]; [discriminate |].
    destruct (col0 m) as [ys | e |]; try discriminate. simpl.
    intros [= <-]. destruct (IH ys eq_refl) as (Hlen & Hi).
    split; [simpl; lia |]. intros [| i]; [done | apply Hi].
Qed.

(** C6. In the discrete-time class, with [vn] and [vs] the values of the
    Lyapunov function at the predicted states and at the states,
    [v_decrease_confidence] returns the mean [vn[i] - vs[i]] at each
    point [i]. When the prediction is a pair of a mean and error bounds,
    the returned error at point [i] is [lipschitz_lyapunov] times the sum
    of the error bounds of point [i] over the dimensions; otherwise the
    error is the scalar 0. *)
Theorem discrete_v_decrease_confidence
    (lipschitz_lyapunov : nd Q) (self : Lyapunov) (states : matrix)
    (next_states : next_states_t) (vn vs : list Q) :
  col0 (lyapunov_function self (mean_part next_states)) = Ok vn ->
  col0 (lyapunov_function self states) = Ok vs ->
  length vs = length vn ->
  (forall m e, next_states = Pair m e ->
               fits lipschitz_lyapunov (length e)) ->
  exists mean err,
    LyapunovDiscrete.v_decrease_confidence lipschitz_lyapunov self states
      next_states = Ok (Arr mean, err) /\
    length mean = length vn /\
    (forall i a, vn !! i = Some a ->
       exists b, vs !! i = Some b /\ mean !! i = Some (a - b)) /\
    match next_states with
    | NdArray _ => err = Scalar 0
    | Pair _ error_bounds =>
        exists errs,
          err = Arr errs /\
          length errs = length error_bounds /\
          forall i row, error_bounds !! i = Some row ->
            exists k, nd_at lipschitz_lyapunov i = Some k /\
                      errs !! i = Some (k * fold_right Qplus 0 row)
    end.
Proof.
  intros Hvn Hvs Hlen Hfit.
  destruct (broadcast2_arr Qminus vn (Arr vs) Hlen)
    as (mean & Hmean & Hml & Hmi).
  unfold LyapunovDiscrete.v_decrease_confidence.
  destruct next_states as [m | m e]; simpl in Hvn.
  - cbn [obind]. rewrite Hvn. cbn [obind]. rewrite Hvs. cbn [obind].
    rewrite Hmean. cbn [obind].
    exists mean, (Scalar 0). split; [done |]. split; [done |].
    split; [| done]. intros i a Ha. destruct (Hmi i a Ha) as (b & Hb & Hd).
    by exists b.
  - destruct (broadcast2_arr_r Qmult lipschitz_lyapunov (sum_axis1 e))
      as (errs & Herrs & Hel & Hei).
    { unfold sum_axis1. rewrite length_map. by apply (Hfit m e). }
    rewrite Herrs. cbn [obind]. rewrite Hvn. cbn [obind].
    rewrite Hvs. cbn [obind]. rewrite Hmean. cbn [obind].
    exists mean, (Arr errs). split; [done |]. split; [done |]. split.
    + intros i a Ha. destruct (Hmi i a Ha) as (b & Hb & Hd). by exists b.
    + exists errs. split; [done |].
      unfold sum_axis1 in *. rewrite length_map in Hel. split; [done |].
      intros i row Hrow. apply (Hei i).
      change (((fun row => fold_right Qplus 0 row) <$> e) !! i
              = Some (fold_right Qplus 0 row)).
      by rewrite list_lookup_fmap, Hrow.
Qed.

(** ** C7: the smallest value on the boundary *)

Lemma ext_le_refl x : ext_le x x.
Proof. destruct x; simpl; [lra | done]. Qed.

Lemma ext_le_trans x y z : ext_le x y -> ext_le y z -> ext_le x z.
Proof. destruct x, y, z; simpl; try done; lra. Qed.

Lemma py_min_spec a b :
  ext_le (py_min a b) a /\ ext_le (py_min a b) b /\
  (py_min a b = a \/ py_min a b = b).
Proof.
  unfold py_min. destruct (ext_lt b a) eqn:E.
  - split; [| split; [apply ext_le_refl | by right]].
    destruct b as [y |], a as [x |]; simpl in *; try done.
    apply Qlt_bool_true in E. lra.
  - split; [apply ext_le_refl |]. split; [| by left].
    destruct b as [y |], a as [x |]; simpl in *; try done.
    by apply Qlt_bool_false in E.
Qed.

Lemma fold_py_min (xs : list Q) :
  forall m0,
    let r := fold_left (fun m x => py_min m (Finite x)) xs m0 in
    ext_le r m0 /\
    (forall x, x ∈ xs -> ext_le r (Finite x)) /\
    (r = m0 \/ exists x, x ∈ xs /\ r = Finite x).
Proof.
  induction xs as [| y xs IH]; intros m0; simpl.
  - split; [apply ext_le_refl |]. split; [| by left].
    intros x Hx. inversion Hx.
  - destruct (IH (py_min m0 (Finite y))) as (Hle & Hall & Hsel).
    destruct (py_min_spec m0 (Finite y)) as (H1 & H2 & H3).
    split; [by eapply ext_le_trans |]. split.
    + intros x Hx. apply elem_of_cons in Hx as [-> | Hx]; [| auto].
      by eapply ext_le_trans.
    + destruct Hsel as [Hsel | (x & Hx & Hsel)].
      * rewrite Hsel. destruct H3 as [-> | ->]; [by left |].
        right. exists y. split; [apply list_elem_of_here | done].
      * right. exists x. split; [by apply list_elem_of_further | done].
Qed.

Lemma reduce_min_spec (xs : list Q) :
  (forall x, x ∈ xs -> ext_le (reduce_min xs) (Finite x)) /\
  (reduce_min xs = Infinity \/
   exists x, x ∈ xs /\ reduce_min xs = Finite x).
Proof.
  destruct (fold_py_min xs Infinity) as (_ & Hall & Hsel). by split.
Qed.

Lemma boundary_loop_spec fun_ d :
  forall axes m0 r,
    boundary_loop fun_ d axes m0 = Ok r ->
    ext_le r m0 /\
    (forall i, i ∈ axes ->
       exists pts, boundary_points d i = Ok pts /\
                   forall v, v ∈ fun_ pts -> ext_le r (Finite v)) /\
    (r = m0 \/
     exists i pts v, i ∈ axes /\ boundary_points d i = Ok pts /\
                     v ∈ fun_ pts /\ r = Finite v).
Proof.
  induction axes as [| i axes IH]; intros m0 r; simpl.
  - intros [= <-]. split; [apply ext_le_refl |]. split; [| by left].
    intros i Hi. inversion Hi.
  - destruct (boundary_points d i) as [pts | e |] eqn:Hpts;
      try discriminate.
    cbn [obind]. intros Hrun. apply IH in Hrun as (Hle & Hall & Hsel).
    destruct (py_min_spec m0 (reduce_min (fun_ pts))) as (H1 & H2 & H3).
    destruct (reduce_min_spec (fun_ pts)) as (Hr1 & Hr2).
    split; [by eapply ext_le_trans |]. split.
    + intros j Hj. apply elem_of_cons in Hj as [-> | Hj]; [| auto].
      exists pts. split; [done |]. intros v Hv.
      eapply ext_le_trans; [exact Hle |].
      eapply ext_le_trans; [exact H2 | auto].
    + destruct Hsel as [Hsel | (j & pts' & v & Hj & Hp & Hv & Hsel)].
      * rewrite Hsel. destruct H3 as [H3 | H3]; rewrite H3; [by left |].
        destruct Hr2 as [Hinf | (v & Hv & Hfin)].
        -- left. rewrite Hinf in H3 |- *. by unfold py_min in H3.
        -- right. exists i, pts, v.
           split; [apply list_elem_of_here | done].
      * right. exists j, pts', v.
        split; [by apply list_elem_of_further | done].
Qed.

Lemma boundary_loop_defined fun_ d :
  forall axes m0,
    (forall i, i ∈ axes -> exists pts, boundary_points d i = Ok pts) ->
    exists r, boundary_loop fun_ d axes m0 = Ok r.
Proof.
  induction axes as [| i axes IH]; intros m0 Hdef; simpl; [eauto |].
  destruct (Hdef i) as [pts ->]; [apply list_elem_of_here |].
  cbn [obind]. apply IH. intros j Hj. apply Hdef.
  by apply list_elem_of_further.
Qed.

Lemma meshgrid_points_spec (axes : list (list Q)) :
  forall p, p ∈ meshgrid_points axes <->
            Forall2 (fun x axis => x ∈ axis) p axes.
Proof.
  induction axes as [| axis axes IH]; intros p; simpl.
  - rewrite list_elem_of_singleton. split.
    + intros ->. constructor.
    + intros H. by inversion H.
  - rewrite list_elem_of_In, in_flat_map. split.
    + intros (x & Hx & Hp). apply in_map_iff in Hp as (q & <- & Hq).
      constructor; [by apply list_elem_of_In |].
      by apply IH, list_elem_of_In.
    + intros H. inversion H as [| x axis' q axes' Hx Hq]; subst.
      exists x. split; [by apply list_elem_of_In |].
      apply in_map_iff. exists q. split; [done |].
      by apply list_elem_of_In, IH.
Qed.

Lemma last_lookup_default (r : list Q) :
  forall x d, (x :: r) !! length r = Some (List.last (x :: r) d).
Proof.
  induction r as [| y r IH]; intros x d; [done |].
  change ((y :: r) !! length r = Some (List.last (y :: r) d)). apply IH.
Qed.

Lemma boundary_points_spec d i pts :
  boundary_points d i = Ok pts ->
  forall p, p ∈ pts <-> on_face d i p.
Proof.
  unfold boundary_points, on_face, ndim.
  destruct (discrete_points d !! i) as [axis |] eqn:Hax; [| discriminate].
  destruct axis as [| x0 r]; [discriminate |].
  cbn [first_last obind]. intros [= <-] p.
  pose proof (lookup_lt_Some _ _ _ Hax) as Hi.
  rewrite meshgrid_points_spec, Forall2_same_length_lookup, length_insert.
  split.
  - intros (Hlen & Hall). split; [done |]. split; [done |].
    intros j x axis Hp Hj. destruct (decide (j = i)) as [-> | Hne].
    + assert (Haxis : axis = x0 :: r) by congruence. subst axis.
      specialize (Hall i x [x0; List.last (x0 :: r) x0] Hp
                    (list_lookup_insert_eq _ _ _ Hi)).
      apply elem_of_cons in Hall as [-> | Hall]; [by left |].
      apply list_elem_of_singleton in Hall as ->. right.
      replace (length (x0 :: r) - 1)%nat with (length r) by (simpl; lia).
      apply last_lookup_default.
    + apply (Hall j x axis Hp). by rewrite list_lookup_insert_ne.
  - intros (_ & Hlen & Hall). split; [done |].
    intros j x axis Hp Hj. specialize (Hall j x).
    destruct (decide (j = i)) as [-> | Hne].
    + rewrite list_lookup_insert_eq in Hj by done. injection Hj as <-.
      destruct (Hall (x0 :: r) Hp Hax) as [[= ->] | Hlast].
      * apply list_elem_of_here.
      * replace (length (x0 :: r) - 1)%nat with (length r) in Hlast
          by (simpl; lia).
        rewrite (last_lookup_default r x0 x0) in Hlast.
        injection Hlast as <-. apply list_elem_of_further, list_elem_of_here.
    + rewrite list_lookup_insert_ne in Hj by done. by apply Hall.
Qed.

(** C7. For a vectorized function, equal to [g] at each point, and a
    grid whose axes all have samples, [smallest_boundary_value] returns
    the minimum of [g] over the union of the boundary faces: a lower
    bound of [g] at every point of every face, attained at one of them
    (and [np.inf] only when there is no such point). On the grid of three
    samples per axis spanning [[-1.5, 1]] and [[-1, 1.5]], with
    [2 * sum |x|], the result is 2.5. *)
Theorem smallest_boundary_value_minimum :
  (forall (fun_ : matrix -> list Q) (g : list Q -> Q) (d : GridWorld),
     (forall pts, fun_ pts = map g pts) ->
     (forall axis, axis ∈ discrete_points d -> axis <> []) ->
     exists r,
       smallest_boundary_value fun_ d = Ok r /\
       (forall i p, on_face d i p -> ext_le r (Finite (g p))) /\
       (r = Infinity \/ exists i p, on_face d i p /\ r = Finite (g p))) /\
  (exists q,
     smallest_boundary_value test_fun test_grid = Ok (Finite q) /\
     q == 5 # 2).
Proof.
  split.
  - intros fun_ g d Hvec Hne. unfold smallest_boundary_value.
    assert (Hdef : forall i, i ∈ seq 0 (ndim d) ->
                             exists pts, boundary_points d i = Ok pts).
    { intros i Hi. apply elem_of_seq in Hi as [_ Hi]. simpl in Hi.
      unfold boundary_points.
      destruct (lookup_lt_is_Some_2 (discrete_points d) i Hi)
        as [axis Hax].
      rewrite Hax. destruct axis as [| x r]; [| by eexists].
      by destruct (Hne [] (list_elem_of_lookup_2 _ _ _ Hax)). }
    destruct (boundary_loop_defined fun_ d _ Infinity Hdef) as [r Hr].
    exists r. split; [done |].
    apply boundary_loop_spec in Hr as (_ & Hall & Hsel). split.
    + intros i p Hface. pose proof Hface as (Hi & _).
      destruct (Hall i) as (pts & Hpts & Hle).
      { apply elem_of_seq. simpl. lia. }
      apply Hle. rewrite Hvec. apply list_elem_of_fmap_2.
      by apply (boundary_points_spec d i pts Hpts).
    + destruct Hsel as [-> | (i & pts & v & _ & Hpts & Hv & ->)];
        [by left | right].
      rewrite Hvec in Hv. apply list_elem_of_fmap in Hv as (p & -> & Hp).
      exists i, p. split; [| done].
      by apply (boundary_points_spec d i pts Hpts).
  - eexists. split; [vm_compute; reflexivity | reflexivity].
Qed.

(** * The theorems at the objects of the test suite *)


(** C1 at the mocked engine of [test_update]. *)
Lemma update_safe_set_invariant_witness :
  let r := update_safe_set LyapunovTest.mock_class 64 (1 # 10) None
             (LyapunovTest.lyap, ∅) in
  let self' := fst (snd r) in
  (V self' = V LyapunovTest.lyap /\
   safe_set self' = map (fun v => Qle_bool v (cmax self')) (V self')) /\
  fst r <> Diverge.
Proof.
  intros r self'.
  destruct (update_safe_set_invariant LyapunovTest.mock_class
              LyapunovTest.lyap (1 # 10) None ∅) as [Hpost Hhalt].
  split.
  - destruct (Hpost 64%nat self' (snd (snd r))) as (H1 & H2 & _);
      [vm_compute; reflexivity | by split].
  - apply Hhalt; [reflexivity | vm_compute; discriminate | vm_compute; lia].
Defined.

(** C2 at the engine of [test_levelset_is_safe]. *)
Lemma max_safe_levelset_certified_witness :
  let self := LyapunovTest.lyap_origin_only in
  fst (max_safe_levelset 64 self (1 # 100) None ∅) <> Diverge /\
  exists lo vdn,
    lower_end None (∅ : heap) = Some lo /\
    v_dot_negative self = Arr vdn /\
    (_levelset_is_safe self lo = Ok true ->
     ~ exists i v, V self !! i = Some v /\ v <= 0 /\ vdn !! i = Some false).
Proof.
  intros self.
  destruct (max_safe_levelset_certified self (1 # 100) None ∅)
    as [Hhalt Hpost]; [reflexivity |].
  split; [apply Hhalt; vm_compute; lia |].
  destruct (Hpost 64%nat 0 (snd (max_safe_levelset 64 self (1 # 100) None ∅)))
    as (lo & vdn & H1 & H2 & H3 & _); [vm_compute; reflexivity |].
  by exists lo, vdn.
Defined.


(** C4 at the engine of [test_levelset_is_safe]. *)
Lemma levelset_is_safe_monotone_witness :
  _levelset_is_safe LyapunovTest.lyap_origin_only (1 # 4) = Ok true.
Proof.
  apply (levelset_is_safe_monotone LyapunovTest.lyap_origin_only
           (1 # 4) (1 # 2)); [discriminate | reflexivity].
Defined.

(** C8 at the interval of [test_lower] and at an unsafe origin. *)
Lemma infeasible_returns_zero_witness :
  line_search_bisection 64 (pure LyapunovTest.objective) 0%nat (1 # 100)
    {[ 0%nat := [1; 2] ]} = (Ok None, {[ 0%nat := [1; 2] ]}) /\
  fst (max_safe_levelset 64
         (set_v_dot_negative (Arr [false; true; true; true])
            LyapunovTest.lyap) (1 # 100) None ∅) = Ok 0.
Proof.
  destruct infeasible_returns_zero as [Hsearch Hmsl]. split.
  - apply (Hsearch 64%nat (pure LyapunovTest.objective) 0%nat (1 # 100)
             {[ 0%nat := [1; 2] ]} 1 [2]); reflexivity.
  - apply (Hmsl 64%nat _ (1 # 100) None ∅ 0 [false; true; true; true]
             0%nat 0); try reflexivity. discriminate.
Defined.

(** C9 at a grid away from the origin. *)
Lemma max_safe_levelset_empty_selection_witness :
  _levelset_is_safe LyapunovTest.positive (1 # 2) = Ok true /\
  _levelset_is_safe LyapunovTest.positive 0 = Ok true /\
  fst (max_safe_levelset 64 LyapunovTest.positive (1 # 10) None ∅)
    = Raise ValueError.
Proof.
  destruct (max_safe_levelset_empty_selection LyapunovTest.positive
              [false; false; false] eq_refl eq_refl) as [Hsafe Hraise].
  split.
  - apply (Hsafe (1 # 2)). intros [| [| [| i]]] v [= <-]; lra.
  - destruct (Hraise (1 # 10) ∅) as (H0 & lo' & hi' & _ & _ & Hrun).
    + reflexivity.
    + discriminate.
    + intros v Hv.
      repeat (apply elem_of_cons in Hv as [-> | Hv]; [reflexivity |]).
      inversion Hv.
    + intros b Hb.
      repeat (apply elem_of_cons in Hb as [-> | Hb]; [reflexivity |]).
      inversion Hb.
    + split; [exact H0 |]. rewrite Hrun; [reflexivity | vm_compute; lia].
Defined.

(** C10 at the interval [[0, 4]] of a caller. *)
Lemma interval_updated_in_place_witness :
  (exists lo' hi',
     snd (line_search_bisection 8
            (_levelset_is_safe LyapunovTest.lyap_origin_only) 7%nat (1 # 2)
            {[ 7%nat := [0; 4] ]}) =
       <[7%nat := [lo'; hi']]> {[ 7%nat := [0; 4] ]} /\
     hi' - lo' <= 1 # 2) /\
  (exists lo' hi',
     snd (max_safe_levelset 8 LyapunovTest.lyap_origin_only (1 # 2)
            (Some 7%nat) {[ 7%nat := [0; 4] ]}) =
       <[7%nat := [lo'; hi']]> {[ 7%nat := [0; 4] ]} /\
     _levelset_is_safe LyapunovTest.lyap_origin_only lo' = Ok true).
Proof.
  destruct interval_updated_in_place as [Hsearch Hmsl]. split.
  - destruct (Hsearch 8%nat
                (_levelset_is_safe LyapunovTest.lyap_origin_only) 7%nat
                (1 # 2) {[ 7%nat := [0; 4] ]}
                (snd (line_search_bisection 8
                        (_levelset_is_safe LyapunovTest.lyap_origin_only)
                        7%nat (1 # 2) {[ 7%nat := [0; 4] ]})) 7%nat)
      as (_ & lo & hi & rest & lo' & hi' & Hl & Hh & _ & _ & Hcases);
      [vm_compute; reflexivity |].
    assert (rest = []) by (vm_compute in Hl; congruence). subst rest.
    exists lo', hi'. split; [exact Hh |].
    destruct Hcases as [(Hhi & _) | (_ & Hw)]; [| exact Hw].
    assert (hi = 4) by (vm_compute in Hl; congruence). subst hi.
    vm_compute in Hhi. discriminate.
  - destruct (Hmsl 8%nat LyapunovTest.lyap_origin_only (1 # 2) 7%nat
                {[ 7%nat := [0; 4] ]} 0 4 []) as [_ Hfeasible];
      [reflexivity |].
    destruct Hfeasible as (lo' & hi' & Hstore & Hlo' & _);
      [reflexivity | vm_compute; discriminate |].
    by exists lo', hi'.
Defined.

(** C5 at the mocked engine of [test_update] with its initial safe set:
    the third point has bound [0], not below [-0.15], and is marked. *)
Lemma safety_constraint_pointwise_witness :
  exists r,
    safety_constraint LyapunovTest.mock_class LyapunovTest.lyap_initial
      (policy LyapunovTest.lyap_initial) true = Ok (Arr r) /\
    length r = 4%nat /\
    r !! 2%nat = Some true.
Proof.
  destruct (safety_constraint_pointwise LyapunovTest.mock_class
              LyapunovTest.lyap_initial (policy LyapunovTest.lyap_initial)
              true [- (1 # 2); - (1 # 5); 0; -1] (Scalar (- (15 # 100))))
    as (r & H1 & H2 & _ & H4).
  - vm_compute. reflexivity.
  - reflexivity.
  - exact I.
  - intros init [= <-]. reflexivity.
  - exists r. split; [exact H1 |]. split; [exact H2 |].
    apply (H4 eq_refl [false; false; true; false] 2%nat); reflexivity.
Defined.

(** C6 at the object of [LyapunovDiscreteTest.test_init]. *)
Lemma discrete_v_decrease_confidence_witness :
  exists mean errs,
    LyapunovDiscrete.v_decrease_confidence
      LyapunovDiscreteTest.lipschitz_lyapunov LyapunovDiscreteTest.lyap
      (discretization LyapunovDiscreteTest.lyap)
      (Pair LyapunovDiscreteTest.dynamics LyapunovDiscreteTest.dynamics)
      = Ok (Arr mean, Arr errs) /\
    mean !! 1%nat = Some (1 - 1) /\
    errs !! 1%nat = Some ((3 # 10) * (2 + 0)).
Proof.
  destruct (discrete_v_decrease_confidence
              LyapunovDiscreteTest.lipschitz_lyapunov
              LyapunovDiscreteTest.lyap
              (discretization LyapunovDiscreteTest.lyap)
              (Pair LyapunovDiscreteTest.dynamics
                 LyapunovDiscreteTest.dynamics)
              [0; 1; 2] [0; 1; 2])
    as (mean & err & H1 & _ & H3 & errs & -> & _ & H5);
    [reflexivity | reflexivity | reflexivity | intros m e _; exact I |].
  exists mean, errs. split; [exact H1 |]. split.
  - destruct (H3 1%nat 1 eq_refl) as (b & [= <-] & Hm). exact Hm.
  - destruct (H5 1%nat [2] eq_refl) as (k & [= <-] & He). exact He.
Defined.

(** C7 at the function and the grid of [test_smallest_boundary_value]. *)
Lemma smallest_boundary_value_minimum_witness :
  exists r,
    smallest_boundary_value test_fun test_grid = Ok r /\
    ext_le r (Finite (2 * (Qabs (8 # 8) + (Qabs (1 # 4) + 0)))).
Proof.
  destruct smallest_boundary_value_minimum as [Hmin _].
  destruct (Hmin test_fun
              (fun p => 2 * fold_right Qplus 0 (map Qabs p)) test_grid)
    as (r & Hr & Hle & _).
  - reflexivity.
  - intros axis Hin. apply list_elem_of_In in Hin. vm_compute in Hin.
    destruct Hin as [<- | [<- | []]]; discriminate.
  - exists r. split; [exact Hr |].
    apply (Hle 0%nat [8 # 8; 1 # 4]). split; [vm_compute; lia |].
    split; [reflexivity |].
    intros [| [| j]] x axis [= <-] [= <-]; simpl.
    + right. vm_compute. reflexivity.
    + apply list_elem_of_In. vm_compute. right. left. reflexivity.
Defined.

(** * The assertions of the test suite, on the embedding *)

(** [test_simple]: the lower bound found on [[0, 1]] is within the
    accuracy of [0.5]. *)
Example test_simple :
  let r := line_search_bisection 32 (pure LyapunovTest.objective) 0%nat
             (1 # 100000) {[ 0%nat := [0; 1] ]} in
  match fst r, snd r !! 0%nat with
  | Ok (Some _), Some [lo'; hi'] =>
      lo' < 1 # 2 /\ (1 # 2) - lo' <= 1 # 100000
  | _, _ => False
  end.
Proof. vm_compute. split; reflexivity || discriminate. Qed.

(** [test_upper]: on [[0, 0.4]] the interval collapses. *)
Example test_upper :
  let r := line_search_bisection 32 (pure LyapunovTest.objective) 0%nat
             (1 # 100000) {[ 0%nat := [0; 2 # 5] ]} in
  fst r = Ok (Some 0%nat) /\ snd r !! 0%nat = Some [2 # 5; 2 # 5].
Proof. vm_compute. split; reflexivity. Qed.

(** [test_errors]: the base class implements neither member. *)
Example test_errors :
  v_decrease_confidence LyapunovBase LyapunovTest.lyap [] (NdArray [])
    = Raise NotImplementedError /\
  threshold LyapunovBase LyapunovTest.lyap = Raise NotImplementedError /\
  fst (update_safe_set LyapunovBase 8 (1 # 10) None (LyapunovTest.lyap, ∅))
    = Raise NotImplementedError.
Proof. repeat split. Qed.

(** [test_levelset_is_safe]: the level found is below 1 and at least the
    largest safe value of [V]. *)
Example test_levelset_is_safe :
  _levelset_is_safe LyapunovTest.lyap_origin_only (1 # 2) = Ok true /\
  _levelset_is_safe LyapunovTest.lyap_origin_only (11 # 10) = Ok false /\
  match fst (max_safe_levelset 32 LyapunovTest.lyap_origin_only (1 # 100)
               None ∅) with
  | Ok s => s < 1 /\ 0 <= s
  | _ => False
  end.
Proof. vm_compute. repeat split; discriminate. Qed.

(** [test_update]: the first update, and the update once the initial
    safe set [[F, F, T, F]] is assigned. *)
Example test_update :
  let r := update_safe_set LyapunovTest.mock_class 32 (1 # 10) None
             (LyapunovTest.lyap, ∅) in
  let r' := update_safe_set LyapunovTest.mock_class 32 (1 # 10) None
              (LyapunovTest.lyap_initial, ∅) in
  (fst r = Ok tt /\
   safe_set (fst (snd r)) = [true; true; false; false] /\
   v_dot_negative (fst (snd r)) = Arr [true; true; false; true] /\
   cmax (fst (snd r)) < 2 /\ 1 <= cmax (fst (snd r))) /\
  (fst r' = Ok tt /\
   safe_set (fst (snd r')) = [true; true; true; true] /\
   v_dot_negative (fst (snd r')) = Arr [true; true; true; true] /\
   3 <= cmax (fst (snd r')) /\ cmax (fst (snd r')) <= 3 + (1 # 10)).
Proof. vm_compute. repeat split; discriminate. Qed.

(** [LyapunovDiscreteTest.test_init]: the threshold [-lv * (1 + lf) * eps]
    and the decrease with and without error bounds. *)
Example test_discrete_init :
  match threshold (LyapunovDiscrete.class
                     LyapunovDiscreteTest.lipschitz_dynamics
                     LyapunovDiscreteTest.lipschitz_lyapunov)
          LyapunovDiscreteTest.lyap with
  | Ok (Scalar t) => t == - (21 # 100)
  | _ => False
  end /\
  LyapunovDiscrete.v_decrease_confidence
    LyapunovDiscreteTest.lipschitz_lyapunov LyapunovDiscreteTest.lyap []
    (NdArray LyapunovDiscreteTest.dynamics)
    = Ok (Arr [0 - 0; 1 - 1; 2 - 2], Scalar 0) /\
  LyapunovDiscrete.v_decrease_confidence
    LyapunovDiscreteTest.lipschitz_lyapunov LyapunovDiscreteTest.lyap []
    (Pair LyapunovDiscreteTest.dynamics LyapunovDiscreteTest.dynamics)
    = Ok (Arr [0 - 0; 1 - 1; 2 - 2],
          Arr [(3 # 10) * (1 + 0); (3 # 10) * (2 + 0); (3 # 10) * (3 + 0)]).
Proof. repeat split. Qed.

(** * Further properties of the module *)

(** ** The line search as an equation *)

Lemma lsb_eq fuel f l accuracy (h : heap) lo hi rest :
  h !! l = Some (lo :: hi :: rest) ->
  line_search_bisection fuel f l accuracy h =
    match f lo with
    | Ok false => (Ok None, h)
    | Ok true =>
        match f hi with
        | Ok true => (Ok (Some l), with_bounds l (hi, hi) rest h)
        | Ok false =>
            (obind (fst (bisect_run fuel f accuracy lo hi))
               (fun _ => Ok (Some l)),
             with_bounds l (snd (bisect_run fuel f accuracy lo hi)) rest h)
        | Raise e => (Raise e, h)
        | Diverge => (Diverge, h)
        end
    | Raise e => (Raise e, h)
    | Diverge => (Diverge, h)
    end.
Proof.
  intros Hl. destruct (f lo) as [[|] | e |] eqn:Hlo.
  - destruct (f hi) as [[|] | e |] eqn:Hhi.
    + by apply (lsb_collapse _ _ _ _ _ lo).
    + by apply lsb_bisect.
    + unfold line_search_bisection.
      rewrite (bind_getitem _ 0 _ _ _ _ Hl eq_refl), bind_lift, Hlo.
      cbn [negb].
      by rewrite (bind_getitem _ 1 _ _ _ _ Hl eq_refl), bind_lift, Hhi.
    + unfold line_search_bisection.
      rewrite (bind_getitem _ 0 _ _ _ _ Hl eq_refl), bind_lift, Hlo.
      cbn [negb].
      by rewrite (bind_getitem _ 1 _ _ _ _ Hl eq_refl), bind_lift, Hhi.
  - by apply (lsb_infeasible _ _ _ _ _ lo (hi :: rest)).
  - unfold line_search_bisection.
    by rewrite (bind_getitem _ 0 _ _ _ _ Hl eq_refl), bind_lift, Hlo.
  - unfold line_search_bisection.
    by rewrite (bind_getitem _ 0 _ _ _ _ Hl eq_refl), bind_lift, Hlo.
Qed.

(** A loop entered with the accuracy already met makes no step. *)
Lemma bisect_run_done fuel f accuracy lo hi :
  hi - lo <= accuracy ->
  bisect_run (S fuel) f accuracy lo hi = (Ok tt, (lo, hi)).
Proof.
  intros Hw. simpl.
  by rewrite (proj2 (Qlt_bool_false accuracy (hi - lo)) Hw).
Qed.

Lemma lsb_again fuel f l accuracy (h h' : heap) (r : option loc) :
  line_search_bisection fuel f l accuracy h = (Ok r, h') ->
  forall fuel', (0 < fuel')%nat ->
    line_search_bisection fuel' f l accuracy h' = (Ok r, h').
Proof.
  intros Hrun fuel' Hfuel.
  apply lsb_post in Hrun
    as (lo & rest & Hl & [(-> & Hlo & ->) | (-> & Hlo & Hr)]).
  - by apply (lsb_infeasible _ _ _ _ _ lo rest).
  - destruct Hr as (hi & rest' & [lo' hi'] & -> & -> & Hflo' & Hcases).
    pose proof (with_bounds_lookup l (lo', hi') rest' h) as Hl'.
    simpl in Hflo', Hl'. rewrite (lsb_eq _ _ _ _ _ _ _ _ Hl'), Hflo'.
    destruct Hcases as [(Hhi & [= -> ->]) | (Hhi & Hb)].
    + rewrite Hhi. by rewrite with_bounds_twice.
    + destruct (bisect_run_ok _ _ _ _ _ _ _ Hb) as (Hw & _ & Hfhi & _).
      rewrite (Hfhi Hhi). destruct fuel' as [| n]; [lia |].
      rewrite (bisect_run_done n f accuracy lo' hi' Hw). simpl.
      by rewrite with_bounds_twice.
Qed.

(** ** Accuracies that are never met *)

Lemma bisect_run_diverges f accuracy :
  accuracy <= 0 ->
  (forall x, exists b, f x = Ok b) ->
  forall fuel lo hi,
    lo < hi -> fst (bisect_run fuel f accuracy lo hi) = Diverge.
Proof.
  intros Hacc Hf. induction fuel as [| fuel IH]; intros lo hi Hlt;
    [done |].
  simpl.
  assert (Hc : Qlt_bool accuracy (hi - lo) = true)
    by (apply Qlt_bool_true; lra).
  rewrite Hc.
  assert (Hm1 : lo < (lo + hi) / 2) by (apply Qlt_shift_div_l; lra).
  assert (Hm2 : (lo + hi) / 2 < hi) by (apply Qlt_shift_div_r; lra).
  destruct (Hf ((lo + hi) / 2)) as [[|] ->]; by apply IH.
Qed.

(** X1. With an accuracy that is zero or negative, a search that has to
    bisect (the predicate holds at [lo], fails at [hi], and [lo < hi])
    never returns: it runs out of every amount of fuel. *)
Theorem line_search_nonpositive_accuracy
    f l accuracy (h : heap) lo hi rest :
  accuracy <= 0 ->
  lo < hi ->
  h !! l = Some (lo :: hi :: rest) ->
  (forall x, exists b, f x = Ok b) ->
  f lo = Ok true ->
  f hi = Ok false ->
  forall fuel,
    fst (line_search_bisection fuel f l accuracy h) = Diverge.
Proof.
  intros Hacc Hlt Hl Hf Hlo Hhi fuel.
  rewrite (lsb_eq _ _ _ _ _ _ _ _ Hl), Hlo, Hhi. simpl.
  by rewrite (bisect_run_diverges f accuracy Hacc Hf fuel lo hi Hlt).
Qed.

(** ** What the search leaves alone *)

Lemma lsb_store_cases fuel f l accuracy (h : heap) :
  snd (line_search_bisection fuel f l accuracy h) = h \/
  exists lo hi rest b,
    h !! l = Some (lo :: hi :: rest) /\
    snd (line_search_bisection fuel f l accuracy h)
      = with_bounds l b rest h.
Proof.
  destruct (h !! l) as [[| lo [| hi rest]] |] eqn:Hl.
  - left. unfold line_search_bisection, bind, getitem. by rewrite Hl.
  - left. unfold line_search_bisection.
    rewrite (bind_getitem _ 0 _ _ _ _ Hl eq_refl), bind_lift.
    destruct (f lo) as [[|] | e |]; try done.
    cbn [negb]. unfold bind, getitem. by rewrite Hl.
  - rewrite (lsb_eq _ _ _ _ _ _ _ _ Hl).
    destruct (f lo) as [[|] | e |]; try by left.
    destruct (f hi) as [[|] | e |]; try by left.
    + right. by exists lo, hi, rest, (hi, hi).
    + right. by exists lo, hi, rest,
        (snd (bisect_run fuel f accuracy lo hi)).
  - left. unfold line_search_bisection, bind, getitem. by rewrite Hl.
Qed.

Lemma lsb_store_other fuel f l accuracy (h : heap) l' :
  l' <> l ->
  snd (line_search_bisection fuel f l accuracy h) !! l' = h !! l'.
Proof.
  intros Hne.
  destruct (lsb_store_cases fuel f l accuracy h)
    as [-> | (lo & hi & rest & b & Hl & ->)]; [done |].
  unfold with_bounds. by rewrite lookup_insert_ne.
Qed.

(** X2. However the search ends, it changes no list but the one it was
    given, and in that list nothing but the first two elements. *)
Theorem line_search_frame fuel f l accuracy (h : heap) :
  (forall l', l' <> l ->
     snd (line_search_bisection fuel f l accuracy h) !! l' = h !! l') /\
  (forall xs, h !! l = Some xs ->
     exists xs',
       snd (line_search_bisection fuel f l accuracy h) !! l = Some xs' /\
       length xs' = length xs /\ drop 2 xs' = drop 2 xs).
Proof.
  split; [intros l'; apply lsb_store_other |].
  destruct (lsb_store_cases fuel f l accuracy h)
    as [-> | (lo & hi & rest & b & Hl & ->)].
  - intros xs Hxs. by exists xs.
  - intros xs Hxs. rewrite Hl in Hxs. injection Hxs as <-.
    exists (fst b :: snd b :: rest).
    by rewrite with_bounds_lookup.
Qed.

(** ** [max_safe_levelset] as a function of the interval *)

Lemma msl_explicit_level fuel self accuracy l (h : heap) lo hi rest :
  h !! l = Some (lo :: hi :: rest) ->
  fst (max_safe_levelset fuel self accuracy (Some l) h)
    = search_level fuel self accuracy lo hi.
Proof.
  intros Hl. rewrite msl_explicit, (lsb_eq _ _ _ _ _ _ _ _ Hl).
  unfold search_level.
  destruct (_levelset_is_safe self lo) as [[|] | e |]; try done.
  destruct (_levelset_is_safe self hi) as [[|] | e |]; try done.
  - by rewrite (bind_getitem _ 0 _ _ _ hi
                  (with_bounds_lookup l (hi, hi) rest h) eq_refl).
  - destruct (bisect_run fuel (_levelset_is_safe self) accuracy lo hi)
      as [[[] | e |] [lo' hi']]; try done.
    simpl.
    by rewrite (bind_getitem _ 0 _ _ _ lo'
                  (with_bounds_lookup l (lo', hi') rest h) eq_refl).
Qed.

Lemma msl_level fuel self accuracy interval (h : heap) lo hi :
  search_interval self accuracy interval h = Some (lo, hi) ->
  fst (max_safe_levelset fuel self accuracy interval h)
    = search_level fuel self accuracy lo hi.
Proof.
  destruct interval as [l |]; simpl.
  - destruct (h !! l) as [[| lo' [| hi' rest]] |] eqn:Hl; try done.
    intros [= <- <-]. by apply (msl_explicit_level _ _ _ _ _ _ _ rest).
  - rewrite msl_default.
    destruct (np_max (V self)) as [m | e |]; try done.
    intros [= <- <-].
    apply (msl_explicit_level _ _ _ _ _ _ _ []), lookup_insert_eq.
Qed.

(** ** How tight the returned level is *)

(** X3. When the search has to bisect (the level set is safe at the
    lower end of the interval and unsafe at the upper end), the value
    [max_safe_levelset] returns is a value of [V], and it is tight up to
    the accuracy: there are bounds [lo'] and [hi'] that passed the exit
    test of the search, [hi' - lo' <= accuracy], such that the returned
    value is the largest value of [V] up to [lo'] and some point without
    [v_dot_negative] has its value in [(lo', hi']]. *)
Theorem max_safe_levelset_tight
    fuel self accuracy interval (h : heap) lo hi vdn c :
  search_interval self accuracy interval h = Some (lo, hi) ->
  v_dot_negative self = Arr vdn ->
  _levelset_is_safe self lo = Ok true ->
  _levelset_is_safe self hi = Ok false ->
  fst (max_safe_levelset fuel self accuracy interval h) = Ok c ->
  c ∈ V self /\
  exists lo' hi' u vu,
    hi' - lo' <= accuracy /\
    c <= lo' /\ (forall v, v ∈ V self -> v <= lo' -> v <= c) /\
    V self !! u = Some vu /\ vdn !! u = Some false /\
    lo' < vu /\ vu <= hi'.
Proof.
  intros Hint Hvdn Hlo Hhi. rewrite (msl_level _ _ _ _ _ _ _ Hint).
  unfold search_level. rewrite Hlo, Hhi.
  destruct (bisect_run fuel (_levelset_is_safe self) accuracy lo hi)
    as [[[] | e |] [lo' hi']] eqn:Hb; try done.
  simpl. intros Hval.
  destruct (bisect_run_ok _ _ _ _ _ _ _ Hb) as (Hw & Hflo & Hfhi & _).
  specialize (Hflo Hlo). specialize (Hfhi Hhi).
  apply levelset_value_spec in Hval as (Hc & Hin & Hmax).
  split; [done |].
  apply levelset_is_safe_false in Hfhi
    as (vdn' & Hvdn' & _ & u & vu & Hu & Hle & Hfalse).
  assert (vdn' = vdn) by congruence. subst vdn'.
  exists lo', hi', u, vu. split; [done |]. split; [done |].
  split; [done |]. split; [done |]. split; [done |].
  split; [| done].
  apply Qnot_le_lt. intros Hle'.
  apply levelset_is_safe_true in Hflo as (vdn' & Hvdn'' & _ & Hall).
  assert (vdn' = vdn) by congruence. subst vdn'.
  specialize (Hall u vu Hu Hle'). congruence.
Qed.

(** ** A grid that is safe everywhere *)

Lemma select_all {A} (a : list A) (mask : list bool) :
  length mask = length a ->
  (forall b, b ∈ mask -> b = true) ->
  select a mask = a.
Proof.
  revert mask. induction a as [| x a IH]; intros [| b mask] Hlen Hall;
    simpl in *; try done.
  rewrite (Hall b (list_elem_of_here _ _)). f_equal.
  apply IH; [lia |]. intros b' Hb'. apply Hall.
  by apply list_elem_of_further.
Qed.

Lemma levelset_value_all self b0 m :
  np_max (V self) = Ok m -> m <= b0 ->
  levelset_value self b0 = Ok m.
Proof.
  intros Hm Hle. unfold levelset_value, bool_index.
  rewrite length_map, Nat.eqb_refl. simpl.
  rewrite select_all; [done | by rewrite length_map |].
  intros b Hb. apply list_elem_of_fmap in Hb as (v & -> & Hv).
  apply Qle_bool_iff. apply np_max_spec in Hm as (_ & Hmax).
  specialize (Hmax v Hv). lra.
Qed.

Lemma all_safe_everywhere self vdn :
  v_dot_negative self = Arr vdn ->
  length vdn = length (V self) ->
  (forall b, b ∈ vdn -> b = true) ->
  forall c, _levelset_is_safe self c = Ok true.
Proof.
  intros Hvdn Hlen Hall c. apply levelset_is_safe_true. exists vdn.
  split; [done |]. split; [done |]. intros i v Hv _.
  destruct (lookup_lt_is_Some_2 vdn i) as [b Hb].
  { rewrite Hlen. by eapply lookup_lt_Some. }
  rewrite Hb. f_equal. apply Hall. by eapply list_elem_of_lookup_2.
Qed.

Lemma search_level_all_safe fuel self accuracy m :
  (forall c, _levelset_is_safe self c = Ok true) ->
  np_max (V self) = Ok m ->
  0 <= accuracy ->
  search_level fuel self accuracy 0 (m + accuracy) = Ok m.
Proof.
  intros Hsafe Hm Hacc. unfold search_level. rewrite !Hsafe.
  apply levelset_value_all; [done | lra].
Qed.

Lemma np_max_nonempty (xs : list Q) :
  xs <> [] -> exists m, np_max xs = Ok m.
Proof. destruct xs; [done | simpl; eauto]. Qed.

(** X4. When every point has [v_dot_negative] true, [V] is not empty
    and the accuracy is not negative, [max_safe_levelset] on the default
    interval returns [max(V)], without a single bisection: any fuel
    does. *)
Theorem max_safe_levelset_all_safe fuel self accuracy (h : heap) vdn :
  v_dot_negative self = Arr vdn ->
  length vdn = length (V self) ->
  (forall b, b ∈ vdn -> b = true) ->
  V self <> [] ->
  0 <= accuracy ->
  exists m,
    np_max (V self) = Ok m /\
    (forall v, v ∈ V self -> v <= m) /\
    fst (max_safe_levelset fuel self accuracy None h) = Ok m.
Proof.
  intros Hvdn Hlen Hall Hne Hacc.
  destruct (np_max_nonempty _ Hne) as [m Hm].
  exists m. split; [done |].
  split; [by apply (np_max_spec _ _ Hm) |].
  rewrite (msl_level fuel self accuracy None h 0 (m + accuracy));
    [| simpl; by rewrite Hm].
  apply search_level_all_safe; [| done | done].
  by apply (all_safe_everywhere self vdn).
Qed.

(** ** More safe points, larger level *)

Lemma bisect_run_below f f' accuracy :
  (forall x, f x = Ok true -> f' x = Ok true) ->
  forall fuel lo hi b b',
    lo <= hi ->
    bisect_run fuel f accuracy lo hi = (Ok tt, b) ->
    bisect_run fuel f' accuracy lo hi = (Ok tt, b') ->
    fst b <= fst b'.
Proof.
  intros Hbelow. induction fuel as [| fuel IH];
    intros lo hi b b' Hle Hrun Hrun'; [discriminate |].
  simpl in Hrun, Hrun'.
  destruct (Qlt_bool accuracy (hi - lo)).
  - assert (Hm1 : lo <= (lo + hi) / 2) by (apply Qle_shift_div_l; lra).
    assert (Hm2 : (lo + hi) / 2 <= hi) by (apply Qle_shift_div_r; lra).
    destruct (f ((lo + hi) / 2)) as [[|] | e |] eqn:Hf; try discriminate.
    + rewrite (Hbelow _ Hf) in Hrun'. by apply (IH _ _ _ _ Hm2 Hrun Hrun').
    + destruct (f' ((lo + hi) / 2)) as [[|] | e |]; try discriminate.
      * destruct b as [l1 h1], b' as [l2 h2].
        destruct (bisect_run_ok _ _ _ _ _ _ _ Hrun) as (_ & _ & _ & H1 & _).
        destruct (bisect_run_ok _ _ _ _ _ _ _ Hrun') as (_ & _ & _ & H2 & _).
        specialize (H1 Hm1). specialize (H2 Hm2). simpl. lra.
      * by apply (IH _ _ _ _ Hm1 Hrun Hrun').
  - injection Hrun as <-. injection Hrun' as <-. simpl. lra.
Qed.

Lemma levelset_value_mono self self' b0 b0' c :
  V self' = V self ->
  levelset_value self b0 = Ok c ->
  b0 <= b0' ->
  exists c', levelset_value self' b0' = Ok c' /\ c <= c'.
Proof.
  intros HV Hval Hle.
  apply levelset_value_spec in Hval as (Hc & Hin & _).
  unfold levelset_value, bool_index. rewrite HV.
  rewrite length_map, Nat.eqb_refl. simpl.
  apply list_elem_of_lookup_1 in Hin as (i & Hi).
  assert (Hsel : c ∈ select (V self)
                     (map (fun v => Qle_bool v b0') (V self))).
  { apply select_lookup. exists i. split; [done |].
    apply mask_lookup. exists c. split; [done | lra]. }
  destruct (np_max (select (V self)
                      (map (fun v => Qle_bool v b0') (V self))))
    as [c' | e |] eqn:Hm.
  - exists c'. split; [done |]. by apply (np_max_spec _ _ Hm).
  - apply np_max_empty in Hm as [Hm _]. rewrite Hm in Hsel.
    inversion Hsel.
  - by destruct (select _ _).
Qed.

Lemma levelset_value_some self b0 u vu :
  (forall v, v ∈ V self -> 0 <= v) ->
  V self !! u = Some vu -> vu <= b0 ->
  exists c, levelset_value self b0 = Ok c /\ 0 <= c.
Proof.
  intros Hpos Hu Hle. unfold levelset_value, bool_index.
  rewrite length_map, Nat.eqb_refl. simpl.
  assert (Hsel : vu ∈ select (V self)
                     (map (fun v => Qle_bool v b0) (V self))).
  { apply select_lookup. exists u. split; [done |].
    apply mask_lookup. by exists vu. }
  destruct (np_max (select (V self)
                      (map (fun v => Qle_bool v b0) (V self))))
    as [c | e |] eqn:Hm.
  - exists c. split; [done |].
    apply np_max_spec in Hm as (Hin & _).
    apply select_lookup in Hin as (j & Hj & _).
    apply Hpos. by eapply list_elem_of_lookup_2.
  - apply np_max_empty in Hm as [Hm _]. rewrite Hm in Hsel.
    inversion Hsel.
  - by destruct (select _ _).
Qed.

(** X5. Marking more points never lowers the level. Let two engines
    share [V >= 0], the second having [v_dot_negative] true wherever the
    first has; on the same interval with [lo <= hi] and with the same
    accuracy, if [max_safe_levelset] returns [c] for the first and [c']
    for the second, then [c <= c']. *)
Theorem max_safe_levelset_monotone
    fuel fuel' self self' accuracy interval (h : heap) lo hi vdn vdn'
    c c' :
  search_interval self accuracy interval h = Some (lo, hi) ->
  lo <= hi ->
  V self' = V self ->
  (forall v, v ∈ V self -> 0 <= v) ->
  v_dot_negative self = Arr vdn ->
  v_dot_negative self' = Arr vdn' ->
  (forall i, vdn !! i = Some true -> vdn' !! i = Some true) ->
  fst (max_safe_levelset fuel self accuracy interval h) = Ok c ->
  fst (max_safe_levelset fuel' self' accuracy interval h) = Ok c' ->
  c <= c'.
Proof.
  intros Hint Hle HV Hpos Hvdn Hvdn' Hsub.
  assert (Hint' : search_interval self' accuracy interval h = Some (lo, hi)).
  { unfold search_interval in *. by rewrite HV. }
  rewrite (msl_level _ _ _ _ _ _ _ Hint), (msl_level _ _ _ _ _ _ _ Hint').
  set (f := _levelset_is_safe self). set (f' := _levelset_is_safe self').
  assert (Hnonneg : forall b0, levelset_value self' b0 = Ok c' -> 0 <= c').
  { intros b0 Hval. apply levelset_value_spec in Hval as (_ & Hin & _).
    apply Hpos. by rewrite <- HV. }
  assert (Hmono : forall b0 b0',
    levelset_value self b0 = Ok c -> levelset_value self' b0' = Ok c' ->
    b0 <= b0' -> c <= c').
  { intros b0 b0' Hval Hval' Hb.
    destruct (levelset_value_mono self self' b0 b0' c HV Hval Hb)
      as (c'' & Hc'' & Hcc). congruence. }
  assert (Hbelow : forall x b, f x = Ok true -> f' x = Ok b -> b = true).
  { intros x [|] Hx Hx'; [done |].
    apply levelset_is_safe_true in Hx as (vdn0 & Hv0 & _ & Hall).
    apply levelset_is_safe_false in Hx'
      as (vdn1 & Hv1 & _ & i & v & Hv & Hvx & Hfalse).
    assert (vdn0 = vdn) by congruence.
    assert (vdn1 = vdn') by congruence. subst vdn0 vdn1.
    rewrite HV in Hv. specialize (Hsub i (Hall i v Hv Hvx)). congruence. }
  unfold search_level. fold f f'.
  destruct (f lo) as [[|] | e |] eqn:Hlo; try done; cycle 1.
  { intros [= <-].
    destruct (f' lo) as [[|] | e |]; try done; [| by intros [= <-]].
    destruct (f' hi) as [[|] | e |]; try done; [apply Hnonneg |].
    destruct (bisect_run fuel' f' accuracy lo hi) as [[[] | e |] b'];
      try done. apply Hnonneg. }
  destruct (f' lo) as [[|] | e |] eqn:Hlo'; try done;
    [| by specialize (Hbelow lo false Hlo Hlo')].
  destruct (f hi) as [[|] | e |] eqn:Hhi; try done.
  - intros Hval.
    destruct (f' hi) as [[|] | e |] eqn:Hhi'; try done;
      [| by specialize (Hbelow hi false Hhi Hhi')].
    intros Hval'. apply (Hmono hi hi Hval Hval'). lra.
  - destruct (bisect_run fuel f accuracy lo hi) as [[[] | e |] b] eqn:Hrun;
      try done.
    intros Hval.
    destruct (bisect_run_ok _ _ _ _ _ _ _
                (eq_trans Hrun (f_equal _ (surjective_pairing b))))
      as (_ & _ & _ & Hord & _).
    specialize (Hord Hle).
    destruct (f' hi) as [[|] | e |] eqn:Hhi'; try done.
    + intros Hval'. apply (Hmono (fst b) hi Hval Hval'). lra.
    + destruct (bisect_run fuel' f' accuracy lo hi)
        as [[[] | e |] b'] eqn:Hrun'; try done.
      intros Hval'. apply (Hmono (fst b) (fst b') Hval Hval').
      assert (Hbelow' : forall x, f x = Ok true -> f' x = Ok true).
      { intros x Hx.
        destruct (levelset_is_safe_defined self' hi false Hhi' x)
          as [b0 Hb0].
        fold f' in Hb0. rewrite Hb0. f_equal. by apply (Hbelow x). }
      apply (bisect_run_below f f' accuracy Hbelow' (max fuel fuel')
               lo hi b b' Hle).
      * apply (bisect_run_mono f accuracy fuel); [done | lia].
      * apply (bisect_run_mono f' accuracy fuel'); [done | lia].
Qed.

(** ** What [max_safe_levelset] leaves alone *)

(** X6. However it ends, [max_safe_levelset] changes no list of the
    store but the interval it was given; with the default interval it
    changes none, the interval being a new list. *)
Theorem max_safe_levelset_frame
    fuel self accuracy interval (h : heap) l xs :
  h !! l = Some xs ->
  interval <> Some l ->
  snd (max_safe_levelset fuel self accuracy interval h) !! l = Some xs.
Proof.
  intros Hl Hne. destruct interval as [l0 |].
  - rewrite msl_explicit_store, lsb_store_other; [done | congruence].
  - rewrite msl_default.
    destruct (np_max (V self)) as [m | e |]; [| done | done].
    assert (Hfresh : l <> fresh (dom h)).
    { intros ->. apply (is_fresh (dom h)). apply elem_of_dom. eauto. }
    rewrite msl_explicit_store, lsb_store_other by done.
    by rewrite lookup_insert_ne.
Qed.

(** ** Calling again *)

Lemma msl_again fuel self accuracy interval (h h1 : heap) c :
  (0 < fuel)%nat ->
  max_safe_levelset fuel self accuracy interval h = (Ok c, h1) ->
  exists h2,
    max_safe_levelset fuel self accuracy interval h1 = (Ok c, h2) /\
    (is_Some interval -> h2 = h1).
Proof.
  intros Hfuel Hrun. destruct interval as [l |].
  - exists h1. split; [| done]. rewrite msl_explicit in Hrun |- *.
    destruct (line_search_bisection fuel (_levelset_is_safe self) l
                accuracy h) as [[[b |] | e |] h'] eqn:Hs; try done.
    + assert (h1 = h').
      { unfold bind, getitem, lift in Hrun.
        destruct (h' !! b) as [ys |]; [| done].
        destruct (ys !! 0%nat); [| done].
        destruct (levelset_value self _); congruence. }
      subst h'. by rewrite (lsb_again _ _ _ _ _ _ _ Hs fuel Hfuel).
    + injection Hrun as <- <-.
      by rewrite (lsb_again _ _ _ _ _ _ _ Hs fuel Hfuel).
  - pose proof (f_equal fst Hrun) as Hfst. simpl in Hfst.
    destruct (np_max (V self)) as [m | e |] eqn:Hm;
      [| by rewrite msl_default, Hm in Hfst
       | by rewrite msl_default, Hm in Hfst].
    assert (Hint : forall h0 : heap,
      search_interval self accuracy None h0 = Some (0, m + accuracy)).
    { intros h0. simpl. by rewrite Hm. }
    rewrite (msl_level _ _ _ _ _ _ _ (Hint h)) in Hfst.
    destruct (max_safe_levelset fuel self accuracy None h1)
      as [o h2] eqn:Hrun2.
    exists h2. split; [| by intros [? [=]]].
    pose proof (f_equal fst Hrun2) as Hfst2. simpl in Hfst2.
    rewrite (msl_level _ _ _ _ _ _ _ (Hint h1)) in Hfst2. congruence.
Qed.

(** X7. A search that returned has nothing left to do. Run again, with
    any fuel, on the store it left, [line_search_bisection] returns the
    same result and leaves the store as it is; and so does
    [max_safe_levelset] called again with the caller's interval. *)
Theorem line_search_idempotent :
  (forall fuel f l accuracy (h h' : heap) (r : option loc),
     line_search_bisection fuel f l accuracy h = (Ok r, h') ->
     forall fuel', (0 < fuel')%nat ->
       line_search_bisection fuel' f l accuracy h' = (Ok r, h')) /\
  (forall fuel self accuracy l (h h' : heap) c,
     (0 < fuel)%nat ->
     max_safe_levelset fuel self accuracy (Some l) h = (Ok c, h') ->
     max_safe_levelset fuel self accuracy (Some l) h' = (Ok c, h')).
Proof.
  split; [apply lsb_again |].
  intros fuel self accuracy l h h' c Hfuel Hrun.
  destruct (msl_again _ _ _ _ _ _ _ Hfuel Hrun) as (h2 & Hrun2 & Hsame).
  by rewrite (Hsame (ex_intro _ l eq_refl)) in Hrun2.
Qed.

Lemma safety_constraint_ignores cls self x c s policy include_initial :
  ignores_search_state cls ->
  safety_constraint cls
    (set_safe_set s (set_cmax c (set_v_dot_negative x self)))
    policy include_initial
  = safety_constraint cls self policy include_initial.
Proof.
  intros Hign. destruct (Hign self x c s) as [Hconf Hthr].
  unfold safety_constraint, v_decrease_bound.
  by rewrite Hconf, Hthr.
Qed.

Lemma discrete_ignores_search_state lf lv :
  ignores_search_state (LyapunovDiscrete.class lf lv).
Proof. by intros self x c s. Qed.

Lemma continuous_ignores_search_state lipschitz gradient :
  ignores_search_state (LyapunovContinuous.class lipschitz gradient).
Proof. by intros self x c s. Qed.

Lemma msl_ext fuel s1 s2 accuracy interval (h : heap) :
  V s1 = V s2 -> v_dot_negative s1 = v_dot_negative s2 ->
  max_safe_levelset fuel s1 accuracy interval h
  = max_safe_levelset fuel s2 accuracy interval h.
Proof.
  intros HV Hvdn.
  assert (Hf : _levelset_is_safe s1 = _levelset_is_safe s2).
  { unfold _levelset_is_safe. by rewrite HV, Hvdn. }
  unfold max_safe_levelset. by rewrite HV, Hf.
Qed.

(** For a class whose members read none of [v_dot_negative], [cmax] and
    [safe_set], and build their arrays anew at every call. *)
Lemma update_twice cls fuel accuracy interval self (h h1 : heap) self1 :
  ignores_search_state cls ->
  (0 < fuel)%nat ->
  update_safe_set cls fuel accuracy interval (self, h)
    = (Ok tt, (self1, h1)) ->
  exists h2,
    update_safe_set cls fuel accuracy interval (self1, h1)
      = (Ok tt, (self1, h2)) /\
    (is_Some interval -> h2 = h1).
Proof.
  intros Hign Hfuel Hrun.
  apply update_safe_set_post in Hrun as (vdn & c & Hsc & Hmsl & ->).
  destruct (msl_again _ _ _ _ _ _ _ Hfuel Hmsl) as (h2 & Hmsl2 & Hsame).
  exists h2. split; [| done].
  unfold update_safe_set.
  rewrite (safety_constraint_ignores cls self vdn c _ _ true Hign).
  cbn [policy set_safe_set set_cmax set_v_dot_negative]. rewrite Hsc.
  match goal with
  | |- context [max_safe_levelset fuel ?s accuracy interval h1] =>
      rewrite (msl_ext fuel s (set_v_dot_negative vdn self) accuracy
                 interval h1 eq_refl eq_refl)
  end.
  by rewrite Hmsl2.
Qed.

(** X8. [update_safe_set] is idempotent in the two classes of the
    module. In the discrete-time and in the continuous-time class,
    whose [v_decrease_confidence] builds its arrays anew at every call
    and reads none of [v_dot_negative], [cmax] and [safe_set], a second
    call after one that returned returns too and leaves the engine as
    the first left it; with the caller's interval the store is left as
    it is as well. *)
Theorem update_safe_set_idempotent
    cls fuel accuracy interval self (h h1 : heap) self1 :
  (exists lf lv, cls = LyapunovDiscrete.class lf lv) \/
  (exists lipschitz gradient,
     cls = LyapunovContinuous.class lipschitz gradient) ->
  (0 < fuel)%nat ->
  update_safe_set cls fuel accuracy interval (self, h)
    = (Ok tt, (self1, h1)) ->
  exists h2,
    update_safe_set cls fuel accuracy interval (self1, h1)
      = (Ok tt, (self1, h2)) /\
    (is_Some interval -> h2 = h1).
Proof.
  intros [(lf & lv & ->) | (lipschitz & gradient & ->)].
  - apply update_twice, discrete_ignores_search_state.
  - apply update_twice, continuous_ignores_search_state.
Qed.

(** ** The engine after any call *)

(** X9. However [update_safe_set] ends, it leaves the grid, the policy,
    the initial safe set, [epsilon] and [V] as they were. When it does
    not return, [cmax] and [safe_set] are those of before the call; so
    [safe_set = {V <= cmax}], true after every call that returns, is kept
    by a call that fails. *)
Theorem update_safe_set_keeps_level_set
    cls fuel accuracy interval self (h : heap) :
  let r := update_safe_set cls fuel accuracy interval (self, h) in
  let self' := fst (snd r) in
  (V self' = V self /\
   discretization self' = discretization self /\
   policy self' = policy self /\
   initial_safe_set self' = initial_safe_set self /\
   epsilon self' = epsilon self) /\
  (fst r <> Ok tt ->
   cmax self' = cmax self /\ safe_set self' = safe_set self) /\
  (fst r = Ok tt -> consistent self') /\
  (consistent self -> consistent self').
Proof.
  unfold update_safe_set, consistent.
  destruct (safety_constraint cls self (policy self) true) as [vdn | e |];
    [| simpl; by repeat split | simpl; by repeat split].
  destruct (max_safe_levelset fuel (set_v_dot_negative vdn self) accuracy
              interval h) as [[c | e |] h']; simpl; by repeat split.
Qed.

(** X10. With an initial safe set that holds every point of a non-empty
    grid, a safety constraint that returns one entry per point, a
    non-negative accuracy and the default interval, [update_safe_set]
    returns, whatever the decrease bounds and the fuel: [v_dot_negative]
    and [safe_set] are true everywhere and [cmax] is [max(V)]. *)
Theorem update_safe_set_initial_everywhere
    cls fuel accuracy self (h : heap) init r :
  initial_safe_set self = Some init ->
  length init = length (V self) ->
  (forall b, b ∈ init -> b = true) ->
  V self <> [] ->
  0 <= accuracy ->
  safety_constraint cls self (policy self) true = Ok (Arr r) ->
  length r = length (V self) ->
  exists m self' (h' : heap),
    update_safe_set cls fuel accuracy None (self, h)
      = (Ok tt, (self', h')) /\
    np_max (V self) = Ok m /\ cmax self' = m /\
    v_dot_negative self' = Arr r /\
    (forall b, b ∈ r -> b = true) /\
    length (safe_set self') = length (V self) /\
    (forall b, b ∈ safe_set self' -> b = true).
Proof.
  intros Hinit Hlen Hall Hne Hacc Hsc Hr.
  assert (Hrall : forall b, b ∈ r -> b = true).
  { intros b Hb. apply list_elem_of_lookup_1 in Hb as (i & Hi).
    pose proof (lookup_lt_Some _ _ _ Hi) as Hlt.
    destruct (lookup_lt_is_Some_2 init i) as [b' Hb']; [lia |].
    pose proof (Hall b' (list_elem_of_lookup_2 _ _ _ Hb')) as ->.
    pose proof (safety_constraint_initial cls self (policy self) init r
                  Hsc Hinit i Hlt Hb'). congruence. }
  destruct (np_max_nonempty _ Hne) as [m Hm].
  set (self1 := set_v_dot_negative (Arr r) self).
  assert (Hlevel :
    fst (max_safe_levelset fuel self1 accuracy None h) = Ok m).
  { rewrite (msl_level fuel self1 accuracy None h 0 (m + accuracy));
      [| simpl; by rewrite Hm].
    apply search_level_all_safe; [| done | done].
    by apply (all_safe_everywhere self1 r). }
  destruct (max_safe_levelset fuel self1 accuracy None h)
    as [o h'] eqn:Hmsl. simpl in Hlevel. subst o.
  exists m, (set_safe_set (map (fun v => Qle_bool v m) (V self))
               (set_cmax m self1)), h'.
  split.
  { unfold update_safe_set. rewrite Hsc. fold self1. by rewrite Hmsl. }
  split; [done |]. split; [done |]. split; [done |]. split; [done |].
  simpl. split; [by rewrite length_map |].
  intros b Hb. apply list_elem_of_fmap in Hb as (v & -> & Hv).
  apply Qle_bool_iff. by apply (np_max_spec _ _ Hm).
Qed.

(** ** Signs through broadcasting *)

Lemma Forall_zip_with_op {A B C} (op : A -> B -> C)
    (P : A -> Prop) (Q : B -> Prop) (R : C -> Prop) xs ys :
  (forall a b, P a -> Q b -> R (op a b)) ->
  Forall P xs -> Forall Q ys -> Forall R (zip_with op xs ys).
Proof.
  intros Hop Hxs. revert ys.
  induction Hxs as [| x xs Hx Hxs IH]; intros ys Hys; [constructor |].
  destruct Hys as [| y ys Hy Hys]; [constructor |].
  simpl. constructor; auto.
Qed.

Lemma Forall_map_op {A C} (g : A -> C) (P : A -> Prop) (R : C -> Prop) xs :
  (forall a, P a -> R (g a)) -> Forall P xs -> Forall R (map g xs).
Proof.
  intros Hg Hxs. induction Hxs; simpl; constructor; auto.
Qed.

Lemma broadcast_list_all {A B C} (op : A -> B -> C)
    (P : A -> Prop) (Q : B -> Prop) (R : C -> Prop) xs ys rs :
  (forall a b, P a -> Q b -> R (op a b)) ->
  Forall P xs -> Forall Q ys ->
  broadcast_list op xs ys = Ok rs -> Forall R rs.
Proof.
  intros Hop Hxs Hys. unfold broadcast_list.
  destruct (length xs =? length ys)%nat.
  - intros [= <-]. by apply (Forall_zip_with_op op P Q R).
  - destruct xs as [| a [| a' xs]].
    + destruct ys as [| b [| b' ys]]; try discriminate.
      intros [= <-]. constructor.
    + intros [= <-]. apply Forall_inv in Hxs.
      apply (Forall_map_op _ Q R); auto.
    + destruct ys as [| b [| b' ys]]; try discriminate.
      intros [= <-]. apply Forall_inv in Hys.
      apply (Forall_map_op (fun a0 => op a0 b) P R (a :: a' :: xs)); auto.
Qed.

Lemma broadcast2_all {A B C} (op : A -> B -> C)
    (P : A -> Prop) (Q : B -> Prop) (R : C -> Prop) x y r :
  (forall a b, P a -> Q b -> R (op a b)) ->
  nd_all P x -> nd_all Q y ->
  broadcast2 op x y = Ok r -> nd_all R r.
Proof.
  intros Hop Hx Hy. destruct x as [a | xs], y as [b | ys]; simpl in *.
  - intros [= <-]. simpl. auto.
  - intros [= <-]. simpl. apply (Forall_map_op _ Q R); auto.
  - intros [= <-]. simpl. apply (Forall_map_op _ P R); auto.
  - intros Hr.
    assert (Hl : broadcast_list op xs ys
                 = match r with Arr rs => Ok rs | Scalar _ => Ok [] end
                 /\ exists rs, r = Arr rs).
    { unfold broadcast_list.
      destruct (length xs =? length ys)%nat;
        [injection Hr as <-; eauto |].
      destruct xs as [| a [| a' xs]]; destruct ys as [| b [| b' ys]];
        try discriminate; injection Hr as <-; eauto. }
    destruct Hl as (Hl & rs & ->). simpl.
    by apply (broadcast_list_all op P Q R xs ys).
Qed.

Lemma nd_map_all {A C} (g : A -> C) (P : A -> Prop) (R : C -> Prop) x :
  (forall a, P a -> R (g a)) -> nd_all P x -> nd_all R (nd_map g x).
Proof.
  intros Hg. destruct x as [a | xs]; simpl; [auto |].
  by apply Forall_map_op.
Qed.

Lemma continuous_threshold_nonpositive lipschitz self thr :
  nd_all (fun q => 0 <= q) lipschitz ->
  0 <= epsilon self ->
  LyapunovContinuous.threshold lipschitz self = Ok thr ->
  nd_all (fun t => t <= 0) thr.
Proof.
  intros Hl Heps. unfold LyapunovContinuous.threshold.
  apply (broadcast2_all Qmult (fun q => q <= 0) (fun q => 0 <= q)
           (fun q => q <= 0)); [| | done].
  - intros a b Ha Hb. nra.
  - apply (nd_map_all Qopp (fun q => 0 <= q)); [| done].
    intros a Ha. lra.
Qed.

(** ** X11: the sign of the thresholds *)

Lemma discrete_threshold_nonpositive lf lv self thr :
  nd_all (fun q => 0 <= q) lv ->
  nd_all (fun q => 0 <= q) lf ->
  0 <= epsilon self ->
  LyapunovDiscrete.threshold lf lv self = Ok thr ->
  nd_all (fun t => t <= 0) thr.
Proof.
  intros Hlv Hlf Heps. unfold LyapunovDiscrete.threshold.
  destruct (broadcast2 Qplus (Scalar 1) lf) as [one_lf | e |] eqn:H1;
    try discriminate.
  cbn [obind].
  destruct (broadcast2 Qmult (nd_map Qopp lv) one_lf) as [p | e |] eqn:H2;
    try discriminate.
  cbn [obind]. intros H3.
  assert (Hone : nd_all (fun q => 0 <= q) one_lf).
  { apply (broadcast2_all Qplus (fun q => 0 <= q) (fun q => 0 <= q)
             (fun q => 0 <= q) (Scalar 1) lf); [| | done | done].
    - intros a b Ha Hb. lra.
    - simpl. lra. }
  assert (Hp : nd_all (fun q => q <= 0) p).
  { apply (broadcast2_all Qmult (fun q => q <= 0) (fun q => 0 <= q)
             (fun q => q <= 0) (nd_map Qopp lv) one_lf); [| | done | done].
    - intros a b Ha Hb. nra.
    - apply (nd_map_all Qopp (fun q => 0 <= q)); [| done].
      intros a Ha. lra. }
  apply (broadcast2_all Qmult (fun q => q <= 0) (fun q => 0 <= q)
           (fun q => q <= 0) p (Scalar (epsilon self))); [| done | done | done].
  intros a b Ha Hb. nra.
Qed.

Lemma nd_all_at {A} (P : A -> Prop) (y : nd A) i t :
  nd_all P y -> nd_at y i = Some t -> P t.
Proof.
  destruct y as [b | ys]; simpl.
  - by intros H [= <-].
  - intros H Hi. by apply (proj1 (Forall_lookup P ys) H i t).
Qed.

(** X11. With Lipschitz constants and an [epsilon] that are not
    negative, the threshold of the discrete-time class and that of the
    continuous-time class have no positive entry; and under a threshold
    without positive entry, the numeric test of [safety_constraint]
    (without the initial safe set) marks no point whose decrease bound is
    zero or more. *)
Theorem nonnegative_bound_never_marked :
  (forall lf lv self thr,
     nd_all (fun q => 0 <= q) lv ->
     nd_all (fun q => 0 <= q) lf ->
     0 <= epsilon self ->
     LyapunovDiscrete.threshold lf lv self = Ok thr ->
     nd_all (fun t => t <= 0) thr) /\
  (forall lipschitz self thr,
     nd_all (fun q => 0 <= q) lipschitz ->
     0 <= epsilon self ->
     LyapunovContinuous.threshold lipschitz self = Ok thr ->
     nd_all (fun t => t <= 0) thr) /\
  (forall cls self policy b thr r,
     v_decrease_bound cls self (discretization self)
       (dynamics self (discretization self) policy) = Ok (Arr b) ->
     threshold cls self = Ok thr ->
     nd_all (fun t => t <= 0) thr ->
     fits thr (length b) ->
     safety_constraint cls self policy false = Ok (Arr r) ->
     forall i x, b !! i = Some x -> 0 <= x -> r !! i = Some false).
Proof.
  split; [apply discrete_threshold_nonpositive |].
  split; [apply continuous_threshold_nonpositive |].
  - intros cls self policy b thr r Hb Hthr Hneg Hfit.
    unfold safety_constraint. rewrite Hb. cbn [obind].
    rewrite Hthr. cbn [obind].
    destruct (broadcast2_arr Qlt_bool b thr Hfit) as (cmp & -> & _ & Hcmp).
    cbn [obind]. intros [= <-] i x Hx Hpos.
    destruct (Hcmp i x Hx) as (t & Ht & ->). f_equal.
    apply Qlt_bool_false.
    pose proof (nd_all_at _ thr i t Hneg Ht) as Hle. simpl in Hle. lra.
Qed.

(** ** X12: the Lipschitz constant of the continuous-time class *)

(** X12.  [LyapunovContinuous.lipschitz_constant] of four non-negative
    arguments, floats or arrays, is non-negative wherever the arrays
    combine, and the threshold of a continuous-time engine built with it
    and a non-negative [epsilon] is nowhere positive. *)
Theorem lipschitz_constant_nonnegative
    dynamics_bound lipschitz_dynamics lipschitz_lyapunov
    lipschitz_lyapunov_derivative l :
  nd_all (fun q => 0 <= q) dynamics_bound ->
  nd_all (fun q => 0 <= q) lipschitz_dynamics ->
  nd_all (fun q => 0 <= q) lipschitz_lyapunov ->
  nd_all (fun q => 0 <= q) lipschitz_lyapunov_derivative ->
  LyapunovContinuous.lipschitz_constant dynamics_bound lipschitz_dynamics
    lipschitz_lyapunov lipschitz_lyapunov_derivative = Ok l ->
  nd_all (fun q => 0 <= q) l /\
  forall self thr,
    0 <= epsilon self ->
    LyapunovContinuous.threshold l self = Ok thr ->
    nd_all (fun t => t <= 0) thr.
Proof.
  intros Hb Hf Hv Hd. unfold LyapunovContinuous.lipschitz_constant.
  destruct (broadcast2 Qmult dynamics_bound lipschitz_lyapunov_derivative)
    as [x | |] eqn:Hx; try discriminate.
  destruct (broadcast2 Qmult lipschitz_lyapunov lipschitz_dynamics)
    as [y | |] eqn:Hy; try discriminate.
  cbn [obind]. intros Hl.
  assert (Hpos : forall a b : Q, 0 <= a -> 0 <= b -> 0 <= a * b)
    by (intros a b Ha Hb'; nra).
  pose proof (broadcast2_all Qmult _ _ (fun q => 0 <= q) _ _ _
                Hpos Hb Hd Hx) as Hx'.
  pose proof (broadcast2_all Qmult _ _ (fun q => 0 <= q) _ _ _
                Hpos Hv Hf Hy) as Hy'.
  assert (Hl' : nd_all (fun q => 0 <= q) l).
  { apply (broadcast2_all Qplus (fun q => 0 <= q) (fun q => 0 <= q)
             (fun q => 0 <= q) x y); [| done | done | done].
    intros a b Ha Hb'. lra. }
  split; [done |].
  intros self thr. by apply continuous_threshold_nonpositive.
Qed.

(** ** X13: error bounds only raise the decrease bound *)

Lemma broadcast2_arr_arr {A B C} (op : A -> B -> C) xs ys r :
  broadcast2 op (Arr xs) (Arr ys) = Ok r ->
  exists rs, r = Arr rs /\ broadcast_list op xs ys = Ok rs.
Proof.
  simpl. unfold broadcast_list.
  destruct (length xs =? length ys)%nat; [intros [= <-]; eauto |].
  destruct xs as [| a [| a' xs]]; destruct ys as [| b [| b' ys]];
    try discriminate; intros [= <-]; eauto.
Qed.

Lemma sum_nonneg (row : list Q) :
  Forall (fun q => 0 <= q) row -> 0 <= fold_right Qplus 0 row.
Proof. induction 1; simpl; lra. Qed.

Lemma inplace2_add_ge xs y rs :
  inplace2 Qplus (Arr xs) y = Ok (Arr rs) ->
  nd_all (fun q => 0 <= q) y ->
  length rs = length xs /\
  forall i x r, xs !! i = Some x -> rs !! i = Some r -> x <= r.
Proof.
  assert (Hmap : forall b, 0 <= b ->
    length (map (fun a => a + b) xs) = length xs /\
    forall i x r, xs !! i = Some x ->
      map (fun a => a + b) xs !! i = Some r -> x <= r).
  { intros b Hb. split; [by rewrite length_map |].
    intros i x r Hx.
    change (map (fun a => a + b) xs) with ((fun a => a + b) <$> xs).
    rewrite list_lookup_fmap, Hx. simpl. intros [= <-]. lra. }
  destruct y as [b | ys]; simpl.
  - intros [= <-] Hb. by apply Hmap.
  - intros Hr Hys. destruct (length xs =? length ys)%nat eqn:Hlen.
    + injection Hr as <-. apply Nat.eqb_eq in Hlen.
      split; [rewrite length_zip_with; lia |].
      intros i x r Hx Hri.
      apply lookup_zip_with_Some in Hri as (x' & y' & -> & Hx' & Hy').
      assert (x' = x) by congruence. subst x'.
      pose proof (proj1 (Forall_lookup _ ys) Hys i y' Hy') as Hy.
      simpl in Hy. lra.
    + destruct ys as [| b [| b' ys]]; try discriminate.
      injection Hr as <-. apply Hmap. by apply Forall_inv in Hys.
Qed.

Lemma discrete_bound_parts lf lv self states ns b :
  v_decrease_bound (LyapunovDiscrete.class lf lv) self states ns
    = Ok b ->
  exists vn vs mean err,
    col0 (lyapunov_function self (mean_part ns)) = Ok vn /\
    col0 (lyapunov_function self states) = Ok vs /\
    broadcast_list Qminus vn vs = Ok mean /\
    match ns with
    | NdArray _ => err = Scalar 0
    | Pair _ e => broadcast2 Qmult lv (Arr (sum_axis1 e)) = Ok err
    end /\
    inplace2 Qplus (Arr mean) err = Ok b.
Proof.
  unfold v_decrease_bound. cbn [v_decrease_confidence LyapunovDiscrete.class].
  unfold LyapunovDiscrete.v_decrease_confidence.
  destruct ns as [m | m e]; cbn [obind mean_part].
  - destruct (col0 (lyapunov_function self m)) as [vn | ? |];
      try discriminate. cbn [obind].
    destruct (col0 (lyapunov_function self states)) as [vs | ? |];
      try discriminate. cbn [obind].
    destruct (broadcast2 Qminus (Arr vn) (Arr vs)) as [d | ? |] eqn:Hd;
      try discriminate. cbn [obind].
    apply broadcast2_arr_arr in Hd as (mean & -> & Hmean).
    intros Hb. by exists vn, vs, mean, (Scalar 0).
  - destruct (broadcast2 Qmult lv (Arr (sum_axis1 e))) as [err | ? |]
      eqn:Herr; try discriminate. cbn [obind].
    destruct (col0 (lyapunov_function self m)) as [vn | ? |];
      try discriminate. cbn [obind].
    destruct (col0 (lyapunov_function self states)) as [vs | ? |];
      try discriminate. cbn [obind].
    destruct (broadcast2 Qminus (Arr vn) (Arr vs)) as [d | ? |] eqn:Hd;
      try discriminate. cbn [obind].
    apply broadcast2_arr_arr in Hd as (mean & -> & Hmean).
    intros Hb. by exists vn, vs, mean, err.
Qed.

Lemma discrete_bound_conservative lf lv self states m e b0 b1 :
  nd_all (fun q => 0 <= q) lv ->
  Forall (Forall (fun q => 0 <= q)) e ->
  v_decrease_bound (LyapunovDiscrete.class lf lv) self states (NdArray m)
    = Ok (Arr b0) ->
  v_decrease_bound (LyapunovDiscrete.class lf lv) self states (Pair m e)
    = Ok (Arr b1) ->
  Forall2 Qle b0 b1.
Proof.
  intros Hlv He H0 H1.
  apply discrete_bound_parts in H0
    as (vn & vs & mean & err0 & Hvn & Hvs & Hmean & -> & Hb0).
  apply discrete_bound_parts in H1
    as (vn' & vs' & mean' & err & Hvn' & Hvs' & Hmean' & Herr & Hb1).
  simpl in Hvn, Hvn'.
  assert (vn' = vn) by congruence. assert (vs' = vs) by congruence.
  subst vn' vs'. assert (mean' = mean) by congruence. subst mean'.
  assert (Herrpos : nd_all (fun q => 0 <= q) err).
  { apply (broadcast2_all Qmult (fun q => 0 <= q) (fun q => 0 <= q)
             (fun q => 0 <= q) lv (Arr (sum_axis1 e))); [| done | | done].
    - intros a b Ha Hb. nra.
    - simpl. unfold sum_axis1.
      apply (Forall_map_op _ (Forall (fun q => 0 <= q))); [| done].
      apply sum_nonneg. }
  destruct (inplace2_add_ge mean err b1 Hb1 Herrpos) as (Hl1 & Hge).
  simpl in Hb0. injection Hb0 as <-.
  apply Forall2_same_length_lookup. split; [rewrite length_map; lia |].
  intros i x0 x1 Hx0 Hx1.
  change (map (fun a => a + 0) mean) with ((fun a => a + 0) <$> mean)
    in Hx0.
  rewrite list_lookup_fmap in Hx0.
  destruct (mean !! i) as [x |] eqn:Hx; [| discriminate].
  injection Hx0 as <-. specialize (Hge i x x1 Hx Hx1). lra.
Qed.

Lemma Forall2_zip_with_l {A B C} (op : A -> B -> C)
    (RA : A -> A -> Prop) (RC : C -> C -> Prop) xs xs' ys :
  (forall a a' b, RA a a' -> RC (op a b) (op a' b)) ->
  Forall2 RA xs xs' ->
  Forall2 RC (zip_with op xs ys) (zip_with op xs' ys).
Proof.
  intros Hop Hxs. revert ys.
  induction Hxs as [| a a' xs xs' Ha Hxs IH]; intros [| b ys]; simpl;
    constructor; auto.
Qed.

Lemma Forall2_map_l {A C} (g : A -> C)
    (RA : A -> A -> Prop) (RC : C -> C -> Prop) xs xs' :
  (forall a a', RA a a' -> RC (g a) (g a')) ->
  Forall2 RA xs xs' -> Forall2 RC (map g xs) (map g xs').
Proof. intros Hg Hxs. induction Hxs; simpl; constructor; auto. Qed.

Lemma Forall2_map_same {B C} (g g' : B -> C) (RC : C -> C -> Prop) ys :
  (forall b, RC (g b) (g' b)) -> Forall2 RC (map g ys) (map g' ys).
Proof. intros Hg. induction ys; simpl; constructor; auto. Qed.

Lemma broadcast2_rel {A B C} (op : A -> B -> C)
    (RA : A -> A -> Prop) (RC : C -> C -> Prop) x x' y r r' :
  (forall a a' b, RA a a' -> RC (op a b) (op a' b)) ->
  nd_rel RA x x' ->
  broadcast2 op x y = Ok r -> broadcast2 op x' y = Ok r' ->
  nd_rel RC r r'.
Proof.
  intros Hop Hx.
  destruct x as [a | xs], x' as [a' | xs']; simpl in Hx; try done.
  - destruct y as [b | ys]; simpl; intros [= <-] [= <-]; simpl; [auto |].
    apply Forall2_map_same. auto.
  - pose proof (Forall2_length _ _ _ Hx) as Hlen.
    destruct y as [b | ys]; simpl.
    + intros [= <-] [= <-]. simpl.
      apply (Forall2_map_l (fun a => op a b) RA RC); auto.
    + rewrite <- Hlen.
      destruct (length xs =? length ys)%nat.
      * intros [= <-] [= <-]. simpl. by apply (Forall2_zip_with_l op RA RC).
      * destruct Hx as [| a a' xs xs' Ha Hx].
        { destruct ys as [| b [| b' ys]]; try discriminate.
          intros [= <-] [= <-]. simpl. constructor. }
        destruct Hx as [| a2 a2' xs xs' Ha2 Hx].
        { intros [= <-] [= <-]. simpl. apply Forall2_map_same. auto. }
        destruct ys as [| b [| b' ys]]; try discriminate.
        intros [= <-] [= <-]. simpl.
        constructor; [auto |]. constructor; [auto |].
        apply (Forall2_map_l (fun a => op a b) RA RC); auto.
Qed.

Lemma inplace2_rel {A B} (op : A -> B -> A)
    (RA : A -> A -> Prop) x x' y r r' :
  (forall a a' b, RA a a' -> RA (op a b) (op a' b)) ->
  nd_rel RA x x' ->
  inplace2 op x y = Ok r -> inplace2 op x' y = Ok r' ->
  nd_rel RA r r'.
Proof.
  intros Hop Hx.
  destruct x as [a | xs], x' as [a' | xs']; simpl in Hx; try done.
  - apply (broadcast2_rel op RA RA (Scalar a) (Scalar a')); auto.
  - destruct y as [b | ys].
    + apply (broadcast2_rel op RA RA (Arr xs) (Arr xs')); auto.
    + pose proof (Forall2_length _ _ _ Hx) as Hlen. simpl.
      rewrite <- Hlen. destruct (length xs =? length ys)%nat.
      * intros [= <-] [= <-]. simpl. by apply (Forall2_zip_with_l op RA RA).
      * destruct ys as [| b [| b' ys]]; try discriminate.
        intros [= <-] [= <-]. simpl.
        apply (Forall2_map_l (fun a => op a b) RA RA); auto.
Qed.

Lemma inplace2_arr_shape {A B} (op : A -> B -> A) xs (y : nd B) r :
  inplace2 op (Arr xs) y = Ok r -> exists rs, r = Arr rs.
Proof.
  destruct y as [b | ys]; simpl; [intros [= <-]; eauto |].
  destruct (length xs =? length ys)%nat; [intros [= <-]; eauto |].
  destruct ys as [| b [| b' ys]]; try discriminate. intros [= <-]; eauto.
Qed.

(** X13. Error bounds only raise the decrease bound. In the discrete-time
    class with a Lipschitz constant and error bounds that are not
    negative, the decrease bound of a prediction with error bounds is, at
    each point, at least that of the same prediction without; so
    [safety_constraint] marks with the error bounds no point that it
    does not mark without them. *)
Theorem error_bounds_conservative lf lv self policy m e :
  nd_all (fun q => 0 <= q) lv ->
  Forall (Forall (fun q => 0 <= q)) e ->
  dynamics self (discretization self) policy = NdArray m ->
  let cls := LyapunovDiscrete.class lf lv in
  let self' := set_dynamics (fun _ _ => Pair m e) self in
  (forall b0 b1,
     v_decrease_bound cls self (discretization self) (NdArray m)
       = Ok (Arr b0) ->
     v_decrease_bound cls self' (discretization self') (Pair m e)
       = Ok (Arr b1) ->
     Forall2 Qle b0 b1) /\
  (forall include_initial r0 r1,
     safety_constraint cls self policy include_initial = Ok (Arr r0) ->
     safety_constraint cls self' policy include_initial = Ok (Arr r1) ->
     Forall2 (fun x1 x0 : bool => x1 = true -> x0 = true) r1 r0).
Proof.
  intros Hlv He Hdyn cls self'. split.
  - intros b0 b1 H0 H1.
    apply (discrete_bound_conservative lf lv self (discretization self)
             m e); [done | done | exact H0 | exact H1].
  - intros include_initial r0 r1. unfold safety_constraint.
    rewrite Hdyn.
    change (dynamics self' (discretization self') policy) with (Pair m e).
    change (discretization self') with (discretization self).
    change (threshold cls self') with (threshold cls self).
    change (initial_safe_set self') with (initial_safe_set self).
    change (v_decrease_bound cls self' (discretization self) (Pair m e))
      with (v_decrease_bound cls self (discretization self) (Pair m e)).
    destruct (v_decrease_bound cls self (discretization self) (NdArray m))
      as [b0 | ? |] eqn:H0; try discriminate.
    destruct (v_decrease_bound cls self (discretization self) (Pair m e))
      as [b1 | ? |] eqn:H1; try discriminate.
    cbn [obind].
    destruct (threshold cls self) as [thr | ? |]; try discriminate.
    cbn [obind].
    destruct (broadcast2 Qlt_bool b0 thr) as [c0 | ? |] eqn:Hc0;
      try discriminate.
    destruct (broadcast2 Qlt_bool b1 thr) as [c1 | ? |] eqn:Hc1;
      try discriminate.
    cbn [obind].
    assert (Hb : nd_rel (fun x1 x0 => x0 <= x1) b1 b0).
    { destruct (discrete_bound_parts _ _ _ _ _ _ H0)
        as (? & ? & mean0 & err0 & _ & _ & _ & _ & Hs0).
      destruct (discrete_bound_parts _ _ _ _ _ _ H1)
        as (? & ? & mean1 & err1 & _ & _ & _ & _ & Hs1).
      apply inplace2_arr_shape in Hs0 as [l0 ->].
      apply inplace2_arr_shape in Hs1 as [l1 ->].
      simpl. apply Forall2_flip.
      by apply (discrete_bound_conservative lf lv self
                  (discretization self) m e). }
    assert (Hc : nd_rel (fun x1 x0 : bool => x1 = true -> x0 = true) c1 c0).
    { apply (broadcast2_rel Qlt_bool (fun x1 x0 => x0 <= x1) _ b1 b0 thr);
        [| done | done | done].
      intros a a' t Hle Hlt. apply Qlt_bool_true in Hlt.
      apply Qlt_bool_true. lra. }
    assert (Hor : forall a a' b : bool,
      (a = true -> a' = true) -> a || b = true -> a' || b = true).
    { intros a a' b H Hab. destruct b; [by rewrite orb_true_r |].
      rewrite orb_false_r in *. auto. }
    destruct include_initial; [destruct (initial_safe_set self) as [init |]|].
    + intros Hr0 Hr1.
      apply (inplace2_rel orb _ c1 c0 (Arr init) (Arr r1) (Arr r0));
        [exact Hor | done | done | done].
    + by intros [= ->] [= ->].
    + by intros [= ->] [= ->].
Qed.

(** ** X15: error bounds in the continuous-time class *)

Lemma omap_list_all {A B} (g : A -> outcome B)
    (P : A -> Prop) (R : B -> Prop) (l : list A) rs :
  (forall a b, P a -> g a = Ok b -> R b) ->
  Forall P l -> omap_list g l = Ok rs -> Forall R rs.
Proof.
  intros Hg Hl. revert rs.
  induction Hl as [| a l Ha Hl IH]; intros rs; simpl.
  - intros [= <-]. constructor.
  - destruct (g a) as [r | ? |] eqn:Hr; try discriminate. cbn [obind].
    destruct (omap_list g l) as [rs' | ? |]; try discriminate.
    cbn [obind]. intros [= <-]. constructor; [by apply (Hg a) | by apply IH].
Qed.

Lemma broadcast_matrix_all {A B C} (op : A -> B -> C)
    (P : A -> Prop) (Q : B -> Prop) (R : C -> Prop) a b p :
  (forall x y, P x -> Q y -> R (op x y)) ->
  Forall (Forall P) a -> Forall (Forall Q) b ->
  broadcast_matrix op a b = Ok p -> Forall (Forall R) p.
Proof.
  intros Hop Ha Hb. unfold broadcast_matrix.
  destruct (broadcast_list pair a b) as [rows | ? |] eqn:Hrows;
    try discriminate. cbn [obind].
  apply (omap_list_all _
           (fun rs => Forall P (fst rs) /\ Forall Q (snd rs))).
  - intros [ra rb] rp [Hra Hrb].
    by apply (broadcast_list_all op P Q R).
  - by apply (broadcast_list_all pair (Forall P) (Forall Q) _ a b).
Qed.

Lemma abs_rows_nonneg (dV : matrix) :
  Forall (Forall (fun q => 0 <= q)) (map (map Qabs) dV).
Proof.
  induction dV as [| row dV IH]; simpl; constructor; [| done].
  induction row as [| x row IHrow]; simpl; constructor; [| done].
  apply Qabs_nonneg.
Qed.

Lemma continuous_bound_parts lipschitz gradient self states ns b :
  v_decrease_bound (LyapunovContinuous.class lipschitz gradient) self
    states ns = Ok b ->
  exists p err,
    broadcast_matrix Qmult (gradient states) (mean_part ns) = Ok p /\
    match ns with
    | NdArray _ => err = Scalar 0
    | Pair _ e =>
        exists q,
          broadcast_matrix Qmult (map (map Qabs) (gradient states)) e
            = Ok q /\
          err = Arr (sum_axis1 q)
    end /\
    inplace2 Qplus (Arr (sum_axis1 p)) err = Ok b.
Proof.
  unfold v_decrease_bound.
  cbn [v_decrease_confidence LyapunovContinuous.class].
  unfold LyapunovContinuous.v_decrease_confidence. cbv zeta.
  destruct ns as [m | m e]; cbn [obind mean_part].
  - destruct (broadcast_matrix Qmult (gradient states) m) as [p | ? |];
      try discriminate. cbn [obind].
    intros Hb. by exists p, (Scalar 0).
  - destruct (broadcast_matrix Qmult (map (map Qabs) (gradient states)) e)
      as [q | ? |]; try discriminate. cbn [obind].
    destruct (broadcast_matrix Qmult (gradient states) m) as [p | ? |];
      try discriminate. cbn [obind].
    intros Hb. exists p, (Arr (sum_axis1 q)). eauto.
Qed.

Lemma continuous_error_nonneg (dV e q : matrix) :
  Forall (Forall (fun x => 0 <= x)) e ->
  broadcast_matrix Qmult (map (map Qabs) dV) e = Ok q ->
  Forall (fun x => 0 <= x) (sum_axis1 q).
Proof.
  intros He Hq. unfold sum_axis1.
  apply (Forall_map_op _ (Forall (fun x => 0 <= x))); [apply sum_nonneg |].
  apply (broadcast_matrix_all Qmult (fun x => 0 <= x) (fun x => 0 <= x)
           (fun x => 0 <= x) (map (map Qabs) dV) e);
    [| apply abs_rows_nonneg | done | done].
  intros x y Hx Hy. nra.
Qed.

Lemma continuous_bound_conservative
    lipschitz gradient self states m e b0 b1 :
  Forall (Forall (fun q => 0 <= q)) e ->
  v_decrease_bound (LyapunovContinuous.class lipschitz gradient) self
    states (NdArray m) = Ok (Arr b0) ->
  v_decrease_bound (LyapunovContinuous.class lipschitz gradient) self
    states (Pair m e) = Ok (Arr b1) ->
  Forall2 Qle b0 b1.
Proof.
  intros He H0 H1.
  apply continuous_bound_parts in H0 as (p & err0 & Hp & -> & Hb0).
  apply continuous_bound_parts in H1
    as (p' & err & Hp' & (q & Hq & ->) & Hb1).
  simpl in Hp, Hp'. assert (p' = p) by congruence. subst p'.
  destruct (inplace2_add_ge (sum_axis1 p) (Arr (sum_axis1 q)) b1 Hb1)
    as (Hl1 & Hge); [by apply (continuous_error_nonneg (gradient states) e) |].
  simpl in Hb0. injection Hb0 as <-.
  apply Forall2_same_length_lookup. split; [rewrite length_map; lia |].
  intros i x0 x1 Hx0 Hx1.
  change (map (fun a => a + 0) (sum_axis1 p))
    with ((fun a => a + 0) <$> sum_axis1 p) in Hx0.
  rewrite list_lookup_fmap in Hx0.
  destruct (sum_axis1 p !! i) as [x |] eqn:Hx; [| discriminate].
  injection Hx0 as <-. specialize (Hge i x x1 Hx Hx1). lra.
Qed.

(** A larger decrease bound marks fewer points. *)
Lemma safety_constraint_fewer cls self self' policy include_initial
    b0 b1 r0 r1 :
  threshold cls self' = threshold cls self ->
  initial_safe_set self' = initial_safe_set self ->
  v_decrease_bound cls self (discretization self)
    (dynamics self (discretization self) policy) = Ok b0 ->
  v_decrease_bound cls self' (discretization self')
    (dynamics self' (discretization self') policy) = Ok b1 ->
  nd_rel (fun x1 x0 => x0 <= x1) b1 b0 ->
  safety_constraint cls self policy include_initial = Ok (Arr r0) ->
  safety_constraint cls self' policy include_initial = Ok (Arr r1) ->
  Forall2 (fun x1 x0 : bool => x1 = true -> x0 = true) r1 r0.
Proof.
  intros Hthr Hinit H0 H1 Hb. unfold safety_constraint.
  rewrite H0, H1, Hthr, Hinit. cbn [obind].
  destruct (threshold cls self) as [thr | ? |]; try discriminate.
  cbn [obind].
  destruct (broadcast2 Qlt_bool b0 thr) as [c0 | ? |] eqn:Hc0;
    try discriminate.
  destruct (broadcast2 Qlt_bool b1 thr) as [c1 | ? |] eqn:Hc1;
    try discriminate.
  cbn [obind].
  assert (Hc : nd_rel (fun x1 x0 : bool => x1 = true -> x0 = true) c1 c0).
  { apply (broadcast2_rel Qlt_bool (fun x1 x0 => x0 <= x1) _ b1 b0 thr);
      [| done | done | done].
    intros a a' t Hle Hlt. apply Qlt_bool_true in Hlt.
    apply Qlt_bool_true. lra. }
  assert (Hor : forall a a' b : bool,
    (a = true -> a' = true) -> a || b = true -> a' || b = true).
  { intros a a' b H Hab. destruct b; [by rewrite orb_true_r |].
    rewrite orb_false_r in *. auto. }
  destruct include_initial; [destruct (initial_safe_set self) as [init |]|].
  - intros Hr0 Hr1.
    apply (inplace2_rel orb _ c1 c0 (Arr init) (Arr r1) (Arr r0));
      [exact Hor | done | done | done].
  - by intros [= ->] [= ->].
  - by intros [= ->] [= ->].
Qed.

(** X15. Error bounds in the continuous-time class. With error bounds
    that are not negative, [v_decrease_confidence] returns an error that
    is nowhere negative, beside the mean it returns for the same
    prediction without error bounds; and [safety_constraint] marks with
    the error bounds no point that it does not mark without them. *)
Theorem continuous_error_bounds_conservative
    lipschitz gradient self policy m e :
  Forall (Forall (fun q => 0 <= q)) e ->
  dynamics self (discretization self) policy = NdArray m ->
  let cls := LyapunovContinuous.class lipschitz gradient in
  let self' := set_dynamics (fun _ _ => Pair m e) self in
  (forall mean err,
     LyapunovContinuous.v_decrease_confidence gradient self'
       (discretization self') (Pair m e) = Ok (mean, err) ->
     nd_all (fun q => 0 <= q) err /\
     LyapunovContinuous.v_decrease_confidence gradient self
       (discretization self) (NdArray m) = Ok (mean, Scalar 0)) /\
  (forall include_initial r0 r1,
     safety_constraint cls self policy include_initial = Ok (Arr r0) ->
     safety_constraint cls self' policy include_initial = Ok (Arr r1) ->
     Forall2 (fun x1 x0 : bool => x1 = true -> x0 = true) r1 r0).
Proof.
  intros He Hdyn cls self'. split.
  - intros mean err.
    change (discretization self') with (discretization self).
    unfold LyapunovContinuous.v_decrease_confidence. cbv zeta.
    destruct (broadcast_matrix Qmult
                (map (map Qabs) (gradient (discretization self))) e)
      as [q | ? |] eqn:Hq; try discriminate. cbn [obind].
    destruct (broadcast_matrix Qmult (gradient (discretization self)) m)
      as [p | ? |]; try discriminate. cbn [obind].
    intros [= <- <-]. split; [| reflexivity].
    by apply (continuous_error_nonneg (gradient (discretization self)) e).
  - intros include_initial r0 r1 Hr0 Hr1.
    destruct (v_decrease_bound cls self (discretization self)
                (dynamics self (discretization self) policy))
      as [b0 | ? |] eqn:H0;
      [| unfold safety_constraint in Hr0; rewrite H0 in Hr0;
         discriminate ..].
    destruct (v_decrease_bound cls self' (discretization self')
                (dynamics self' (discretization self') policy))
      as [b1 | ? |] eqn:H1;
      [| unfold safety_constraint in Hr1; rewrite H1 in Hr1;
         discriminate ..].
    apply (safety_constraint_fewer cls self self' policy include_initial
             b0 b1); try done.
    rewrite Hdyn in H0.
    change (dynamics self' (discretization self') policy)
      with (Pair m e) in H1.
    destruct (continuous_bound_parts _ _ _ _ _ _ H0)
      as (? & err0 & _ & _ & Hs0).
    destruct (continuous_bound_parts _ _ _ _ _ _ H1)
      as (? & err1 & _ & _ & Hs1).
    apply inplace2_arr_shape in Hs0 as [l0 ->].
    apply inplace2_arr_shape in Hs1 as [l1 ->].
    simpl. apply Forall2_flip.
    by apply (continuous_bound_conservative lipschitz gradient self
                (discretization self) m e).
Qed.

(** ** X16: grids without boundary *)

Lemma boundary_loop_raises fun_ d :
  forall axes m0,
    (forall i, i ∈ axes -> (i < ndim d)%nat) ->
    (exists i, i ∈ axes /\ discrete_points d !! i = Some []) ->
    boundary_loop fun_ d axes m0 = Raise IndexError.
Proof.
  induction axes as [| i axes IH]; intros m0 Hlt (j & Hj & Hempty).
  - inversion Hj.
  - simpl. unfold boundary_points at 1.
    destruct (lookup_lt_is_Some_2 (discrete_points d) i) as [axis Hax].
    { apply Hlt, list_elem_of_here. }
    rewrite Hax. destruct axis as [| x r]; [done |].
    cbn [first_last obind]. apply IH.
    + intros k Hk. by apply Hlt, list_elem_of_further.
    + apply elem_of_cons in Hj as [-> | Hj]; [congruence |].
      by exists j.
Qed.

(** X16. On a grid one axis of which has no sample,
    [smallest_boundary_value] raises [IndexError], wherever the axis is
    and whatever values the function returns; on a grid without axes it
    returns [np.inf]. *)
Theorem smallest_boundary_value_degenerate fun_ d :
  ([] ∈ discrete_points d ->
   smallest_boundary_value fun_ d = Raise IndexError) /\
  (discrete_points d = [] ->
   smallest_boundary_value fun_ d = Ok Infinity).
Proof.
  unfold smallest_boundary_value, ndim. split.
  - intros Hin. apply list_elem_of_lookup_1 in Hin as (i & Hi).
    apply boundary_loop_raises.
    + intros k Hk. by apply elem_of_seq in Hk as [_ Hk].
    + exists i. split; [| done]. apply elem_of_seq.
      pose proof (lookup_lt_Some _ _ _ Hi). simpl. lia.
  - by intros ->.
Qed.

(** * The further properties at concrete objects *)

Lemma line_search_idempotent_witness :
  (let r := line_search_bisection 8 (pure LyapunovTest.objective) 0%nat
              (1 # 4) {[ 0%nat := [0; 1] ]} in
   line_search_bisection 3 (pure LyapunovTest.objective) 0%nat (1 # 4)
     (snd r) = (Ok (Some 0%nat), snd r)) /\
  (let r := max_safe_levelset 8 LyapunovTest.lyap_origin_only (1 # 2)
              (Some 7%nat) MoreTests.store in
   max_safe_levelset 8 LyapunovTest.lyap_origin_only (1 # 2) (Some 7%nat)
     (snd r) = (Ok 0, snd r)).
Proof.
  destruct line_search_idempotent as [Hsearch Hmsl]. split.
  - intros r.
    apply (Hsearch 8%nat _ _ _ {[ 0%nat := [0; 1] ]});
      [vm_compute; reflexivity | lia].
  - intros r.
    apply (Hmsl 8%nat _ _ _ MoreTests.store);
      [lia | vm_compute; reflexivity].
Defined.

Lemma line_search_nonpositive_accuracy_witness :
  fst (line_search_bisection 100 (pure LyapunovTest.objective) 0%nat 0
         {[ 0%nat := [0; 1] ]}) = Diverge.
Proof.
  apply (line_search_nonpositive_accuracy (pure LyapunovTest.objective)
           0%nat 0 {[ 0%nat := [0; 1] ]} 0 1 []);
    try reflexivity; [discriminate |].
  intros x. by exists (LyapunovTest.objective x).
Defined.

Lemma line_search_frame_witness :
  let h' := snd (line_search_bisection 8
                   (_levelset_is_safe LyapunovTest.lyap_origin_only)
                   7%nat (1 # 2) MoreTests.store) in
  h' !! 3%nat = Some [1; 1] /\
  exists xs', h' !! 7%nat = Some xs' /\ length xs' = 3%nat /\
              drop 2 xs' = [9].
Proof.
  intros h'.
  destruct (line_search_frame 8
              (_levelset_is_safe LyapunovTest.lyap_origin_only)
              7%nat (1 # 2) MoreTests.store) as [Hother Hsame].
  split.
  - unfold h'. rewrite (Hother 3%nat); [reflexivity | lia].
  - apply (Hsame [0; 4; 9]). reflexivity.
Defined.

Lemma max_safe_levelset_tight_witness :
  0 ∈ V LyapunovTest.lyap_origin_only /\
  exists lo' hi' u vu,
    hi' - lo' <= 1 # 100 /\
    0 <= lo' /\
    (forall v, v ∈ V LyapunovTest.lyap_origin_only -> v <= lo' -> v <= 0) /\
    V LyapunovTest.lyap_origin_only !! u = Some vu /\
    [true; false; false; false] !! u = Some false /\
    lo' < vu /\ vu <= hi'.
Proof.
  apply (max_safe_levelset_tight 64 LyapunovTest.lyap_origin_only
           (1 # 100) None ∅ 0 (3 + (1 # 100)) [true; false; false; false]);
    reflexivity.
Defined.

Lemma max_safe_levelset_all_safe_witness :
  exists m,
    np_max (V MoreTests.lyap_all_safe) = Ok m /\
    (forall v, v ∈ V MoreTests.lyap_all_safe -> v <= m) /\
    fst (max_safe_levelset 0 MoreTests.lyap_all_safe (1 # 10) None ∅)
      = Ok m.
Proof.
  apply (max_safe_levelset_all_safe 0 MoreTests.lyap_all_safe (1 # 10) ∅
           [true; true; true; true]); try reflexivity; try discriminate.
  intros b Hb.
  repeat (apply elem_of_cons in Hb as [-> | Hb]; [reflexivity |]).
  inversion Hb.
Defined.

Lemma max_safe_levelset_monotone_witness :
  fst (max_safe_levelset 64 LyapunovTest.lyap_origin_only (1 # 10) None ∅)
    = Ok 0 /\
  fst (max_safe_levelset 64 MoreTests.lyap_two_safe (1 # 10) None ∅)
    = Ok 1 /\
  0 <= 1.
Proof.
  split; [reflexivity |]. split; [reflexivity |].
  apply (max_safe_levelset_monotone 64 64 LyapunovTest.lyap_origin_only
           MoreTests.lyap_two_safe (1 # 10) None ∅ 0 (3 + (1 # 10))
           [true; false; false; false] [true; true; false; false] 0 1);
    try reflexivity; try discriminate.
  - intros v Hv.
    repeat (apply elem_of_cons in Hv as [-> | Hv]; [discriminate |]).
    inversion Hv.
  - intros [| [| [| [| i]]]]; simpl; intros H; done.
Defined.

Lemma max_safe_levelset_frame_witness :
  snd (max_safe_levelset 8 LyapunovTest.lyap_origin_only (1 # 2)
         (Some 7%nat) MoreTests.store) !! 3%nat = Some [1; 1] /\
  snd (max_safe_levelset 8 LyapunovTest.lyap_origin_only (1 # 2)
         None MoreTests.store) !! 7%nat = Some [0; 4; 9].
Proof.
  split.
  - apply max_safe_levelset_frame; [reflexivity | discriminate].
  - apply max_safe_levelset_frame; [reflexivity | discriminate].
Defined.

Lemma update_safe_set_idempotent_witness :
  let r := update_safe_set LyapunovTest.contracting_class 64 (1 # 10) None
             (LyapunovTest.contracting, ∅) in
  exists h2 : heap,
    update_safe_set LyapunovTest.contracting_class 64 (1 # 10) None
      (fst (snd r), snd (snd r)) = (Ok tt, (fst (snd r), h2)).
Proof.
  intros r.
  destruct (update_safe_set_idempotent LyapunovTest.contracting_class 64
              (1 # 10) None LyapunovTest.contracting ∅ (snd (snd r))
              (fst (snd r))) as (h2 & H2 & _).
  - left. by exists (Scalar (1 # 2)), (Scalar 1).
  - lia.
  - vm_compute. reflexivity.
  - by exists h2.
Defined.

Lemma update_safe_set_keeps_level_set_witness :
  let r := update_safe_set LyapunovBase 8 (1 # 10) None
             (LyapunovTest.lyap, ∅) in
  cmax (fst (snd r)) = cmax LyapunovTest.lyap /\
  safe_set (fst (snd r)) = safe_set LyapunovTest.lyap.
Proof.
  intros r.
  destruct (update_safe_set_keeps_level_set LyapunovBase 8 (1 # 10) None
              LyapunovTest.lyap ∅) as (_ & Hfail & _).
  apply Hfail. discriminate.
Defined.

Lemma update_safe_set_initial_everywhere_witness :
  exists m self' (h' : heap),
    update_safe_set LyapunovTest.mock_class 0 (1 # 10) None
      (MoreTests.lyap_initial_everywhere, ∅) = (Ok tt, (self', h')) /\
    np_max (V MoreTests.lyap_initial_everywhere) = Ok m /\
    cmax self' = m /\
    (forall b, b ∈ safe_set self' -> b = true).
Proof.
  destruct (update_safe_set_initial_everywhere LyapunovTest.mock_class 0
              (1 # 10) MoreTests.lyap_initial_everywhere ∅
              [true; true; true; true] [true; true; true; true])
    as (m & self' & h' & H1 & H2 & H3 & _ & _ & _ & H4);
    try reflexivity; try discriminate.
  - intros b Hb.
    repeat (apply elem_of_cons in Hb as [-> | Hb]; [reflexivity |]).
    inversion Hb.
  - by exists m, self', h'.
Defined.

Lemma nonnegative_bound_never_marked_witness :
  nd_all (fun t => t <= 0)
    (Scalar (- (3 # 10) * (1 + (2 # 5)) * LyapunovTest.epsilon)) /\
  nd_all (fun t => t <= 0) (Scalar (- (3 # 10) * LyapunovTest.epsilon)) /\
  [true; true; false; true] !! 2%nat = Some false.
Proof.
  destruct nonnegative_bound_never_marked as (Hd & Hc & Hs).
  split; [| split].
  - apply (Hd (Scalar (2 # 5)) (Scalar (3 # 10)) LyapunovTest.lyap);
      [discriminate | discriminate | discriminate | reflexivity].
  - apply (Hc (Scalar (3 # 10)) LyapunovTest.lyap);
      [discriminate | discriminate | reflexivity].
  - apply (Hs LyapunovTest.mock_class LyapunovTest.lyap []
             [- (1 # 2) + 0; - (1 # 5) + 0; 0 + 0; -1 + 0]
             (Scalar (- (15 # 100))) [true; true; false; true])
      with (x := 0 + 0);
      [reflexivity | reflexivity | discriminate | exact I | reflexivity
      | reflexivity | discriminate].
Defined.

Lemma error_bounds_conservative_witness :
  let m := map (map (fun v => v / 2)) LyapunovTest.discretization in
  let self' :=
    set_dynamics (fun _ _ => Pair m MoreTests.error_bounds)
      LyapunovTest.contracting in
  safety_constraint LyapunovTest.contracting_class LyapunovTest.contracting
    [] false = Ok (Arr [false; true; true; true]) /\
  safety_constraint LyapunovTest.contracting_class self' [] false
    = Ok (Arr [false; false; true; true]) /\
  Forall2 (fun x1 x0 : bool => x1 = true -> x0 = true)
    [false; false; true; true] [false; true; true; true].
Proof.
  intros m self'.
  assert (H0 : safety_constraint LyapunovTest.contracting_class
                 LyapunovTest.contracting [] false
               = Ok (Arr [false; true; true; true]))
    by (vm_compute; reflexivity).
  assert (H1 : safety_constraint LyapunovTest.contracting_class self' []
                 false = Ok (Arr [false; false; true; true]))
    by (vm_compute; reflexivity).
  split; [exact H0 | split; [exact H1 |]].
  destruct (error_bounds_conservative (Scalar (1 # 2)) (Scalar 1)
              LyapunovTest.contracting [] m MoreTests.error_bounds)
    as [_ Hsafe].
  - discriminate.
  - repeat constructor; discriminate.
  - reflexivity.
  - exact (Hsafe false _ _ H0 H1).
Defined.

Lemma continuous_error_bounds_conservative_witness :
  let self' :=
    set_dynamics (fun _ _ => Pair PlaneTest.prediction PlaneTest.error_bounds)
      PlaneTest.lyap in
  safety_constraint
    (LyapunovContinuous.class (Scalar 1) PlaneTest.gradient)
    PlaneTest.lyap [] false = Ok (Arr [false; true; true]) /\
  safety_constraint
    (LyapunovContinuous.class (Scalar 1) PlaneTest.gradient)
    self' [] false = Ok (Arr [false; false; true]) /\
  Forall2 (fun x1 x0 : bool => x1 = true -> x0 = true)
    [false; false; true] [false; true; true].
Proof.
  intros self'.
  assert (H0 : safety_constraint
                 (LyapunovContinuous.class (Scalar 1) PlaneTest.gradient)
                 PlaneTest.lyap [] false = Ok (Arr [false; true; true]))
    by (vm_compute; reflexivity).
  assert (H1 : safety_constraint
                 (LyapunovContinuous.class (Scalar 1) PlaneTest.gradient)
                 self' [] false = Ok (Arr [false; false; true]))
    by (vm_compute; reflexivity).
  split; [exact H0 | split; [exact H1 |]].
  destruct (continuous_error_bounds_conservative (Scalar 1)
              PlaneTest.gradient PlaneTest.lyap [] PlaneTest.prediction
              PlaneTest.error_bounds) as (_ & Hsafe).
  - repeat constructor; discriminate.
  - reflexivity.
  - exact (Hsafe false _ _ H0 H1).
Defined.

Lemma smallest_boundary_value_degenerate_witness :
  smallest_boundary_value (map norm1) MoreTests.hollow_grid
    = Raise IndexError /\
  smallest_boundary_value (map norm1) (mkGridWorld []) = Ok Infinity.
Proof.
  split.
  - apply smallest_boundary_value_degenerate.
    apply list_elem_of_further, list_elem_of_here.
  - apply smallest_boundary_value_degenerate. reflexivity.
Defined.

Lemma lipschitz_constant_nonnegative_witness :
  nd_all (fun q => 0 <= q) (Scalar (1 * 4 + 3 * 2)) /\
  forall self thr,
    0 <= epsilon self ->
    LyapunovContinuous.threshold (Scalar (1 * 4 + 3 * 2)) self = Ok thr ->
    nd_all (fun t => t <= 0) thr.
Proof.
  apply (lipschitz_constant_nonnegative (Scalar 1) (Scalar 2) (Scalar 3)
           (Scalar 4)); [discriminate .. | reflexivity].
Defined.
